(** * near-api-js: the transaction submission and retry engine

    A shallow embedding of [Account.signTransaction],
    [Account.signAndSendTransactionV2], [Account.findAccessKey]
    (esm/account.js) and of [WalletRpcProvider.sendJsonRpc]
    (providers/wallet-rpc-provider.ts), with the properties of the
    specification stated and proved over it; and of the methods around
    them: [WalletRpcProvider.query], the methods of [Account] that submit
    one list of actions or query the node, and [CreateArgs] of
    ContractJSI.ts, with properties read off the code.

    Asynchronous functions are embedded as resumptions: a computation runs
    on the shared object state until its next [await], where it hands the
    state back together with the pending request and a continuation.  A
    single flow is executed against a mock of the outside world ([run]);
    concurrent calls are interleaved at their suspension points
    ([pool_step], and [pool_trace] with the requests made).

    JavaScript numbers are doubles: [++] and the printing of a number are
    those of doubles ([increment], [Number_toString]).

    The suspension points are the calls that leave the object: to the
    signer, the provider, the wallet proxy, the signing function and the
    timer.  An [await] of one of the object's own async functions also
    yields, but between the return of the inner function and the next call
    that leaves the object its caller touches neither the cache nor the
    cached objects, so these yields add no interleaving of the accesses to
    them. *)

From Stdlib Require Import ZArith QArith String List Sorted Lia.
From stdpp Require Import base tactics option list gmap strings pretty.

Open Scope Z_scope.
Open Scope string_scope.
Open Scope list_scope.

(* ================================================================== *)
(** * Part I: definitions *)
(* ================================================================== *)

(** ** JavaScript values *)

Module JS.

(** The JSON-like fragment of JavaScript values that the code inspects
    dynamically.  Numbers are the integer-valued doubles, each given by
    the integer it is. *)
#[warnings="-register-all"] Inductive value : Type :=
| VUndefined
| VNull
| VBool (b : bool)
| VNum (z : Z)
| VStr (s : string)
| VArr (items : list value)
| VObj (fields : list (string * value)).

(** What is thrown and caught: an error object with its [message], its
    [type] property ([undefined] on an error that is not a
    [TypedError]) and its [context] property
    ([ErrorContext.transactionHash], when one was attached). *)
Record js_error : Type := mkError {
  err_message : string;
  err_type : value;
  err_context : option string
}.

(** [new TypedError(message, type)] *)
Definition TypedError (message type : string) : js_error :=
  {| err_message := message; err_type := VStr type; err_context := None |}.

(** The [TypeError] raised by a property read on [null] or [undefined]. *)
Definition TypeError (message : string) : js_error :=
  {| err_message := message; err_type := VUndefined; err_context := None |}.

(** [error.type === t] for a string literal [t] *)
Definition has_type (e : js_error) (t : string) : bool :=
  match err_type e with
  | VStr t' => String.eqb t' t
  | _ => false
  end.

(** [typeof v] *)
Definition typeof (v : value) : string :=
  match v with
  | VUndefined => "undefined"
  | VNull => "object"
  | VBool _ => "boolean"
  | VNum _ => "number"
  | VStr _ => "string"
  | VArr _ => "object"
  | VObj _ => "object"
  end.

(** [Array.isArray(v)] *)
Definition isArray (v : value) : bool :=
  match v with VArr _ => true | _ => false end.

(** ToBoolean *)
Definition truthy (v : value) : bool :=
  match v with
  | VUndefined | VNull => false
  | VBool b => b
  | VNum z => negb (z =? 0)%Z
  | VStr s => negb (String.eqb s "")
  | VArr _ | VObj _ => true
  end.

Fixpoint assoc (name : string) (fields : list (string * value)) : value :=
  match fields with
  | [] => VUndefined
  | (k, v) :: rest => if String.eqb k name then v else assoc name rest
  end.

(** [v.name] for the property names read by the code ([error], [data],
    [code], [message], [error_message], [error_type], [Failure]): a
    [TypeError] on [null] and [undefined], the field of an object,
    [undefined] on everything else. *)
Definition get_prop (v : value) (name : string) : js_error + value :=
  match v with
  | VUndefined =>
      inl (TypeError ("Cannot read properties of undefined (reading '" +:+ name +:+ "')"))
  | VNull =>
      inl (TypeError ("Cannot read properties of null (reading '" +:+ name +:+ "')"))
  | VObj fields => inr (assoc name fields)
  | _ => inr VUndefined
  end.

(** [v[0]] on an array *)
Definition first_item (items : list value) : value :=
  match items with
  | [] => VUndefined
  | v :: _ => v
  end.

(** *** Numbers *)

(** A number is an IEEE 754 double; the ones considered are
    integer-valued.  [to_double z] is the double nearest to the integer
    [z], a tie going to the even significand: every integer of magnitude
    up to 2^53 is a double, and beyond the doubles are the multiples of
    the power of two that leaves 53 significant bits.  (Integers beyond
    the largest finite double are not considered.) *)
Definition to_double (z : Z) : Z :=
  let a := Z.abs z in
  if (a <=? 2 ^ 53)%Z then z
  else
    let e := (Z.log2 a - 52)%Z in
    let q := (a / 2 ^ e)%Z in
    let r := (a mod 2 ^ e)%Z in
    let half := (2 ^ (e - 1))%Z in
    let q' := if (r <? half)%Z then q
              else if (half <? r)%Z then (q + 1)%Z
              else if Z.even q then q else (q + 1)%Z in
    (Z.sgn z * (q' * 2 ^ e))%Z.

(** [++x] on a number: the double nearest to [x + 1]. *)
Definition increment (x : Z) : Z := to_double (x + 1).

(** Number::toString on an integer-valued double.  The digits are those of
    the least number of digits [k] for which some [s] of [k] digits and
    some [n] make [s * 10^(n - k)] denote the number, the [s] closest to
    it, and the even one of two equally close; up to [n = 21] they are
    followed by zeros, beyond the form is the exponential one. *)
Definition digits_at (a d k : Z) : option Z :=
  let p := (10 ^ (d - k))%Z in
  let s1 := (a / p)%Z in
  let s2 := (s1 + 1)%Z in
  let denotes s :=
    ((10 ^ (k - 1) <=? s)%Z && (s <? 10 ^ k)%Z && (to_double (s * p) =? a)%Z)%bool in
  match denotes s1, denotes s2 with
  | true, true =>
      let below := (a - s1 * p)%Z in
      let above := (s2 * p - a)%Z in
      if (below <? above)%Z then Some s1
      else if (above <? below)%Z then Some s2
      else Some (if Z.even s1 then s1 else s2)
  | true, false => Some s1
  | false, true => Some s2
  | false, false => None
  end.

Fixpoint shortest_digits (more : nat) (a d k : Z) : option (Z * Z) :=
  match more with
  | O => None
  | S more' =>
      match digits_at a d k with
      | Some s => Some (s, k)
      | None => shortest_digits more' a d (k + 1)%Z
      end
  end.

Definition Number_toString (z : Z) : string :=
  let a := Z.abs z in
  if (a <=? 2 ^ 53)%Z then pretty z
  else
    let d := Z.of_nat (String.length (pretty a)) in
    let found :=
      if (to_double (10 ^ d) =? a)%Z then Some (1%Z, 1%Z, (d + 1)%Z)
      else match shortest_digits 17 a d 1 with
           | Some (s, k) => Some (s, k, d)
           | None => None
           end in
    match found with
    | None => pretty z
    | Some (s, k, n) =>
        (if (z <? 0)%Z then "-" else "")
        +:+ (if (n <=? 21)%Z then
               pretty s +:+ String.concat "" (replicate (Z.to_nat (n - k)) "0")
             else
               match pretty s with
               | String first rest =>
                   String first (if (k =? 1)%Z then "" else "." +:+ rest)
                     +:+ "e+" +:+ pretty (n - 1)%Z
               | EmptyString => ""
               end)
    end.

(** ToString, as applied by a template literal. *)
Fixpoint toString (v : value) : string :=
  match v with
  | VUndefined => "undefined"
  | VNull => "null"
  | VBool true => "true"
  | VBool false => "false"
  | VNum z => Number_toString z
  | VStr s => s
  | VArr items =>
      String.concat ","
        (map (fun x => match x with
                       | VUndefined | VNull => ""
                       | _ => toString x
                       end) items)
  | VObj _ => "[object Object]"
  end.

(** [s.includes(needle)] *)
Fixpoint includes (s needle : string) : bool :=
  if String.prefix needle s then true
  else match s with
       | EmptyString => false
       | String _ s' => includes s' needle
       end.

(** A line written to the console. *)
Inductive console_line : Type :=
| ConsoleLog (text : string)
| ConsoleWarn (text : string) (args : list value).

End JS.
Export JS.

(** ** Asynchronous computations as resumptions *)

Section Resumption.
Context {St Err Req : Type} {Ans : Req -> Type}.

(** How a pending [await] is settled. *)
Inductive settled (T : Type) : Type :=
| Resolved (x : T)
| Rejected (e : Err).

(** A computation that has run up to its next suspension point: it
    returned, it threw, or it awaits the answer to a request.  The state
    is the one it left behind; the continuation receives the state it
    finds when it is resumed. *)
Inductive step (A : Type) : Type :=
| Done (a : A) (s : St)
| Fail (e : Err) (s : St)
| Await (r : Req) (s : St) (k : settled (Ans r) -> St -> step A).

Definition prog (A : Type) : Type := St -> step A.

End Resumption.

Arguments settled : clear implicits.
Arguments Resolved {Err T} x.
Arguments Rejected {Err T} e.
Arguments step : clear implicits.
Arguments prog : clear implicits.
Arguments Done {St Err Req Ans A} a s.
Arguments Fail {St Err Req Ans A} e s.
Arguments Await {St Err Req Ans A} r s k.

Section ResumptionOps.
Context {St Err Req : Type} {Ans : Req -> Type}.
Local Abbreviation step := (step St Err Req Ans).
Local Abbreviation prog := (prog St Err Req Ans).

Definition step_state {A} (t : step A) : St :=
  match t with
  | Done _ s | Fail _ s | Await _ s _ => s
  end.

Fixpoint bind_step {A B} (t : step A) (f : A -> prog B) : step B :=
  match t with
  | Done a s => f a s
  | Fail e s => Fail e s
  | Await r s k => Await r s (fun ans s' => bind_step (k ans s') f)
  end.

(** [try { t } catch (e) { h e }] *)
Fixpoint catch_step {A} (t : step A) (h : Err -> prog A) : step A :=
  match t with
  | Done a s => Done a s
  | Fail e s => h e s
  | Await r s k => Await r s (fun ans s' => catch_step (k ans s') h)
  end.

Definition ret {A} (a : A) : prog A := fun s => Done a s.
Definition throw {A} (e : Err) : prog A := fun s => Fail e s.
Definition bind {A B} (m : prog A) (f : A -> prog B) : prog B :=
  fun s => bind_step (m s) f.
Definition try_catch {A} (m : prog A) (h : Err -> prog A) : prog A :=
  fun s => catch_step (m s) h.

(** [await] of an external call: a rejection is thrown at the [await]. *)
Definition await (r : Req) : prog (Ans r) :=
  fun s => Await r s (fun ans s' =>
    match ans with
    | Resolved x => Done x s'
    | Rejected e => Fail e s'
    end).

Definition gets {A} (f : St -> A) : prog A := fun s => Done (f s) s.
Definition modify (f : St -> St) : prog unit := fun s => Done tt (f s).

(** Lifts a synchronous computation that may throw. *)
Definition lift_sum {E A} (inj : E -> Err) (x : E + A) : prog A :=
  match x with
  | inl e => throw (inj e)
  | inr a => ret a
  end.

(** *** One flow against a mock of the outside world *)

Record mock (M : Type) : Type := {
  respond : forall r : Req, M -> settled Err (Ans r) * M
}.

Inductive result (A : Type) : Type :=
| Returned (a : A)
| Raised (e : Err).

Record run_result (A M : Type) : Type := mkRun {
  run_outcome : result A;
  run_state : St;
  run_mock : M;
  run_trace : list Req
}.

Definition traced {A M} (r : Req) (x : run_result A M) : run_result A M :=
  {| run_outcome := run_outcome _ _ x; run_state := run_state _ _ x;
     run_mock := run_mock _ _ x; run_trace := r :: run_trace _ _ x |}.

(** Runs the computation to its end; each request is answered by the
    mock and recorded. *)
Fixpoint run {A M} (mk : mock M) (t : step A) (m : M) : run_result A M :=
  match t with
  | Done a s => mkRun _ _ (Returned _ a) s m []
  | Fail e s => mkRun _ _ (Raised _ e) s m []
  | Await r s k =>
      let '(ans, m') := respond _ mk r m in
      traced r (run mk (k ans s) m')
  end.

(** The run of [t] followed by the run of what comes after it. *)
Definition run_then {A B M} (r : run_result A M)
    (k : A -> St -> M -> run_result B M) : run_result B M :=
  match run_outcome _ _ r with
  | Returned _ a =>
      let r' := k a (run_state _ _ r) (run_mock _ _ r) in
      mkRun _ _ (run_outcome _ _ r') (run_state _ _ r') (run_mock _ _ r')
        (run_trace _ _ r ++ run_trace _ _ r')
  | Raised _ e =>
      mkRun _ _ (Raised _ e) (run_state _ _ r) (run_mock _ _ r) (run_trace _ _ r)
  end.

(** The run of [t] followed by the run of its handler, if it raised. *)
Definition run_handle {A M} (r : run_result A M)
    (h : Err -> St -> M -> run_result A M) : run_result A M :=
  match run_outcome _ _ r with
  | Returned _ a => r
  | Raised _ e =>
      let r' := h e (run_state _ _ r) (run_mock _ _ r) in
      mkRun _ _ (run_outcome _ _ r') (run_state _ _ r') (run_mock _ _ r')
        (run_trace _ _ r ++ run_trace _ _ r')
  end.

(** A run preceded by the requests already made. *)
Definition prefixed {A M} (trace : list Req) (r : run_result A M) : run_result A M :=
  mkRun _ _ (run_outcome _ _ r) (run_state _ _ r) (run_mock _ _ r)
    (trace ++ run_trace _ _ r).

(** *** Concurrent calls sharing the state *)

(** A suspended call is resumed with some answer allowed by [env], on the
    state the other calls have left. *)
Definition task_resumes {A} (env : forall r, settled Err (Ans r) -> Prop)
    (t : step A) (shared : St) (t' : step A) : Prop :=
  match t with
  | Await r _ k => exists ans : settled Err (Ans r), env r ans /\ t' = k ans shared
  | _ => False
  end.

Record pool (A : Type) : Type := mkPool {
  shared : St;
  tasks : list (step A)
}.

(** One scheduling step: a new call (one of [spawnable]) starts and runs
    to its first suspension point, or a suspended call is resumed. *)
Inductive pool_step {A} (env : forall r, settled Err (Ans r) -> Prop)
    (spawnable : prog A -> Prop) : pool A -> pool A -> Prop :=
| pool_spawn p (c : prog A) :
    spawnable c ->
    pool_step env spawnable p
      (mkPool _ (step_state (c (shared _ p))) (tasks _ p ++ [c (shared _ p)]))
| pool_resume p i t t' :
    tasks _ p !! i = Some t ->
    task_resumes env t (shared _ p) t' ->
    pool_step env spawnable p
      (mkPool _ (step_state t') (<[i := t']> (tasks _ p))).

Inductive pool_steps {A} (env : forall r, settled Err (Ans r) -> Prop)
    (spawnable : prog A -> Prop) : pool A -> pool A -> Prop :=
| pool_steps_refl p : pool_steps env spawnable p p
| pool_steps_snoc p q r :
    pool_steps env spawnable p q -> pool_step env spawnable q r ->
    pool_steps env spawnable p r.

(** The request a call that has run up to a suspension point makes
    there. *)
Definition requested {A} (t : step A) : list Req :=
  match t with
  | Await r _ _ => [r]
  | Done _ _ | Fail _ _ => []
  end.

(** An interleaving together with the requests made in its course, latest
    first: each scheduling step adds the request at which the call it
    started or resumed is suspended next. *)
Inductive pool_trace {A} (env : forall r, settled Err (Ans r) -> Prop)
    (spawnable : prog A -> Prop) : pool A -> list Req -> pool A -> Prop :=
| pool_trace_refl p : pool_trace env spawnable p [] p
| pool_trace_spawn p trace q (c : prog A) :
    pool_trace env spawnable p trace q ->
    spawnable c ->
    pool_trace env spawnable p (requested (c (shared _ q)) ++ trace)
      (mkPool _ (step_state (c (shared _ q))) (tasks _ q ++ [c (shared _ q)]))
| pool_trace_resume p trace q i t t' :
    pool_trace env spawnable p trace q ->
    tasks _ q !! i = Some t ->
    task_resumes env t (shared _ q) t' ->
    pool_trace env spawnable p (requested t' ++ trace)
      (mkPool _ (step_state t') (<[i := t']> (tasks _ q))).

(** *** Properties of a call under every interleaving *)

(** The call keeps the state invariant [Inv], whatever answers it gets and
    whatever invariant-respecting state it finds when it is resumed. *)
Fixpoint preserves {A} (Inv : St -> Prop) (t : step A) : Prop :=
  match t with
  | Done _ s | Fail _ s => Inv s
  | Await r s k => Inv s /\ forall ans s', Inv s' -> preserves Inv (k ans s')
  end.

Definition keeps {A} (Inv : St -> Prop) (c : prog A) : Prop :=
  forall s, Inv s -> preserves Inv (c s).

(** The call only moves the state upwards in the order [le], and when it
    returns [a] the state satisfies [Q a]. *)
Fixpoint ascends {A} (le : St -> St -> Prop) (Q : A -> St -> Prop)
    (from : St) (t : step A) : Prop :=
  match t with
  | Done a s => le from s /\ Q a s
  | Fail _ s => le from s
  | Await r s k => le from s /\ forall ans s', ascends le Q s' (k ans s')
  end.

(** The call accounts for what it appends to the log [obs] of the state:
    between two suspension points it appends exactly what [f] reads off
    the request it makes at the second, whatever answers it gets and
    whatever state it finds when it is resumed. *)
Fixpoint accounts_for {A X} (obs : St -> list X) (f : Req -> option X)
    (from : St) (t : step A) : Prop :=
  match t with
  | Done _ s | Fail _ s => obs s = obs from
  | Await r s k =>
      obs s = match f r with Some x => x :: obs from | None => obs from end
      /\ forall ans s', accounts_for obs f s' (k ans s')
  end.

(** What a pool of such calls maintains for each of them: the call has
    only moved the state upwards, and the result of a call that returned
    still holds in the shared state. *)
Definition settled_in {A} (le : St -> St -> Prop) (Q : A -> St -> Prop)
    (shared : St) (t : step A) : Prop :=
  le (step_state t) shared
  /\ (exists from, ascends le Q from t)
  /\ match t with Done a _ => Q a shared | _ => True end.

End ResumptionOps.

Arguments mock : clear implicits.
Arguments result : clear implicits.
Arguments Returned {Err A} a.
Arguments Raised {Err A} e.
Arguments run_result : clear implicits.
Arguments mkRun {St Err Req A M}.
Arguments run_outcome {St Err Req A M}.
Arguments run_state {St Err Req A M}.
Arguments run_mock {St Err Req A M}.
Arguments run_trace {St Err Req A M}.
Arguments respond {Err Req Ans M}.
Arguments pool : clear implicits.
Arguments prefixed {St Err Req A M}.
Arguments mkPool {St Err Req Ans A}.
Arguments shared {St Err Req Ans A}.
Arguments tasks {St Err Req Ans A}.

Declare Scope prog_scope.
Delimit Scope prog_scope with prog.
Notation "x <- m ;; k" := (bind m (fun x => k))
  (at level 100, m at next level, right associativity) : prog_scope.
Notation "m ;;; k" := (bind m (fun _ => k))
  (at level 100, right associativity) : prog_scope.

(** *** What a call can return and request *)

Section Outcomes.
Context {St Err Req : Type} {Ans : Req -> Type}.

(** Whatever answers the call gets and whatever state it finds when it is
    resumed, a value it returns satisfies [P]. *)
Fixpoint returns_only {A} (P : A -> Prop) (t : step St Err Req Ans A) : Prop :=
  match t with
  | Done a _ => P a
  | Fail _ _ => True
  | Await _ _ k => forall answer s', returns_only P (k answer s')
  end.

(** Likewise, every request it makes satisfies [P]. *)
Fixpoint requests_only {A} (P : Req -> Prop) (t : step St Err Req Ans A) : Prop :=
  match t with
  | Done _ _ | Fail _ _ => True
  | Await r _ k => P r /\ forall answer s', requests_only P (k answer s')
  end.

End Outcomes.

(** ** The backoff executor *)

(** The value an attempt returns to ask for another attempt ([null] in both
    callers). *)
Class RetrySignal (A : Type) : Type := {
  retry_signal : A;
  is_retry_signal : A -> bool
}.

#[export] Instance value_retry_signal : RetrySignal value := {|
  retry_signal := VNull;
  is_retry_signal v := match v with VNull => true | _ => false end
|}.

#[export] Instance option_retry_signal {X : Type} : RetrySignal (option X) := {|
  retry_signal := None;
  is_retry_signal o := match o with None => true | Some _ => false end
|}.

Section Backoff.
Context {St Err Req : Type} {Ans : Req -> Type}.
Context {A : Type} `{RetrySignal A}.
Variable sleep : Q -> prog St Err Req Ans unit.

(** Modelled from the spec: utils/exponential-backoff is not among the
    sources.  Section 4.1: the executor invokes the attempt; a raise
    propagates at once; a final result is returned; on a retry-signal it
    tries again, the delay between attempts being the initial delay
    times the multiplier to the power of the attempt number minus one;
    after [retryNumber] retry-signals it returns the retry-signal
    itself. *)
Fixpoint exponentialBackoff (startWaitTime : Q) (retryNumber : nat)
    (waitBackoff : Q) (getResult : prog St Err Req Ans A) : prog St Err Req Ans A :=
  match retryNumber with
  | O => ret retry_signal
  | S n =>
      (result <- getResult ;;
       if is_retry_signal result then
         match n with
         | O => ret retry_signal
         | S _ =>
             (sleep startWaitTime ;;;
              exponentialBackoff (Qred (startWaitTime * waitBackoff)) n
                waitBackoff getResult)
         end
       else ret result)%prog
  end.

End Backoff.

(** ** The RPC request channel: [WalletRpcProvider.sendJsonRpc] *)

(** The error classifier of utils/rpc_errors, which is not among the
    sources: it is total and never raises (section 4.2 of the spec), and
    the channel is verified for every such classifier. *)
Class RpcErrors : Type := {
  parseRpcError : value -> js_error;
  getErrorTypeFromErrorMessage : value -> string
}.

(** [JSON.stringify(value, null, 2)], the built-in, which the channel uses
    for the text of one error message only. *)
Class JSON : Type := {
  JSON_stringify : value -> string
}.

Module Provider.

(** Default number of retries before giving up on a request. *)
Definition REQUEST_RETRY_NUMBER : nat := 12.
(** Default wait until next retry in millis. *)
Definition REQUEST_RETRY_WAIT : Q := 500 # 1.
(** Exponential back off for waiting to retry. *)
Definition REQUEST_RETRY_WAIT_BACKOFF : Q := 3 # 2.

Record RequestParams : Type := mkRequest {
  method : string;
  params : value;
  id : Z;
  jsonrpc : string
}.

(** The suspension points of the channel: the round trip through the
    wallet proxy and the delay between attempts. *)
Inductive req : Type :=
| ProxyRequest (args : RequestParams)
| Sleep (ms : Q).

Definition ans (r : req) : Type :=
  match r with
  | ProxyRequest _ => value
  | Sleep _ => unit
  end.

(** What is thrown in the model: a JavaScript error, or the marker that
    the model ran out of depth for nested follow-up queries (no
    counterpart in the code). *)
Inductive exn : Type :=
| Thrown (e : js_error)
| OutOfFuel.

(** The module-level request counter, the fields of the provider, the
    console and the NEAR_NO_LOGS environment flag. *)
Record state : Type := mkState {
  _nextId : Z;
  _network : string;
  _account : string;
  _pubKey : string;
  console : list console_line;
  NEAR_NO_LOGS : bool
}.

Definition set_nextId (n : Z) (s : state) : state :=
  mkState n (_network s) (_account s) (_pubKey s) (console s) (NEAR_NO_LOGS s).

Definition console_warn (text : string) (args : list value) (s : state) : state :=
  mkState (_nextId s) (_network s) (_account s) (_pubKey s)
    (console s ++ [ConsoleWarn text args]) (NEAR_NO_LOGS s).

Abbreviation prog := (prog state exn req ans).
Abbreviation step := (step state exn req ans).

(** The delay between attempts: a timer, which cannot fail. *)
Definition sleep (ms : Q) : prog unit :=
  fun s => Await (Sleep ms) s (fun _ s' => Done tt s').

Definition lift {A} (x : js_error + A) : prog A := lift_sum Thrown x.

Section Channel.
Context `{RpcErrors}.

(** The branch taken when the response carries an [error]: it always
    throws. *)
Definition classify_error (error : value) : prog value :=
  (data <- lift (get_prop error "data") ;;
   if String.eqb (typeof data) "object" then
     (error_message <- lift (get_prop data "error_message") ;;
      error_type <- lift (get_prop data "error_type") ;;
      match error_message, error_type with
      | VStr m, VStr t =>
          (* the node returned an error in the old format *)
          throw (Thrown (TypedError m t))
      | _, _ => throw (Thrown (parseRpcError data))
      end)
   else
     (code <- lift (get_prop error "code") ;;
      message <- lift (get_prop error "message") ;;
      let errorMessage :=
        "[" +:+ toString code +:+ "] " +:+ toString message +:+ ": "
            +:+ toString data in
      if match data with VStr d => String.eqb d "Timeout" | _ => false end
         || includes errorMessage "Timeout error"
         || includes errorMessage "query has timed out"
      then throw (Thrown (TypedError errorMessage "TimeoutError"))
      else throw (Thrown (TypedError errorMessage
                            (getErrorTypeFromErrorMessage data)))))%prog.

(** The [try] block of one attempt.  [txStatusString] is the method of
    that name, which calls back into [sendJsonRpc]. *)
Definition attempt_body (txStatusString : value -> string -> prog value)
    (method : string) (params : value) : prog value :=
  (next <- gets _nextId ;;
   modify (set_nextId (next + 1)) ;;;
   let request := mkRequest method params next "2.0" in
   response <- await (ProxyRequest request) ;;
   match response with
   | VArr items =>
       (* Success when error is not exist *)
       (account <- gets _account ;;
        txStatusString (first_item items) account)
   | _ =>
       (error <- lift (get_prop response "error") ;;
        if truthy error then classify_error error
        else (* Success when response.error is not exist *)
          ret response)
   end)%prog.

(** The state after the warning of a timed-out attempt, which NEAR_NO_LOGS
    suppresses. *)
Definition timeout_warning (method : string) (params : value) (s : state) : state :=
  if NEAR_NO_LOGS s then s
  else console_warn ("Retrying request to " +:+ method +:+ " as it has timed out")
         [params] s.

(** The [catch] block of one attempt. *)
Definition attempt_handler (method : string) (params : value) (e : exn)
    : prog value :=
  match e with
  | OutOfFuel => throw OutOfFuel
  | Thrown error =>
      if has_type error "TimeoutError" then
        (no_logs <- gets NEAR_NO_LOGS ;;
         (if no_logs then ret tt
          else modify (console_warn
                 ("Retrying request to " +:+ method +:+ " as it has timed out")
                 [params])) ;;;
         ret VNull)%prog
      else throw (Thrown error)
  end.

Definition attempt (txStatusString : value -> string -> prog value)
    (method : string) (params : value) : prog value :=
  try_catch (attempt_body txStatusString method params)
            (attempt_handler method params).

Definition RetriesExceeded (method : string) : js_error :=
  TypedError ("Exceeded " +:+ pretty REQUEST_RETRY_NUMBER
                +:+ " attempts for request to " +:+ method +:+ ".")
             "RetriesExceeded".

(** [sendJsonRpc(method, params)].  [fuel] bounds the nesting of
    follow-up status queries, each of which is a call of [sendJsonRpc]
    again. *)
Fixpoint sendJsonRpc (fuel : nat) (method : string) (params : value)
    : prog value :=
  match fuel with
  | O => throw OutOfFuel
  | S fuel' =>
      let txStatusString txHash accountId :=
        sendJsonRpc fuel' "tx" (VArr [txHash; VStr accountId]) in
      (response <- exponentialBackoff sleep REQUEST_RETRY_WAIT
                     REQUEST_RETRY_NUMBER REQUEST_RETRY_WAIT_BACKOFF
                     (attempt txStatusString method params) ;;
       let result := response in
       if String.eqb (typeof result) "undefined"
       then throw (Thrown (RetriesExceeded method))
       else ret result)%prog
  end.

(** [txStatusString(txHash, accountId)] *)
Definition txStatusString (fuel : nat) (txHash : value) (accountId : string)
    : prog value :=
  sendJsonRpc fuel "tx" (VArr [txHash; VStr accountId]).

End Channel.

(** The round trips through the proxy among the requests of a run. *)
Definition proxy_requests (trace : list req) : list RequestParams :=
  omap (fun r => match r with ProxyRequest args => Some args | Sleep _ => None end)
       trace.

(** A wallet proxy that gives the same answer to every request and counts
    the requests it gets. *)
Definition answering (answer : value) : mock exn req ans nat :=
  {| respond r m :=
       match r return settled exn (ans r) * nat with
       | ProxyRequest _ => (Resolved answer, S m)
       | Sleep _ => (Resolved tt, m)
       end |}.

(** A wallet proxy that gives the answers of a script, in order. *)
Definition replaying : mock exn req ans (list value) :=
  {| respond r m :=
       match r return settled exn (ans r) * list value with
       | ProxyRequest _ =>
           match m with
           | [] => (Resolved VUndefined, [])
           | answer :: rest => (Resolved answer, rest)
           end
       | Sleep _ => (Resolved tt, m)
       end |}.

(** The node's timeout error, and the proxy behind which the node times
    out on every request. *)
Definition timeout_answer : value :=
  VObj [("error", VObj [("code", VNum (-32000)); ("message", VStr "Server error");
                        ("data", VStr "Timeout")])].

Definition timing_out : mock exn req ans nat := answering timeout_answer.

(** *** The query method *)

Section Methods.
Context `{RpcErrors} `{JSON}.

Definition newline : string := String (Ascii.ascii_of_nat 10) "".

(** [query(...args)]: one argument is the request object, otherwise the
    first two are the path and the data of the legacy form; a result that
    carries a truthy [error] is turned into a [TypedError]. *)
Definition query (fuel : nat) (args : list value) : prog value :=
  (result <- (if (length args =? 1)%nat
              then sendJsonRpc fuel "query" (first_item args)
              else
                let path := nth 0 args VUndefined in
                let data := nth 1 args VUndefined in
                sendJsonRpc fuel "query" (VArr [path; data])) ;;
   if truthy result then
     (error <- lift (get_prop result "error") ;;
      if truthy error then
        throw (Thrown (TypedError
          ("Querying " +:+ toString (VArr args) +:+ " failed: " +:+ toString error
             +:+ "." +:+ newline +:+ JSON_stringify result)
          (getErrorTypeFromErrorMessage error)))
      else ret result)
   else ret result)%prog.


End Methods.

(** *** What the properties of the channel speak about *)

(** The value has no truthy [error] property. *)
Definition error_free (v : value) : bool :=
  match get_prop v "error" with
  | inr error => negb (truthy error)
  | inl _ => true
  end.



(** The provider differs from [s] in the counter and the console only: the
    counter has not gone back, and the console has gained warnings, none
    of them when NEAR_NO_LOGS is set. *)
Definition extends (s s' : state) : Prop :=
  _network s' = _network s
  /\ _account s' = _account s
  /\ _pubKey s' = _pubKey s
  /\ NEAR_NO_LOGS s' = NEAR_NO_LOGS s
  /\ _nextId s <= _nextId s'
  /\ exists warnings,
       console s' = console s ++ warnings
       /\ Forall (fun line => exists text args, line = ConsoleWarn text args) warnings
       /\ (NEAR_NO_LOGS s = true -> warnings = []).

End Provider.

(** ** The submission engine: [Account] *)

Definition bytes : Type := list Z.

(** The transaction and its signed form (transaction.ts, not among the
    sources); a [PublicKey] is represented by its [toString()]. *)
Module Tx.
Record Transaction : Type := mkTransaction {
  signerId : string;
  publicKey : string;
  nonce : Z;
  receiverId : string;
  actions : list value;
  blockHash : bytes
}.
Record SignedTransaction : Type := mkSigned {
  transaction : Transaction;
  signature : bytes
}.
End Tx.

(** The results declared in providers/provider.ts.  The [status] fields
    stay dynamic values: the code inspects them with [typeof]. *)
Record ExecutionOutcome : Type := mkOutcome {
  logs : list string;
  receipt_ids : list string;
  status : value
}.

Record ExecutionOutcomeWithId : Type := mkOutcomeWithId {
  id : string;
  outcome : ExecutionOutcome
}.

Record FinalExecutionOutcome : Type := mkFinal {
  final_status : value;
  transaction_outcome : ExecutionOutcomeWithId;
  receipts_outcome : list ExecutionOutcomeWithId
}.

Record BlockHeader : Type := mkHeader { hash : string }.
Record BlockResult : Type := mkBlock { header : BlockHeader }.

(** The state of an access key as the network reports it.  The nonce is a
    number of the safe-integer range, where [++] is exact. *)
Record AccessKeyView : Type := mkAccessKey {
  nonce : Z;
  permission : value
}.

(** What the engine takes from modules that are not among the sources:
    the base58 codec of borsh, [parseResultError] of utils/rpc_errors and
    the rendering of an error in a template literal. *)
Class AccountDeps : Type := {
  baseEncode : bytes -> string;
  baseDecode : string -> bytes;
  parseResultError : FinalExecutionOutcome -> js_error;
  error_toString : js_error -> string
}.

(** The arguments of a contract method: a [Uint8Array], or any other
    value. *)
Inductive call_args : Type :=
| Bytes (b : bytes)
| Json (v : value).

(** The action constructors of transaction.ts and [PublicKey.from] of
    utils/key_pair, which are not among the sources.  Amounts and gas are
    big numbers, which the account hands through as they are. *)
Module transaction.
Class Actions : Type := {
  transfer : value -> value;
  createAccount : value;
  deployContract : bytes -> value;
  addKey : value -> value -> value;
  deleteKey : value -> value;
  stake : value -> value -> value;
  deleteAccount : string -> value;
  functionCall : string -> call_args -> value -> value -> value -> value;
  fullAccessKey : value;
  functionCallAccessKey : value -> value -> value -> value;
  stringifyJsonOrBytes : value;
  PublicKey_from : value -> value;
  DEFAULT_FUNCTION_CALL_GAS : value
}.
End transaction.

(** What the read-only calls take from modules that are not among the
    sources: [new PositionalArgsError()] of utils/errors, [new BN(v)] of
    bn.js, which yields the integer [v] denotes or throws, and the base64
    rendering of a [Buffer]. *)
Class ViewDeps : Type := {
  PositionalArgsError : js_error;
  BN : value -> js_error + Z;
  base64 : bytes -> string
}.

(** The result of a contract view call, as providers/provider.ts declares
    it. *)
Record CodeResult : Type := mkCodeResult {
  code_result : bytes;
  code_logs : list string
}.

Module Account.

(** Default number of retries with different nonce before giving up on a
    transaction. *)
Definition TX_NONCE_RETRY_NUMBER : nat := 12.
(** Default wait until next retry in millis. *)
Definition TX_NONCE_RETRY_WAIT : Q := 500 # 1.
(** Exponential back off for waiting to retry. *)
Definition TX_NONCE_RETRY_WAIT_BACKOFF : Q := 3 # 2.

(** The fields of an [Account] that never change: [accountId],
    [connection.networkId] and the rendering of [connection.signer]. *)
Record account : Type := mkAccount {
  accountId : string;
  networkId : string;
  signer : string
}.

(** The objects held by the cache are shared with the calls that
    resolved them: the cache maps a key to a reference, the heap maps a
    reference to the object. *)
Definition ref : Type := nat.

(** History of the two operations the properties count; it is written
    and never read. *)
Inductive event : Type :=
| Issued (entry : ref) (n : Z)
| Invalidated (publicKey : string).

Record state : Type := mkState {
  accessKeyByPublicKeyCache : gmap string ref;
  heap : list AccessKeyView;
  console : list console_line;
  NEAR_NO_LOGS : bool;
  history : list event
}.

(** The suspension points: the calls to the signer, to the provider and
    to [signTransaction] of transaction.ts, and the delay between
    attempts.  The signer answers with a key or [null], the provider
    answers a submission with the outcome or with a falsy value ([None]). *)
Inductive req : Type :=
| GetPublicKey (accountId networkId : string)
| Query (request_type account_id public_key finality : string)
| Block (finality : string)
| SignTransaction (receiverId : string) (nonce : Z) (actions : list value)
    (blockHash : bytes) (accountId networkId : string)
| SendTransaction (signedTx : Tx.SignedTransaction)
| Sleep (ms : Q).

Definition ans (r : req) : Type :=
  match r with
  | GetPublicKey _ _ => option string
  | Query _ _ _ _ => AccessKeyView
  | Block _ => BlockResult
  | SignTransaction _ _ _ _ _ _ => (bytes * Tx.SignedTransaction)%type
  | SendTransaction _ => option FinalExecutionOutcome
  | Sleep _ => unit
  end.

Abbreviation prog := (prog state js_error req ans).
Abbreviation step := (step state js_error req ans).

(** The delay between attempts: a timer, which cannot fail. *)
Definition sleep (ms : Q) : prog unit :=
  fun s => Await (Sleep ms) s (fun _ s' => Done tt s').

Definition lift {A} (x : js_error + A) : prog A := lift_sum (fun e => e) x.

Definition write (line : console_line) (s : state) : state :=
  mkState (accessKeyByPublicKeyCache s) (heap s) (console s ++ [line])
    (NEAR_NO_LOGS s) (history s).

(** [this.accessKeyByPublicKeyCache[publicKey] = accessKey]: the object
    just received becomes reachable from the cache. *)
Definition cache_store (publicKey : string) (accessKey : AccessKeyView)
    (s : state) : ref * state :=
  let entry := length (heap s) in
  (entry,
   mkState (<[publicKey := entry]> (accessKeyByPublicKeyCache s))
     (heap s ++ [accessKey]) (console s) (NEAR_NO_LOGS s) (history s)).

(** [delete this.accessKeyByPublicKeyCache[publicKey]] *)
Definition cache_delete (publicKey : string) (s : state) : state :=
  mkState (delete publicKey (accessKeyByPublicKeyCache s)) (heap s)
    (console s) (NEAR_NO_LOGS s) (Invalidated publicKey :: history s).

(** The state after [++accessKey.nonce] on the object behind [entry]: the
    object is updated in place. *)
Definition bump (entry : ref) (accessKey : AccessKeyView) (s : state) : state :=
  let n := increment (nonce accessKey) in
  mkState (accessKeyByPublicKeyCache s)
    (<[entry := mkAccessKey n (permission accessKey)]> (heap s))
    (console s) (NEAR_NO_LOGS s) (Issued entry n :: history s).

(** [++accessKey.nonce] on the object behind [entry].  References come
    from the heap, which never shrinks, so the lookup cannot fail. *)
Definition pre_increment_nonce (entry : ref) : prog Z := fun s =>
  match heap s !! entry with
  | Some accessKey => Done (increment (nonce accessKey)) (bump entry accessKey s)
  | None => Fail (TypeError "dangling reference") s
  end.

(** The state after a warning, which NEAR_NO_LOGS suppresses. *)
Definition warned (text : string) (s : state) : state :=
  if NEAR_NO_LOGS s then s else write (ConsoleWarn text []) s.

(** Modelled from the spec: [logWarning] of utils/errors is not among
    the sources; the spec has the engine warn, diagnostics being
    suppressible. *)
Definition logWarning (text : string) : prog unit :=
  (no_logs <- gets NEAR_NO_LOGS ;;
   if no_logs then ret tt else modify (write (ConsoleWarn text [])))%prog.

(** The nonces issued from the object behind [entry], latest first. *)
Definition issued_from (entry : ref) (h : list event) : list Z :=
  omap (fun ev => match ev with
                  | Issued e n => if Nat.eqb e entry then Some n else None
                  | Invalidated _ => None
                  end) h.

(** How often a cache entry was removed. *)
Definition invalidations (h : list event) : nat :=
  length (List.filter (fun ev => match ev with
                                 | Invalidated _ => true
                                 | Issued _ _ => false
                                 end) h).

(** All the nonces issued, latest first. *)
Definition issued (h : list event) : list Z :=
  omap (fun ev => match ev with
                  | Issued _ n => Some n
                  | Invalidated _ => None
                  end) h.

(** The nonce that a signing request carries. *)
Definition signed_nonce (r : req) : option Z :=
  match r with
  | SignTransaction _ nonce _ _ _ _ => Some nonce
  | _ => None
  end.

(** The nonces that the signing requests of a trace carry, in its order. *)
Definition signed_nonces (trace : list req) : list Z := omap signed_nonce trace.

(** A later nonce exceeds an earlier one, unless the later one has left
    the range in which [++] is exact, or the earlier one lies below it. *)
Definition follows (later earlier : Z) : Prop :=
  earlier < later \/ 2 ^ 53 <= later \/ earlier <= - 2 ^ 53.

(** Each nonce issued from an object follows the ones issued from it
    before, and none exceeds the nonce the object holds, the same
    exceptions made. *)
Definition nonce_inv (s : state) : Prop :=
  forall entry,
    StronglySorted follows (issued_from entry (history s))
    /\ forall n, In n (issued_from entry (history s)) ->
         exists accessKey,
           heap s !! entry = Some accessKey
           /\ (n <= nonce accessKey \/ 2 ^ 53 <= nonce accessKey \/ n <= - 2 ^ 53).

(** The cache only gains entries. *)
Definition cache_le (s s' : state) : Prop :=
  accessKeyByPublicKeyCache s ⊆ accessKeyByPublicKeyCache s'.

(** The entry a resolution returned is the one the cache holds. *)
Definition resolved_from_cache (r : option (string * ref)) (s : state) : Prop :=
  match r with
  | Some (publicKey, entry) => accessKeyByPublicKeyCache s !! publicKey = Some entry
  | None => True
  end.

(** A test double of the signer, the node and [signTransaction]: fixed
    answers to the key, access-key and block queries, and a script of
    answers to the submissions, consumed in order. *)
Record node : Type := mkNode {
  node_publicKey : option string;
  node_accessKey : settled js_error AccessKeyView;
  node_block : BlockResult;
  node_hash : Tx.Transaction -> bytes;
  node_signature : Tx.Transaction -> bytes
}.

Definition node_sign (w : node) (publicKey : string) (receiverId : string)
    (nonce : Z) (actions : list value) (blockHash : bytes) (accountId : string)
    : bytes * Tx.SignedTransaction :=
  let tx := Tx.mkTransaction accountId publicKey nonce receiverId actions blockHash in
  (node_hash w tx, Tx.mkSigned tx (node_signature w tx)).

Definition scripted (w : node)
    : mock js_error req ans (list (settled js_error (option FinalExecutionOutcome))) :=
  {| respond r m :=
       match r return settled js_error (ans r)
                      * list (settled js_error (option FinalExecutionOutcome)) with
       | GetPublicKey _ _ => (Resolved (node_publicKey w), m)
       | Query _ _ _ _ => (node_accessKey w, m)
       | Block _ => (Resolved (node_block w), m)
       | SignTransaction receiverId nonce actions blockHash accountId _ =>
           (Resolved (node_sign w (default "" (node_publicKey w)) receiverId nonce
                        actions blockHash accountId), m)
       | SendTransaction _ =>
           match m with
           | [] => (Resolved None, [])
           | answer :: rest => (answer, rest)
           end
       | Sleep _ => (Resolved tt, m)
       end |}.

Record flat_log : Type := mkFlatLog {
  receiptIds : list string;
  flat_logs : list string;
  failure : option js_error
}.

Section Engine.
Context `{RpcErrors} `{AccountDeps}.
Variable this : account.

Definition tab : string := String (Ascii.ascii_of_nat 9) "".

Definition printLogs (contractId : string) (logs : list string)
    (prefix : string) (s : state) : state :=
  if NEAR_NO_LOGS s then s
  else fold_left (fun s log =>
         write (ConsoleLog (prefix +:+ "Log [" +:+ contractId +:+ "]: " +:+ log)) s)
         logs s.

Definition printLogsAndFailures (contractId : string)
    (results : list flat_log) (s : state) : state :=
  if NEAR_NO_LOGS s then s
  else fold_left (fun s result =>
         let s :=
           write (ConsoleLog
             ("Receipt"
              +:+ (if (1 <? length (receiptIds result))%nat then "s" else "")
              +:+ ": " +:+ String.concat ", " (receiptIds result))) s in
         let s := printLogs contractId (flat_logs result) tab s in
         match failure result with
         | Some e =>
             write (ConsoleWarn
               (tab +:+ "Failure [" +:+ contractId +:+ "]: " +:+ error_toString e)
               []) s
         | None => s
         end) results s.

(** [findAccessKey(receiverId, actions)] *)
Definition findAccessKey (receiverId : string) (actions : list value)
    : prog (option (string * ref)) :=
  (publicKey <- await (GetPublicKey (accountId this) (networkId this)) ;;
   match publicKey with
   | None => ret None
   | Some publicKey =>
       cachedAccessKey <-
         gets (fun s => accessKeyByPublicKeyCache s !! publicKey) ;;
       match cachedAccessKey with
       | Some accessKey => ret (Some (publicKey, accessKey))
       | None =>
           try_catch
             (accessKey <- await (Query "view_access_key" (accountId this)
                                    publicKey "optimistic") ;;
              (* the access key may have been retrieved and cached
                 while the network call was in flight; to keep nonce
                 values in line, return the cached access key *)
              cached <- gets (fun s => accessKeyByPublicKeyCache s !! publicKey) ;;
              match cached with
              | Some cachedKey => ret (Some (publicKey, cachedKey))
              | None =>
                  fun s =>
                    let '(entry, s') := cache_store publicKey accessKey s in
                    Done (Some (publicKey, entry)) s'
              end)
             (fun e =>
                if has_type e "AccessKeyDoesNotExist" then ret None
                else throw e)
       end
   end)%prog.

Definition KeyNotFound : js_error :=
  TypedError
    ("Can not sign transactions for account " +:+ accountId this
       +:+ " on network " +:+ networkId this
       +:+ ", no matching key pair found in " +:+ signer this +:+ ".")
    "KeyNotFound".

(** [signTransaction(receiverId, actions)] *)
Definition signTransaction (receiverId : string) (actions : list value)
    : prog (bytes * Tx.SignedTransaction) :=
  (accessKeyInfo <- findAccessKey receiverId actions ;;
   match accessKeyInfo with
   | None => throw KeyNotFound
   | Some (_, accessKey) =>
       block <- await (Block "final") ;;
       let blockHash := hash (header block) in
       nonce <- pre_increment_nonce accessKey ;;
       await (SignTransaction receiverId nonce actions (baseDecode blockHash)
                (accountId this) (networkId this))
   end)%prog.

Definition with_context (error : js_error) (transactionHash : string)
    : js_error :=
  mkError (err_message error) (err_type error) (Some transactionHash).

Definition invalid_nonce_warning (receiverId : string) (txHash : bytes) : string :=
  "Retrying transaction " +:+ receiverId +:+ ":" +:+ baseEncode txHash
    +:+ " with new nonce.".

Definition expired_warning (receiverId : string) (txHash : bytes) : string :=
  "Retrying transaction " +:+ receiverId +:+ ":" +:+ baseEncode txHash
    +:+ " due to expired block hash".

(** The [try]/[catch] around [sendTransaction] in one attempt. *)
Definition submit (receiverId : string) (txHash : bytes)
    (signedTx : Tx.SignedTransaction) : prog (option FinalExecutionOutcome) :=
  let publicKey := Tx.publicKey (Tx.transaction signedTx) in
  try_catch
    (await (SendTransaction signedTx))
    (fun error =>
       if has_type error "InvalidNonce" then
         (logWarning (invalid_nonce_warning receiverId txHash) ;;;
          modify (cache_delete publicKey) ;;;
          ret None)%prog
       else if has_type error "Expired" then
         (logWarning (expired_warning receiverId txHash) ;;;
          ret None)%prog
       else throw (with_context error (baseEncode txHash))).

(** The function handed to [exponentialBackoff].  It assigns the outer
    variables [txHash] and [signedTx]; only the assignment of the
    attempt that returns the result is read afterwards, so the attempt
    returns them with the result. *)
Definition attempt (receiverId : string) (actions : list value)
    : prog (option (FinalExecutionOutcome * Tx.SignedTransaction)) :=
  (signed <- signTransaction receiverId actions ;;
   let txHash := fst signed in
   let signedTx := snd signed in
   result <- submit receiverId txHash signedTx ;;
   ret (option_map (fun r => (r, signedTx)) result))%prog.

Definition RetriesExceeded : js_error :=
  TypedError "nonce retries exceeded for transaction. This usually means there are too many parallel requests with the same access key."
    "RetriesExceeded".

(** The report as the specification words it.  [field v name] is the
    field of an object, [undefined] when there is none. *)
Definition field (v : value) (name : string) : value :=
  match get_prop v name with
  | inr x => x
  | inl _ => VUndefined
  end.

(** Non-empty logs, or a status that is an object with an object-valued
    [Failure] field. *)
Definition carries_report (it : ExecutionOutcomeWithId) : bool :=
  negb (length (logs (outcome it)) =? 0)%nat
  || (String.eqb (typeof (status (outcome it))) "object"
      && String.eqb (typeof (field (status (outcome it)) "Failure")) "object").

(** The receipt ids, the logs and the parsed failure, or [null] when there
    is no [Failure] field. *)
Definition report_of (it : ExecutionOutcomeWithId) : flat_log :=
  mkFlatLog (receipt_ids (outcome it)) (logs (outcome it))
    (match field (status (outcome it)) "Failure" with
     | VUndefined => None
     | Failure => Some (parseRpcError Failure)
     end).

Definition flatLogs_spec (result : FinalExecutionOutcome) : list flat_log :=
  map report_of
    (List.filter carries_report
       (transaction_outcome result :: receipts_outcome result)).

(** One step of the [reduce] that builds [flatLogs]. *)
Definition flatLogs_step (acc : js_error + list flat_log)
    (it : ExecutionOutcomeWithId) : js_error + list flat_log :=
  match acc with
  | inl e => inl e
  | inr acc =>
      let o := outcome it in
      let selected : js_error + bool :=
        if negb (length (logs o) =? 0)%nat then inr true
        else if String.eqb (typeof (status o)) "object" then
          match get_prop (status o) "Failure" with
          | inl e => inl e
          | inr Failure => inr (String.eqb (typeof Failure) "object")
          end
        else inr false in
      match selected with
      | inl e => inl e
      | inr false => inr acc
      | inr true =>
          match get_prop (status o) "Failure" with
          | inl e => inl e
          | inr Failure =>
              inr (acc ++ [mkFlatLog (receipt_ids o) (logs o)
                             (if negb (String.eqb (typeof Failure) "undefined")
                              then Some (parseRpcError Failure)
                              else None)])
          end
      end
  end.

Definition flatLogs (result : FinalExecutionOutcome)
    : js_error + list flat_log :=
  fold_left flatLogs_step
    (transaction_outcome result :: receipts_outcome result) (inr []).

(** The check of the top-level status, after the report. *)
Definition check_status (result : FinalExecutionOutcome)
    : js_error + FinalExecutionOutcome :=
  let status := final_status result in
  if String.eqb (typeof status) "object" then
    match get_prop status "Failure" with
    | inl e => inl e
    | inr Failure =>
        if String.eqb (typeof Failure) "object" then
          match get_prop Failure "error_message",
                get_prop Failure "error_type" with
          | inl e, _ => inl e
          | inr error_message, inl e =>
              if truthy error_message then inl e
              else inl (parseResultError result)
          | inr error_message, inr error_type =>
              (* if error data has error_message and error_type
                 properties, we consider that node returned an error in
                 the old format *)
              if truthy error_message && truthy error_type then
                inl (mkError
                       ("Transaction " +:+ id (transaction_outcome result)
                          +:+ " failed. " +:+ toString error_message)
                       error_type None)
              else inl (parseResultError result)
          end
        else inr result
    end
  else inr result.

(** What [signAndSendTransactionV2] does with the result of the
    executor. *)
Definition after_backoff
    (result : option (FinalExecutionOutcome * Tx.SignedTransaction))
    : prog FinalExecutionOutcome :=
  match result with
  | None =>
      (* TODO: This should have different code actually, as means
         "transaction not submitted for sure" *)
      throw RetriesExceeded
  | Some (result, signedTx) =>
      (flat <- lift (flatLogs result) ;;
       modify (printLogsAndFailures
                 (Tx.receiverId (Tx.transaction signedTx)) flat) ;;;
       lift (check_status result))%prog
  end.

(** [signAndSendTransactionV2({ receiverId, actions })] *)
Definition signAndSendTransactionV2 (receiverId : string)
    (actions : list value) : prog FinalExecutionOutcome :=
  (result <- exponentialBackoff sleep TX_NONCE_RETRY_WAIT
               TX_NONCE_RETRY_NUMBER TX_NONCE_RETRY_WAIT_BACKOFF
               (attempt receiverId actions) ;;
   after_backoff result)%prog.

(** The concurrent calls considered: submissions, and key resolutions, of
    this account. *)
Definition submission (c : prog FinalExecutionOutcome) : Prop :=
  exists receiverId actions, c = signAndSendTransactionV2 receiverId actions.

Definition resolution (c : prog (option (string * ref))) : Prop :=
  exists receiverId actions, c = findAccessKey receiverId actions.

End Engine.

(** *** What the properties of the engine speak about *)

(** The transactions submitted among the requests of a run. *)
Definition submissions (trace : list req) : list Tx.SignedTransaction :=
  omap (fun r => match r with SendTransaction signedTx => Some signedTx | _ => None end)
       trace.

(** The access-key queries among the requests of a run. *)
Definition key_queries (trace : list req) : list string :=
  omap (fun r => match r with Query _ _ public_key _ => Some public_key | _ => None end)
       trace.

(** Every cache entry refers to an object of the heap. *)
Definition cache_valid (s : state) : Prop :=
  forall publicKey entry,
    accessKeyByPublicKeyCache s !! publicKey = Some entry -> is_Some (heap s !! entry).

(** The answers to a submission after which the engine tries again: a
    rejection of type InvalidNonce or Expired, and a falsy result. *)
Definition retriable (answer : settled js_error (option FinalExecutionOutcome)) : bool :=
  match answer with
  | Rejected e => has_type e "InvalidNonce" || has_type e "Expired"
  | Resolved None => true
  | Resolved (Some _) => false
  end.

(** The access key an attempt signs with: the object the cache holds for
    [publicKey], or else the one the node reports, [accessKey]. *)
Definition current_key (publicKey : string) (accessKey : AccessKeyView)
    (s : state) : AccessKeyView :=
  match accessKeyByPublicKeyCache s !! publicKey with
  | Some entry => default accessKey (heap s !! entry)
  | None => accessKey
  end.

(** The lines one entry of the report puts on the console. *)
Definition lines_of (result : flat_log) : nat :=
  S (length (flat_logs result))
  + match failure result with Some _ => 1 | None => 0 end.

(** ** The rest of [Account]: transactions of one action list *)

Section Api.
Context `{RpcErrors} `{AccountDeps} `{transaction.Actions} `{ViewDeps}.
Variable this : account.

(** [args.length], which [validateArgs] reads on an object that has a
    [byteLength]. *)
Definition get_length (v : value) : value :=
  match v with
  | VStr s => VNum (Z.of_nat (String.length s))
  | VArr items => VNum (Z.of_nat (length items))
  | VObj fields => assoc "length" fields
  | _ => VUndefined
  end.

(** [a === b] on the results of two property reads: primitives are
    compared by value, and two properties of a JSON value never hold the
    same object. *)
Definition strict_equal (a b : value) : bool :=
  match a, b with
  | VUndefined, VUndefined | VNull, VNull => true
  | VBool x, VBool y => Bool.eqb x y
  | VNum x, VNum y => (x =? y)%Z
  | VStr x, VStr y => String.eqb x y
  | _, _ => false
  end.

(** [validateArgs(args)] *)
Definition validateArgs (args : call_args) : js_error + unit :=
  match args with
  | Bytes _ =>
      (* byteLength and length of a Uint8Array are the same number *)
      inr tt
  | Json v =>
      match get_prop v "byteLength" with
      | inl e => inl e
      | inr byteLength =>
          let isUint8Array :=
            negb (strict_equal byteLength VUndefined)
            && strict_equal byteLength (get_length v) in
          if isUint8Array then inr tt
          else if isArray v || negb (String.eqb (typeof v) "object")
               then inl PositionalArgsError
               else inr tt
      end
  end.

(** [signAndSendTransaction(options)] with an options object, as the
    methods below call it: the first argument is no string, so the call
    goes to [signAndSendTransactionV2], which reads [receiverId] and
    [actions] and nothing else of the options. *)
Definition signAndSendTransaction (receiverId : string) (actions : list value)
    : prog FinalExecutionOutcome :=
  signAndSendTransactionV2 this receiverId actions.

(** [createAndDeployContract(contractId, publicKey, data, amount)]: the
    account object it returns is new, with a cache of its own. *)
Definition createAndDeployContract (contractId : string) (publicKey : value)
    (data : bytes) (amount : value) : prog account :=
  (let accessKey := transaction.fullAccessKey in
   signAndSendTransaction contractId
     [transaction.createAccount; transaction.transfer amount;
      transaction.addKey (transaction.PublicKey_from publicKey) accessKey;
      transaction.deployContract data] ;;;
   ret (mkAccount contractId (networkId this) (signer this)))%prog.

(** [sendMoney(receiverId, amount)] *)
Definition sendMoney (receiverId : string) (amount : value)
    : prog FinalExecutionOutcome :=
  signAndSendTransaction receiverId [transaction.transfer amount].

(** [createAccount(newAccountId, publicKey, amount)] *)
Definition createAccount (newAccountId : string) (publicKey amount : value)
    : prog FinalExecutionOutcome :=
  let accessKey := transaction.fullAccessKey in
  signAndSendTransaction newAccountId
    [transaction.createAccount; transaction.transfer amount;
     transaction.addKey (transaction.PublicKey_from publicKey) accessKey].

(** [deleteAccount(beneficiaryId)] *)
Definition deleteAccount (beneficiaryId : string) : prog FinalExecutionOutcome :=
  signAndSendTransaction (accountId this) [transaction.deleteAccount beneficiaryId].

(** [deployContract(data)] *)
Definition deployContract (data : bytes) : prog FinalExecutionOutcome :=
  signAndSendTransaction (accountId this) [transaction.deployContract data].

(** [functionCallV2({ contractId, methodName, args, gas, attachedDeposit,
    walletMeta, walletCallbackUrl, stringify })]; an option that is absent
    is [undefined]. *)
Definition functionCallV2 (contractId methodName : string) (args : call_args)
    (gas attachedDeposit walletMeta walletCallbackUrl stringify : value)
    : prog FinalExecutionOutcome :=
  let args := match args with Json VUndefined => Json (VObj []) | _ => args end in
  let gas := match gas with
             | VUndefined => transaction.DEFAULT_FUNCTION_CALL_GAS
             | _ => gas
             end in
  (lift (validateArgs args) ;;;
   let stringifyArg := match stringify with
                       | VUndefined => transaction.stringifyJsonOrBytes
                       | _ => stringify
                       end in
   signAndSendTransaction contractId
     [transaction.functionCall methodName args gas attachedDeposit stringifyArg])%prog.

(** [addKey(publicKey, contractId, methodNames, amount)] *)
Definition addKey (publicKey contractId methodNames amount : value)
    : prog FinalExecutionOutcome :=
  let methodNames := if negb (truthy methodNames) then VArr [] else methodNames in
  let methodNames := if negb (isArray methodNames) then VArr [methodNames]
                     else methodNames in
  let accessKey :=
    if negb (truthy contractId) then transaction.fullAccessKey
    else transaction.functionCallAccessKey contractId methodNames amount in
  signAndSendTransaction (accountId this)
    [transaction.addKey (transaction.PublicKey_from publicKey) accessKey].

(** [deleteKey(publicKey)] *)
Definition deleteKey (publicKey : value) : prog FinalExecutionOutcome :=
  signAndSendTransaction (accountId this)
    [transaction.deleteKey (transaction.PublicKey_from publicKey)].

(** [stake(publicKey, amount)] *)
Definition stake (publicKey amount : value) : prog FinalExecutionOutcome :=
  signAndSendTransaction (accountId this)
    [transaction.stake amount (transaction.PublicKey_from publicKey)].

(** The requests a submission of [actions] to [receiverId] may make: the
    key of this account from the signer, its access key and the final
    block from the provider, and the signing of a transaction of these
    actions to this receiver. *)
Definition serves (receiverId : string) (actions : list value) (r : req) : Prop :=
  match r with
  | GetPublicKey account_id network_id =>
      account_id = accountId this /\ network_id = networkId this
  | Query request_type account_id _ finality =>
      request_type = "view_access_key" /\ account_id = accountId this
      /\ finality = "optimistic"
  | Block finality => finality = "final"
  | SignTransaction receiver _ signed_actions _ account_id network_id =>
      receiver = receiverId /\ signed_actions = actions
      /\ account_id = accountId this /\ network_id = networkId this
  | SendTransaction _ | Sleep _ => True
  end.

End Api.

End Account.

(** ** The rest of [Account]: the read-only calls *)

Module AccountViews.

(** The suspension points: the queries to the provider.  The contract
    view call is answered with a [CodeResult], the other queries with the
    JSON value of the node. *)
Inductive req : Type :=
| Query (request : value)
| CallFunction (account_id method_name args_base64 finality : string)
| ProtocolConfig (blockReference : value).

Definition ans (r : req) : Type :=
  match r with
  | Query _ => value
  | CallFunction _ _ _ _ => CodeResult
  | ProtocolConfig _ => value
  end.

Abbreviation prog := (prog Account.state js_error req ans).
Abbreviation step := (step Account.state js_error req ans).

Definition lift {A} (x : js_error + A) : prog A := lift_sum (fun e => e) x.

(** The balance as [getAccountBalance] reports it, in decimal. *)
Record AccountBalance : Type := mkBalance {
  total : string;
  stateStaked : string;
  staked : string;
  available : string
}.

Section Views.
Context `{RpcErrors} `{AccountDeps} `{transaction.Actions} `{ViewDeps}.
Variable this : Account.account.

(** [state()] *)
Definition state : prog value :=
  await (Query (VObj [("request_type", VStr "view_account");
                      ("account_id", VStr (Account.accountId this));
                      ("finality", VStr "optimistic")])).

(** [viewFunction(contractId, methodName, args, { parse, stringify })]; an
    absent [args] is [undefined]. *)
Definition viewFunction (contractId methodName : string) (args : call_args)
    (parse : bytes -> js_error + value) (stringify : call_args -> bytes)
    : prog value :=
  let args := match args with Json VUndefined => Json (VObj []) | _ => args end in
  (lift (Account.validateArgs args) ;;;
   let serializedArgs := base64 (stringify args) in
   result <- await (CallFunction contractId methodName serializedArgs "optimistic") ;;
   (* result.logs is an array, which is truthy *)
   modify (Account.printLogs contractId (code_logs result) "") ;;;
   (* result.result && result.result.length > 0 && parse(...) *)
   if (0 <? length (code_result result))%nat
   then lift (parse (code_result result))
   else ret (VBool false))%prog.

(** [getAccessKeys()] *)
Definition getAccessKeys : prog value :=
  (response <- await (Query (VObj [("request_type", VStr "view_access_key_list");
                                   ("account_id", VStr (Account.accountId this));
                                   ("finality", VStr "optimistic")])) ;;
   (* the response is an array, or an object with a keys field *)
   if isArray response then ret response
   else lift (get_prop response "keys"))%prog.

(** [item.access_key.permission !== 'FullAccess'] *)
Definition not_full_access (item : value) : js_error + bool :=
  match get_prop item "access_key" with
  | inl e => inl e
  | inr access_key =>
      match get_prop access_key "permission" with
      | inl e => inl e
      | inr (VStr permission) => inr (negb (String.eqb permission "FullAccess"))
      | inr _ => inr true
      end
  end.

(** The function mapped over the keys that are left. *)
Definition authorized_app (item : value) : js_error + value :=
  match get_prop item "access_key" with
  | inl e => inl e
  | inr access_key =>
      match get_prop access_key "permission" with
      | inl e => inl e
      | inr perm =>
          match get_prop perm "FunctionCall" with
          | inl e => inl e
          | inr FunctionCall =>
              match get_prop FunctionCall "receiver_id",
                    get_prop FunctionCall "allowance",
                    get_prop item "public_key" with
              | inr receiver_id, inr allowance, inr public_key =>
                  inr (VObj [("contractId", receiver_id); ("amount", allowance);
                             ("publicKey", public_key)])
              | inl e, _, _ | _, inl e, _ | _, _, inl e => inl e
              end
          end
      end
  end.

(** [items.filter(f)], [f] being able to throw. *)
Fixpoint filter_items (f : value -> js_error + bool) (items : list value)
    : js_error + list value :=
  match items with
  | [] => inr []
  | item :: rest =>
      match f item with
      | inl e => inl e
      | inr keep =>
          match filter_items f rest with
          | inl e => inl e
          | inr kept => inr (if keep then item :: kept else kept)
          end
      end
  end.

(** [items.map(f)], [f] being able to throw. *)
Fixpoint map_items (f : value -> js_error + value) (items : list value)
    : js_error + list value :=
  match items with
  | [] => inr []
  | item :: rest =>
      match f item with
      | inl e => inl e
      | inr v =>
          match map_items f rest with
          | inl e => inl e
          | inr vs => inr (v :: vs)
          end
      end
  end.

(** [getAccountDetails()] *)
Definition getAccountDetails : prog value :=
  (accessKeys <- getAccessKeys ;;
   match accessKeys with
   | VArr items =>
       kept <- lift (filter_items not_full_access items) ;;
       authorizedApps <- lift (map_items authorized_app kept) ;;
       ret (VObj [("authorizedApps", VArr authorizedApps)])
   | VUndefined | VNull =>
       lift (inl (TypeError ("Cannot read properties of " +:+ toString accessKeys
                               +:+ " (reading 'filter')")))
   | _ => lift (inl (TypeError "accessKeys.filter is not a function"))
   end)%prog.

(** [getAccountBalance()] *)
Definition getAccountBalance : prog AccountBalance :=
  (protocolConfig <- await (ProtocolConfig (VObj [("finality", VStr "final")])) ;;
   state <- state ;;
   runtime_config <- lift (get_prop protocolConfig "runtime_config") ;;
   storage_amount_per_byte <- lift (get_prop runtime_config "storage_amount_per_byte") ;;
   costPerByte <- lift (BN storage_amount_per_byte) ;;
   storage_usage <- lift (get_prop state "storage_usage") ;;
   usage <- lift (BN storage_usage) ;;
   let stateStaked := usage * costPerByte in
   locked <- lift (get_prop state "locked") ;;
   staked <- lift (BN locked) ;;
   amount <- lift (get_prop state "amount") ;;
   amount <- lift (BN amount) ;;
   let totalBalance := amount + staked in
   let availableBalance := totalBalance - Z.max staked stateStaked in
   ret (mkBalance (pretty totalBalance) (pretty stateStaked) (pretty staked)
          (pretty availableBalance)))%prog.

(** The keys that grant a contract, and the entry reported for one. *)
Definition grants_contract (item : value) : bool :=
  match Account.field (Account.field item "access_key") "permission" with
  | VStr permission => negb (String.eqb permission "FullAccess")
  | _ => true
  end.

Definition app_of (item : value) : value :=
  let FunctionCall :=
    Account.field (Account.field (Account.field item "access_key") "permission")
      "FunctionCall" in
  VObj [("contractId", Account.field FunctionCall "receiver_id");
        ("amount", Account.field FunctionCall "allowance");
        ("publicKey", Account.field item "public_key")].

(** A key as the node lists it: an object with an [access_key] object
    whose permission is the string 'FullAccess' or an object with a
    [FunctionCall] object. *)
Definition listed_key (item : value) : Prop :=
  exists fields key_fields,
    item = VObj fields
    /\ assoc "access_key" fields = VObj key_fields
    /\ (assoc "permission" key_fields = VStr "FullAccess"
        \/ exists perm_fields call_fields,
             assoc "permission" key_fields = VObj perm_fields
             /\ assoc "FunctionCall" perm_fields = VObj call_fields).

End Views.

(** A node that answers the key list, the account state and the protocol
    configuration with fixed values. *)
Definition fixed_node (keys account config : value) (view : CodeResult)
    : mock js_error req ans unit :=
  {| respond r m :=
       match r return settled js_error (ans r) * unit with
       | Query request =>
           (Resolved (match Account.field request "request_type" with
                      | VStr "view_access_key_list" => keys
                      | _ => account
                      end), m)
       | CallFunction _ _ _ _ => (Resolved view, m)
       | ProtocolConfig _ => (Resolved config, m)
       end |}.

End AccountViews.

(** ** [ContractJSI]: the arguments of a contract method *)

Module ContractJSI.

(** [args[name] = value] on an object, for a name other than '__proto__'
    (which names the prototype, not a field): a field that exists is
    overwritten where it is, a new one is added. *)
Fixpoint set_field (name : string) (v : value) (fields : list (string * value))
    : list (string * value) :=
  match fields with
  | [] => [(name, v)]
  | (k, x) :: rest =>
      if String.eqb k name then (k, v) :: rest
      else (k, x) :: set_field name v rest
  end.

(** [Object.keys(properties)], the fields being listed in enumeration
    order. *)
Definition Object_keys (properties : list (string * value)) : list string :=
  map fst properties.

(** [items.forEach((value, index) => ...)] on an accumulator. *)
Fixpoint forEach {A Acc : Type} (f : Acc -> A -> nat -> Acc) (items : list A)
    (index : nat) (acc : Acc) : Acc :=
  match items with
  | [] => acc
  | item :: rest => forEach f rest (S index) (f acc item index)
  end.

(** [CreateArgs(params, properties)]: a parameter beyond the last
    property is stored under the name [keys[index]] turns into,
    'undefined'. *)
Definition CreateArgs (params : list value) (properties : list (string * value))
    : list (string * value) :=
  forEach (fun args value index =>
             let keys := Object_keys properties in
             set_field (default "undefined" (keys !! index)) value args)
          params 0%nat [].

End ContractJSI.

(** ** Instances for the concrete runs *)

(** A classifier and the remaining dependencies, fixed for the runs on
    concrete inputs. *)
Definition plain_errors : RpcErrors :=
  {| parseRpcError v := TypedError (toString v) "ServerError";
     getErrorTypeFromErrorMessage v := "UntypedError" |}.

Definition plain_deps : AccountDeps :=
  {| baseEncode b := String.concat "," (map pretty b);
     baseDecode s := [];
     parseResultError r := TypedError "Transaction failed" "ServerTransactionError";
     error_toString e := "Error: " +:+ err_message e |}.

(** A provider as it is constructed, for the account "alice.test". *)
Definition wallet : Provider.state :=
  Provider.mkState 123 "" "alice.test" "" [] false.

(** An account as it is constructed, its key with nonce 5 on the node. *)
Definition alice : Account.account :=
  Account.mkAccount "alice.test" "testnet" "[object Object]".

Definition fresh : Account.state := Account.mkState ∅ [] [] false [].

Definition alice_key : string := "ed25519:alice".

Definition testnet : Account.node :=
  Account.mkNode (Some alice_key) (Resolved (mkAccessKey 5 (VStr "FullAccess")))
    (mkBlock (mkHeader "11111111111111111111111111111111"))
    (fun tx => [Tx.nonce tx]) (fun tx => []).

Definition accepted : FinalExecutionOutcome :=
  mkFinal (VObj [("SuccessValue", VStr "")])
    (mkOutcomeWithId "tx"
       (mkOutcome [] ["receipt"] (VObj [("SuccessReceiptId", VStr "receipt")])))
    [mkOutcomeWithId "receipt"
       (mkOutcome ["transferred"] [] (VObj [("SuccessValue", VStr "")]))].

Definition alice_access : AccessKeyView := mkAccessKey 5 (VStr "FullAccess").

(** The same node for a signer without a key, for a key the node does not
    know, and when the node cannot be reached. *)
Definition keyless : Account.node :=
  Account.mkNode None (Account.node_accessKey testnet) (Account.node_block testnet)
    (Account.node_hash testnet) (Account.node_signature testnet).

Definition unknown_key : Account.node :=
  Account.mkNode (Some alice_key)
    (Rejected (TypedError "access key does not exist" "AccessKeyDoesNotExist"))
    (Account.node_block testnet) (Account.node_hash testnet)
    (Account.node_signature testnet).

Definition unreachable : Account.node :=
  Account.mkNode (Some alice_key)
    (Rejected (TypedError "connection refused" "UntypedError"))
    (Account.node_block testnet) (Account.node_hash testnet)
    (Account.node_signature testnet).

(** Answers of the wallet proxy: an error of the legacy shape, and the
    status of a transaction. *)
Definition legacy_answer : value :=
  VObj [("error", VObj [("data", VObj [("error_message", VStr "account missing");
                                       ("error_type", VStr "AccountDoesNotExist")])])].

Definition status_answer : value :=
  VObj [("status", VObj [("SuccessValue", VStr "")])].

(** The account after its key was resolved, and the transaction it signs
    first. *)
Definition primed : Account.state :=
  snd (Account.cache_store alice_key alice_access fresh).

Definition signed_by_alice : bytes * Tx.SignedTransaction :=
  Account.node_sign testnet alice_key "bob.test" 6 [] [] "alice.test".

(** An outcome with a silent transaction outcome, a receipt that logs, and
    a receipt that fails. *)
Definition action_error : value :=
  VObj [("ActionError", VObj [("index", VNum 0);
                              ("kind", VObj [("AccountDoesNotExist",
                                              VObj [("account_id", VStr "bob.test")])])])].

Definition mixed : FinalExecutionOutcome :=
  mkFinal (VObj [("SuccessValue", VStr "")])
    (mkOutcomeWithId "tx"
       (mkOutcome [] ["first"; "second"] (VObj [("SuccessReceiptId", VStr "first")])))
    [mkOutcomeWithId "first"
       (mkOutcome ["transferred"] ["third"] (VObj [("SuccessValue", VStr "")]));
     mkOutcomeWithId "second"
       (mkOutcome [] [] (VObj [("Failure", action_error)]));
     mkOutcomeWithId "third" (mkOutcome [] [] (VStr "Unknown"))].

(** An error whose code is 1e21, and whose data is not quite 'Timeout'. *)
Definition huge_code_answer : value :=
  VObj [("error", VObj [("code", VNum 1000000000000000000000);
                        ("message", VStr "Server error");
                        ("data", VStr "Timeout.")])].

(** An error of the node whose data is a sentence. *)
Definition unknown_account_answer : value :=
  VObj [("error", VObj [("code", VNum (-32000)); ("message", VStr "Server error");
                        ("data", VStr "account bob.test does not exist")])].

(** Action constructors that tag their arguments. *)
Definition plain_actions : transaction.Actions :=
  {| transaction.transfer amount := VObj [("transfer", amount)];
     transaction.createAccount := VObj [("createAccount", VObj [])];
     transaction.deployContract code := VObj [("deployContract", VArr (map VNum code))];
     transaction.addKey publicKey accessKey :=
       VObj [("addKey", VObj [("publicKey", publicKey); ("accessKey", accessKey)])];
     transaction.deleteKey publicKey := VObj [("deleteKey", publicKey)];
     transaction.stake amount publicKey :=
       VObj [("stake", VObj [("stake", amount); ("publicKey", publicKey)])];
     transaction.deleteAccount beneficiaryId :=
       VObj [("deleteAccount", VStr beneficiaryId)];
     transaction.functionCall methodName args gas deposit stringify :=
       VObj [("functionCall",
              VObj [("methodName", VStr methodName);
                    ("args", match args with
                             | Bytes b => VArr (map VNum b)
                             | Json v => v
                             end);
                    ("gas", gas); ("deposit", deposit)])];
     transaction.fullAccessKey := VObj [("permission", VStr "FullAccess")];
     transaction.functionCallAccessKey receiverId methodNames allowance :=
       VObj [("permission",
              VObj [("FunctionCall",
                     VObj [("receiver_id", receiverId); ("method_names", methodNames);
                           ("allowance", allowance)])])];
     transaction.stringifyJsonOrBytes := VStr "stringifyJsonOrBytes";
     transaction.PublicKey_from publicKey := publicKey;
     transaction.DEFAULT_FUNCTION_CALL_GAS := VStr "30000000000000" |}.

(** Decimal digits as the number they denote. *)
Fixpoint decimal (digits : string) (acc : Z) : option Z :=
  match digits with
  | EmptyString => Some acc
  | String c rest =>
      let d := Z.of_nat (Ascii.nat_of_ascii c) - 48 in
      if ((0 <=? d)%Z && (d <=? 9)%Z)%bool then decimal rest (10 * acc + d) else None
  end.

Definition plain_views : ViewDeps :=
  {| PositionalArgsError :=
       mkError "Contract method calls expect named arguments wrapped in object, e.g. { argName1: argValue1, argName2: argValue2 }"
         VUndefined None;
     BN v := match v with
             | VNum z => inr z
             | VStr digits =>
                 match decimal digits 0 with
                 | Some z => inr z
                 | None => inl (TypeError "Invalid character")
                 end
             | _ => inl (TypeError "Invalid character")
             end;
     base64 b := String.concat "," (map pretty b) |}.

(** The keys of an account as the node lists them: a full-access key and
    a key for one contract. *)
Definition listed_keys : list value :=
  [VObj [("public_key", VStr "ed25519:alice");
         ("access_key", VObj [("nonce", VNum 5); ("permission", VStr "FullAccess")])];
   VObj [("public_key", VStr "ed25519:app");
         ("access_key",
          VObj [("nonce", VNum 0);
                ("permission",
                 VObj [("FunctionCall",
                        VObj [("allowance", VStr "250000000000");
                              ("receiver_id", VStr "guest-book.test");
                              ("method_names", VArr [])])])])]].

(** An account whose storage stake exceeds what it has locked. *)
Definition account_view : value :=
  VObj [("amount", VStr "5000"); ("locked", VStr "100"); ("storage_usage", VNum 182)].

Definition protocol_config : value :=
  VObj [("runtime_config", VObj [("storage_amount_per_byte", VStr "10")])].

Definition greeting : CodeResult := mkCodeResult [] ["hello"].

(* ================================================================== *)
(** * Part II: properties *)
(* ================================================================== *)

(** ** Numbers *)

Section NumberFacts.
Local Open Scope Z_scope.

(** The integers up to 2^53 in magnitude are doubles. *)
Lemma to_double_exact z : Z.abs z <= 2 ^ 53 -> to_double z = z.
Proof.
  intros Hz. unfold to_double. destruct (Z.leb_spec (Z.abs z) (2 ^ 53)); [reflexivity|lia].
Qed.

(** Rounding does not fall below 2^53. *)
Lemma to_double_large z : 2 ^ 53 <= z -> 2 ^ 53 <= to_double z.
Proof.
  intros Hz. unfold to_double.
  destruct (Z.leb_spec (Z.abs z) (2 ^ 53)) as [|Hbig]; [exact Hz|].
  assert (Ha : Z.abs z = z) by lia. rewrite Ha in *. clear Ha.
  assert (Hsgn : Z.sgn z = 1) by (apply Z.sgn_pos; lia). rewrite Hsgn, Z.mul_1_l.
  assert (Hlog : 53 <= Z.log2 z) by (apply Z.log2_le_pow2; lia).
  set (e := Z.log2 z - 52).
  assert (He : 1 <= e) by (unfold e; lia).
  assert (Hpow : 0 < 2 ^ e) by (apply Z.pow_pos_nonneg; lia).
  assert (Hq : 2 ^ 52 <= z / 2 ^ e).
  { apply Z.div_le_lower_bound; [exact Hpow|].
    rewrite Z.mul_comm, <- Z.pow_add_r by lia.
    replace (52 + e) with (Z.log2 z) by (unfold e; lia).
    apply Z.log2_spec. lia. }
  assert (Hmono : forall q', z / 2 ^ e <= q' -> 2 ^ 53 <= q' * 2 ^ e).
  { intros q' Hq'.
    assert (2 ^ 52 * 2 ^ 1 <= q' * 2 ^ e).
    { apply Z.mul_le_mono_nonneg; try lia. apply Z.pow_le_mono_r; lia. }
    change (2 ^ 53) with (2 ^ 52 * 2 ^ 1). assumption. }
  cbv zeta.
  destruct (z mod 2 ^ e <? 2 ^ (e - 1)); [apply Hmono; lia|].
  destruct (2 ^ (e - 1) <? z mod 2 ^ e); [apply Hmono; lia|].
  destruct (Z.even (z / 2 ^ e)); apply Hmono; lia.
Qed.

(** [++x] adds one while the result stays within 2^53 in magnitude;
    beyond, the result has left the range upwards, or [x] lay below it. *)
Lemma increment_cases x :
  (- 2 ^ 53 <= x + 1 <= 2 ^ 53 /\ increment x = x + 1)
  \/ 2 ^ 53 <= increment x
  \/ x < - 2 ^ 53.
Proof.
  unfold increment.
  destruct (Z_le_gt_dec (x + 1) (2 ^ 53)) as [Hle|Hgt].
  - destruct (Z_le_gt_dec (- 2 ^ 53) (x + 1)) as [Hge|Hlt].
    + left. split; [lia|]. apply to_double_exact. lia.
    + right. right. lia.
  - right. left. apply to_double_large. lia.
Qed.

End NumberFacts.

(** ** Running composed computations *)

Section ResumptionFacts.
Context {St Err Req : Type} {Ans : Req -> Type}.
Local Abbreviation step := (step St Err Req Ans).
Local Abbreviation prog := (prog St Err Req Ans).

Lemma run_eta {A M} (r : run_result St Err Req A M) :
  mkRun (run_outcome r) (run_state r) (run_mock r) (run_trace r) = r.
Proof. destruct r; reflexivity. Qed.

Lemma run_then_traced {A B M} q (r : run_result St Err Req A M)
    (k : A -> St -> M -> run_result St Err Req B M) :
  run_then (traced q r) k = traced q (run_then r k).
Proof. destruct r as [[a|e] s m tr]; reflexivity. Qed.

Lemma run_handle_traced {A M} q (r : run_result St Err Req A M)
    (h : Err -> St -> M -> run_result St Err Req A M) :
  run_handle (traced q r) h = traced q (run_handle r h).
Proof. destruct r as [[a|e] s m tr]; reflexivity. Qed.

Lemma run_bind_step {A B M} (mk : mock Err Req Ans M) (t : step A)
    (f : A -> prog B) (m : M) :
  run mk (bind_step t f) m = run_then (run mk t m) (fun a s m' => run mk (f a s) m').
Proof.
  revert m; induction t as [a s|e s|r s k IH]; intros m; simpl.
  - unfold run_then; simpl. symmetry; apply run_eta.
  - reflexivity.
  - destruct (respond mk r m) as [answer m']. rewrite IH.
    symmetry; apply run_then_traced.
Qed.

Lemma run_bind {A B M} (mk : mock Err Req Ans M) (c : prog A)
    (f : A -> prog B) (s : St) (m : M) :
  run mk (bind c f s) m = run_then (run mk (c s) m) (fun a s' m' => run mk (f a s') m').
Proof. apply run_bind_step. Qed.

Lemma run_catch_step {A M} (mk : mock Err Req Ans M) (t : step A)
    (h : Err -> prog A) (m : M) :
  run mk (catch_step t h) m = run_handle (run mk t m) (fun e s m' => run mk (h e s) m').
Proof.
  revert m; induction t as [a s|e s|r s k IH]; intros m; simpl.
  - reflexivity.
  - unfold run_handle; simpl. symmetry; apply run_eta.
  - destruct (respond mk r m) as [answer m']. rewrite IH.
    symmetry; apply run_handle_traced.
Qed.

Lemma run_try_catch {A M} (mk : mock Err Req Ans M) (c : prog A)
    (h : Err -> prog A) (s : St) (m : M) :
  run mk (try_catch c h s) m
  = run_handle (run mk (c s) m) (fun e s' m' => run mk (h e s') m').
Proof. apply run_catch_step. Qed.

(** *** Invariants of a call *)

Lemma preserves_state {A} (Inv : St -> Prop) (t : step A) :
  preserves Inv t -> Inv (step_state t).
Proof. destruct t; simpl; tauto. Qed.

Lemma preserves_bind_step {A B} (Inv : St -> Prop) (t : step A) (f : A -> prog B) :
  preserves Inv t ->
  (forall a s, Inv s -> preserves Inv (f a s)) ->
  preserves Inv (bind_step t f).
Proof.
  intros Ht Hf. induction t as [a s|e s|r s k IH]; simpl in *.
  - auto.
  - assumption.
  - destruct Ht as [Hs Hk]. split; [assumption|].
    intros answer s' Hs'. apply IH, Hk, Hs'.
Qed.

Lemma preserves_catch_step {A} (Inv : St -> Prop) (t : step A) (h : Err -> prog A) :
  preserves Inv t ->
  (forall e s, Inv s -> preserves Inv (h e s)) ->
  preserves Inv (catch_step t h).
Proof.
  intros Ht Hh. induction t as [a s|e s|r s k IH]; simpl in *.
  - assumption.
  - auto.
  - destruct Ht as [Hs Hk]. split; [assumption|].
    intros answer s' Hs'. apply IH, Hk, Hs'.
Qed.

Lemma preserves_await (Inv : St -> Prop) (r : Req) (s : St) :
  Inv s -> preserves Inv (await (Err:=Err) (Ans:=Ans) r s).
Proof.
  intros Hs; simpl. split; [assumption|].
  intros [x|e] s' Hs'; simpl; assumption.
Qed.

(** Every call of a pool keeps the invariant, so every reachable state of
    the pool satisfies it. *)
Lemma pool_step_preserves {A} (Inv : St -> Prop) env (spawnable : prog A -> Prop)
    (p q : pool St Err Req Ans A) :
  (forall c s, spawnable c -> Inv s -> preserves Inv (c s)) ->
  pool_step env spawnable p q ->
  Inv (shared p) /\ Forall (preserves Inv) (tasks p) ->
  Inv (shared q) /\ Forall (preserves Inv) (tasks q).
Proof.
  intros Hspawn Hstep [Hs Hts].
  destruct Hstep as [p c Hc|p i t t' Hi Hres]; simpl.
  - pose proof (Hspawn c (shared p) Hc Hs) as Hgood. split.
    + apply preserves_state, Hgood.
    + apply Forall_app; split; [assumption|]. constructor; [assumption|constructor].
  - assert (Ht : preserves Inv t).
    { rewrite Forall_forall in Hts. apply Hts.
      eapply list_elem_of_lookup_2; eassumption. }
    destruct t as [a s|e s|r s k]; simpl in Hres; try contradiction.
    destruct Hres as (answer & _ & ->). destruct Ht as [_ Hk].
    specialize (Hk answer (shared p) Hs). split.
    + apply preserves_state, Hk.
    + apply Forall_insert; assumption.
Qed.

Lemma pool_steps_preserve {A} (Inv : St -> Prop) env (spawnable : prog A -> Prop)
    (p q : pool St Err Req Ans A) :
  (forall c s, spawnable c -> Inv s -> preserves Inv (c s)) ->
  pool_steps env spawnable p q ->
  Inv (shared p) /\ Forall (preserves Inv) (tasks p) ->
  Inv (shared q) /\ Forall (preserves Inv) (tasks q).
Proof.
  intros Hspawn Hsteps Hp. induction Hsteps as [p|p q r _ IH Hstep].
  - assumption.
  - eapply pool_step_preserves; eauto.
Qed.

Lemma run_then_ext {B C M} (r : run_result St Err Req B M)
    (k k' : B -> St -> M -> run_result St Err Req C M) :
  (forall a s m, k a s m = k' a s m) -> run_then r k = run_then r k'.
Proof.
  intros Hk. unfold run_then. destruct (run_outcome r); [rewrite Hk|]; reflexivity.
Qed.

Lemma keeps_ret {A} (Inv : St -> Prop) (a : A) : keeps Inv (ret (Err:=Err) (Ans:=Ans) a).
Proof. intros s Hs; exact Hs. Qed.

Lemma keeps_throw {A} (Inv : St -> Prop) (e : Err) : keeps Inv (throw (A:=A) (Ans:=Ans) e).
Proof. intros s Hs; exact Hs. Qed.

Lemma keeps_bind {A B} (Inv : St -> Prop) (c : prog A) (f : A -> prog B) :
  keeps Inv c -> (forall a, keeps Inv (f a)) -> keeps Inv (bind c f).
Proof.
  intros Hc Hf s Hs. apply preserves_bind_step; [apply Hc, Hs|].
  intros a s' Hs'. apply Hf, Hs'.
Qed.

Lemma keeps_try_catch {A} (Inv : St -> Prop) (c : prog A) (h : Err -> prog A) :
  keeps Inv c -> (forall e, keeps Inv (h e)) -> keeps Inv (try_catch c h).
Proof.
  intros Hc Hh s Hs. apply preserves_catch_step; [apply Hc, Hs|].
  intros e s' Hs'. apply Hh, Hs'.
Qed.

Lemma keeps_await (Inv : St -> Prop) (r : Req) : keeps Inv (await (Err:=Err) (Ans:=Ans) r).
Proof. intros s Hs. apply preserves_await, Hs. Qed.

Lemma keeps_gets {A} (Inv : St -> Prop) (f : St -> A) :
  keeps Inv (gets (Err:=Err) (Ans:=Ans) f).
Proof. intros s Hs; exact Hs. Qed.

Lemma keeps_modify (Inv : St -> Prop) (f : St -> St) :
  (forall s, Inv s -> Inv (f s)) -> keeps Inv (modify (Err:=Err) (Ans:=Ans) f).
Proof. intros Hf s Hs. apply Hf, Hs. Qed.

Lemma keeps_lift_sum {E A} (Inv : St -> Prop) (inj : E -> Err) (x : E + A) :
  keeps Inv (lift_sum (Ans:=Ans) inj x).
Proof. destruct x; intros s Hs; exact Hs. Qed.

(** *** Traced interleavings *)

(** The traced interleavings are the interleavings. *)
Lemma pool_trace_steps {A} env (spawnable : prog A -> Prop)
    (p q : pool St Err Req Ans A) trace :
  pool_trace env spawnable p trace q -> pool_steps env spawnable p q.
Proof.
  induction 1 as [p|p trace q c _ IH Hc|p trace q i t t' _ IH Hi Hres].
  - apply pool_steps_refl.
  - eapply pool_steps_snoc; [exact IH|]. apply pool_spawn, Hc.
  - eapply pool_steps_snoc; [exact IH|]. eapply pool_resume; eassumption.
Qed.

Lemma pool_steps_trace {A} env (spawnable : prog A -> Prop)
    (p q : pool St Err Req Ans A) :
  pool_steps env spawnable p q -> exists trace, pool_trace env spawnable p trace q.
Proof.
  induction 1 as [p|p q r _ [trace IH] Hstep].
  - exists []. apply pool_trace_refl.
  - destruct Hstep as [q c Hc|q i t t' Hi Hres]; eexists.
    + apply pool_trace_spawn; eassumption.
    + eapply pool_trace_resume; eassumption.
Qed.

Section Accounting.
Context {X : Type} (obs : St -> list X) (f : Req -> option X).

Lemma accounts_for_from {A} from from' (t : step A) :
  obs from' = obs from -> accounts_for obs f from' t -> accounts_for obs f from t.
Proof. intros Hfrom. destruct t; cbn [accounts_for]; rewrite Hfrom; auto. Qed.

Lemma accounts_for_bind_step {A B} from (t : step A) (g : A -> prog B) :
  accounts_for obs f from t ->
  (forall a s, accounts_for obs f s (g a s)) ->
  accounts_for obs f from (bind_step t g).
Proof.
  intros Ht Hg. revert from Ht.
  induction t as [a s|e s|r s k IH]; intros from Ht; cbn [bind_step accounts_for] in *.
  - eapply accounts_for_from; [exact Ht|apply Hg].
  - exact Ht.
  - destruct Ht as [Hs Hk]. split; [exact Hs|].
    intros answer s'. apply IH, Hk.
Qed.

Lemma accounts_for_catch_step {A} from (t : step A) (h : Err -> prog A) :
  accounts_for obs f from t ->
  (forall e s, accounts_for obs f s (h e s)) ->
  accounts_for obs f from (catch_step t h).
Proof.
  intros Ht Hh. revert from Ht.
  induction t as [a s|e s|r s k IH]; intros from Ht; cbn [catch_step accounts_for] in *.
  - exact Ht.
  - eapply accounts_for_from; [exact Ht|apply Hh].
  - destruct Ht as [Hs Hk]. split; [exact Hs|].
    intros answer s'. apply IH, Hk.
Qed.

Lemma accounts_for_state {A} from (t : step A) :
  accounts_for obs f from t ->
  obs (step_state t) = omap f (requested t) ++ obs from.
Proof.
  destruct t as [a s|e s|r s k]; cbn [accounts_for step_state requested]; [auto..|].
  intros [Hs _]. rewrite Hs. cbn. destruct (f r); reflexivity.
Qed.

(** Every call of a pool accounts for what it appends, so the log of the
    shared state has grown by what the requests of the interleaving
    show. *)
Lemma pool_trace_accounts {A} env (spawnable : prog A -> Prop)
    (p q : pool St Err Req Ans A) trace :
  (forall c s, spawnable c -> accounts_for obs f s (c s)) ->
  pool_trace env spawnable p trace q ->
  Forall (fun t => exists from, accounts_for obs f from t) (tasks p) ->
  obs (shared q) = omap f trace ++ obs (shared p)
  /\ Forall (fun t => exists from, accounts_for obs f from t) (tasks q).
Proof.
  intros Hspawn Htrace Hp.
  induction Htrace as [p|p trace q c _ IH Hc|p trace q i t t' _ IH Hi Hres].
  - split; [reflexivity|exact Hp].
  - destruct (IH Hp) as [Hobs Hts]. cbn [shared tasks].
    pose proof (Hspawn c (shared q) Hc) as Hgood. split.
    + rewrite (accounts_for_state _ _ Hgood), Hobs, omap_app, app_assoc. reflexivity.
    + apply Forall_app; split; [exact Hts|]. constructor; [eauto|constructor].
  - destruct (IH Hp) as [Hobs Hts]. cbn [shared tasks].
    assert (Ht : exists from, accounts_for obs f from t).
    { rewrite Forall_forall in Hts. apply Hts.
      eapply list_elem_of_lookup_2; eassumption. }
    destruct Ht as [from Ht].
    destruct t as [a s|e s|r s k]; simpl in Hres; try contradiction.
    destruct Hres as (answer & _ & ->). destruct Ht as [_ Hk].
    specialize (Hk answer (shared q)). split.
    + rewrite (accounts_for_state _ _ Hk), Hobs, omap_app, app_assoc. reflexivity.
    + apply Forall_insert; [exact Hts|eauto].
Qed.

End Accounting.

(** *** Monotone calls *)

Lemma pool_steps_cons {A} env (spawnable : prog A -> Prop)
    (p q r : pool St Err Req Ans A) :
  pool_step env spawnable p q -> pool_steps env spawnable q r ->
  pool_steps env spawnable p r.
Proof.
  intros Hpq Hqr. induction Hqr as [q|q r t _ IH Hstep].
  - eapply pool_steps_snoc; [apply pool_steps_refl|exact Hpq].
  - eapply pool_steps_snoc; [apply IH, Hpq|exact Hstep].
Qed.
(** *** Monotone calls, continued *)

Section Ascends.
Context {A : Type} (le : St -> St -> Prop) (Q : A -> St -> Prop).
Hypothesis le_refl : forall s, le s s.
Hypothesis le_trans : forall s1 s2 s3, le s1 s2 -> le s2 s3 -> le s1 s3.
Hypothesis Q_stable : forall a s s', Q a s -> le s s' -> Q a s'.

Lemma ascends_le from (t : step A) : ascends le Q from t -> le from (step_state t).
Proof. destruct t; simpl; tauto. Qed.

Lemma settled_in_le shared shared' (t : step A) :
  settled_in le Q shared t -> le shared shared' -> settled_in le Q shared' t.
Proof.
  intros (Hle & Hasc & Hdone) Hstep. split; [|split].
  - eapply le_trans; eassumption.
  - assumption.
  - destruct t; try exact I. eapply Q_stable; eassumption.
Qed.

Lemma ascends_settled from (t : step A) :
  ascends le Q from t -> settled_in le Q (step_state t) t.
Proof.
  intros Hasc. split; [apply le_refl|]. split; [eauto|].
  destruct t; simpl in *; tauto.
Qed.

Lemma pool_step_ascends env (spawnable : prog A -> Prop)
    (p q : pool St Err Req Ans A) :
  (forall c s, spawnable c -> ascends le Q s (c s)) ->
  pool_step env spawnable p q ->
  Forall (settled_in le Q (shared p)) (tasks p) ->
  Forall (settled_in le Q (shared q)) (tasks q).
Proof.
  intros Hspawn Hstep Hts.
  destruct Hstep as [p c Hc|p i t t' Hi Hres]; simpl.
  - pose proof (Hspawn c (shared p) Hc) as Hasc.
    apply Forall_app; split.
    + eapply Forall_impl; [exact Hts|]. intros t Ht.
      eapply settled_in_le; [exact Ht|]. eapply ascends_le, Hasc.
    + constructor; [|constructor]. eapply ascends_settled, Hasc.
  - assert (Ht : settled_in le Q (shared p) t).
    { rewrite Forall_forall in Hts. apply Hts.
      eapply list_elem_of_lookup_2; eassumption. }
    destruct t as [a s|e s|r s k]; simpl in Hres; try contradiction.
    destruct Hres as (answer & _ & ->).
    destruct Ht as (_ & [from Hasc] & _). simpl in Hasc. destruct Hasc as [_ Hk].
    specialize (Hk answer (shared p)).
    apply Forall_insert.
    + eapply Forall_impl; [exact Hts|]. intros t Ht.
      eapply settled_in_le; [exact Ht|]. eapply ascends_le, Hk.
    + eapply ascends_settled, Hk.
Qed.

Lemma pool_steps_ascend env (spawnable : prog A -> Prop)
    (p q : pool St Err Req Ans A) :
  (forall c s, spawnable c -> ascends le Q s (c s)) ->
  pool_steps env spawnable p q ->
  Forall (settled_in le Q (shared p)) (tasks p) ->
  Forall (settled_in le Q (shared q)) (tasks q).
Proof.
  intros Hspawn Hsteps Hp. induction Hsteps as [p|p q r _ IH Hstep].
  - assumption.
  - eapply pool_step_ascends; eauto.
Qed.

End Ascends.

End ResumptionFacts.

(** ** What calls return and request *)

Section OutcomeFacts.
Context {St Err Req : Type} {Ans : Req -> Type}.
Local Abbreviation step := (step St Err Req Ans).
Local Abbreviation prog := (prog St Err Req Ans).

Lemma returns_only_bind_step {A B} (P : A -> Prop) (Q : B -> Prop)
    (t : step A) (f : A -> prog B) :
  returns_only P t ->
  (forall a s, P a -> returns_only Q (f a s)) ->
  returns_only Q (bind_step t f).
Proof.
  intros Ht Hf. induction t as [a s|e s|r s k IH]; simpl in *.
  - auto.
  - exact I.
  - intros answer s'. apply IH, Ht.
Qed.

Lemma returns_only_catch_step {A} (P : A -> Prop) (t : step A) (h : Err -> prog A) :
  returns_only P t ->
  (forall e s, returns_only P (h e s)) ->
  returns_only P (catch_step t h).
Proof.
  intros Ht Hh. induction t as [a s|e s|r s k IH]; simpl in *.
  - assumption.
  - apply Hh.
  - intros answer s'. apply IH, Ht.
Qed.

Lemma run_returns_only {A M} (mk : mock Err Req Ans M) (P : A -> Prop) (t : step A) m a :
  returns_only P t -> run_outcome (run mk t m) = Returned a -> P a.
Proof.
  revert m. induction t as [a' s|e s|r s k IH]; intros m Ht Hrun; simpl in *.
  - injection Hrun as <-. exact Ht.
  - discriminate.
  - destruct (respond mk r m) as [answer m']. eapply IH; [apply Ht|exact Hrun].
Qed.

Lemma requests_only_bind_step {A B} (P : Req -> Prop) (t : step A) (f : A -> prog B) :
  requests_only P t ->
  (forall a s, requests_only P (f a s)) ->
  requests_only P (bind_step t f).
Proof.
  intros Ht Hf. induction t as [a s|e s|r s k IH]; simpl in *.
  - auto.
  - exact I.
  - destruct Ht as [Hr Hk]. split; [exact Hr|]. intros answer s'. apply IH, Hk.
Qed.

Lemma requests_only_catch_step {A} (P : Req -> Prop) (t : step A) (h : Err -> prog A) :
  requests_only P t ->
  (forall e s, requests_only P (h e s)) ->
  requests_only P (catch_step t h).
Proof.
  intros Ht Hh. induction t as [a s|e s|r s k IH]; simpl in *.
  - exact I.
  - apply Hh.
  - destruct Ht as [Hr Hk]. split; [exact Hr|]. intros answer s'. apply IH, Hk.
Qed.

Lemma run_requests_only {A M} (mk : mock Err Req Ans M) (P : Req -> Prop) (t : step A) m :
  requests_only P t -> Forall P (run_trace (run mk t m)).
Proof.
  revert m. induction t as [a' s|e s|r s k IH]; intros m Ht; simpl in *.
  - constructor.
  - constructor.
  - destruct (respond mk r m) as [answer m']. destruct Ht as [Hr Hk].
    cbn [traced run_trace]. constructor; [exact Hr|]. apply IH, Hk.
Qed.

Section Monotone.
Context (le : St -> St -> Prop).
Hypothesis le_refl : forall s, le s s.
Hypothesis le_trans : forall s1 s2 s3, le s1 s2 -> le s2 s3 -> le s1 s3.

Lemma ascends_from {A} (Q : A -> St -> Prop) from from' (t : step A) :
  le from from' -> ascends le Q from' t -> ascends le Q from t.
Proof.
  intros Hle. destruct t as [a s|e s|r s k]; simpl.
  - intros [Hs Hq]. split; [eapply le_trans; eassumption|exact Hq].
  - intros Hs. eapply le_trans; eassumption.
  - intros [Hs Hk]. split; [eapply le_trans; eassumption|exact Hk].
Qed.

Lemma ascends_bind_step {A B} (P : A -> St -> Prop) (Q : B -> St -> Prop)
    from (t : step A) (f : A -> prog B) :
  ascends le P from t ->
  (forall a s, P a s -> ascends le Q s (f a s)) ->
  ascends le Q from (bind_step t f).
Proof.
  intros Ht Hf. revert from Ht. induction t as [a s|e s|r s k IH]; intros from Ht; simpl in *.
  - destruct Ht as [Hs Hp]. eapply ascends_from; [exact Hs|]. apply Hf, Hp.
  - exact Ht.
  - destruct Ht as [Hs Hk]. split; [exact Hs|]. intros answer s'. apply IH, Hk.
Qed.

Lemma ascends_catch_step {A} (Q : A -> St -> Prop) from (t : step A) (h : Err -> prog A) :
  ascends le Q from t ->
  (forall e s, ascends le Q s (h e s)) ->
  ascends le Q from (catch_step t h).
Proof.
  intros Ht Hh. revert from Ht. induction t as [a s|e s|r s k IH]; intros from Ht; simpl in *.
  - exact Ht.
  - eapply ascends_from; [exact Ht|]. apply Hh.
  - destruct Ht as [Hs Hk]. split; [exact Hs|]. intros answer s'. apply IH, Hk.
Qed.

Lemma run_ascends {A M} (mk : mock Err Req Ans M) (Q : A -> St -> Prop) from (t : step A) m :
  ascends le Q from t -> le from (run_state (run mk t m)).
Proof.
  revert from m. induction t as [a s|e s|r s k IH]; intros from m Ht; simpl in *.
  - apply Ht.
  - exact Ht.
  - destruct (respond mk r m) as [answer m']. destruct Ht as [Hs Hk].
    cbn [traced run_state]. eapply le_trans; [exact Hs|]. apply IH, Hk.
Qed.

End Monotone.

End OutcomeFacts.

(** ** The backoff executor *)

Section BackoffFacts.
Context {St Err Req : Type} {Ans : Req -> Type}.
Context {A : Type} `{RetrySignal A}.
Variable sleep_req : Q -> Req.
Variable sleep : Q -> prog St Err Req Ans unit.
Hypothesis sleep_timer :
  forall ms s, sleep ms s = Await (sleep_req ms) s (fun _ s' => Done tt s').

(** One round of the executor. *)
Lemma run_backoff_S {M} (mk : mock Err Req Ans M)
    (getResult : prog St Err Req Ans A) w n b s m :
  run mk (exponentialBackoff sleep w (S n) b getResult s) m
  = run_then (run mk (getResult s) m)
      (fun a s' m' =>
         if is_retry_signal a then
           match n with
           | O => mkRun (Returned retry_signal) s' m' []
           | S _ =>
               traced (sleep_req w)
                 (run mk (exponentialBackoff sleep (Qred (w * b)) n b getResult s')
                    (snd (respond mk (sleep_req w) m')))
           end
         else mkRun (Returned a) s' m' []).
Proof.
  change (exponentialBackoff sleep w (S n) b getResult s)
    with (bind_step (getResult s)
            (fun result =>
               if is_retry_signal result then
                 match n with
                 | O => ret retry_signal
                 | S _ => bind (sleep w) (fun _ =>
                            exponentialBackoff sleep (Qred (w * b)) n b getResult)
                 end
               else ret result)).
  rewrite run_bind_step. apply run_then_ext. intros a s' m'.
  destruct (is_retry_signal a); [|reflexivity].
  destruct n as [|n']; [reflexivity|].
  unfold bind. rewrite sleep_timer. cbn [bind_step run].
  destruct (respond mk (sleep_req w) m') as [answer m'']. reflexivity.
Qed.

Lemma run_backoff_exhausted {M} (mk : mock Err Req Ans M)
    (getResult : prog St Err Req Ans A) n w b :
  (forall s m, exists a, run_outcome (run mk (getResult s) m) = Returned a
                         /\ is_retry_signal a = true) ->
  forall s m,
    run_outcome (run mk (exponentialBackoff sleep w n b getResult s) m)
    = Returned retry_signal.
Proof.
  intros Hretry. revert w. induction n as [|n IH]; intros w s m.
  - reflexivity.
  - rewrite run_backoff_S. destruct (Hretry s m) as (a & Ha & Hsig).
    unfold run_then. rewrite Ha. cbn [run_outcome]. rewrite Hsig.
    destruct n as [|n']; [reflexivity|]. apply IH.
Qed.

Lemma keeps_backoff (Inv : St -> Prop) (getResult : prog St Err Req Ans A) n w b :
  keeps Inv getResult -> keeps Inv (exponentialBackoff sleep w n b getResult).
Proof.
  intros Hget. revert w. induction n as [|n IH]; intros w s Hs.
  - exact Hs.
  - change (exponentialBackoff sleep w (S n) b getResult s)
      with (bind_step (getResult s)
              (fun result =>
                 if is_retry_signal result then
                   match n with
                   | O => ret retry_signal
                   | S _ => bind (sleep w) (fun _ =>
                              exponentialBackoff sleep (Qred (w * b)) n b getResult)
                   end
                 else ret result)).
    apply preserves_bind_step; [apply Hget, Hs|].
    intros a s' Hs'. destruct (is_retry_signal a); [|exact Hs'].
    destruct n as [|n']; [exact Hs'|].
    unfold bind. rewrite sleep_timer. cbn [bind_step preserves].
    split; [exact Hs'|]. intros _ s'' Hs''. apply IH, Hs''.
Qed.

Lemma backoff_unfold (getResult : prog St Err Req Ans A) w n b s :
  exponentialBackoff sleep w (S n) b getResult s
  = bind_step (getResult s)
      (fun result =>
         if is_retry_signal result then
           match n with
           | O => ret retry_signal
           | S _ => bind (sleep w) (fun _ =>
                      exponentialBackoff sleep (Qred (w * b)) n b getResult)
           end
         else ret result).
Proof. reflexivity. Qed.

Lemma returns_only_backoff (P : A -> Prop) (getResult : prog St Err Req Ans A) n w b :
  P retry_signal ->
  (forall s, returns_only P (getResult s)) ->
  forall s, returns_only P (exponentialBackoff sleep w n b getResult s).
Proof.
  intros Hsig Hget. revert w. induction n as [|n IH]; intros w s.
  - exact Hsig.
  - rewrite backoff_unfold.
    apply (returns_only_bind_step P); [apply Hget|].
    intros a s' Ha. destruct (is_retry_signal a); [|exact Ha].
    destruct n as [|n']; [exact Hsig|].
    unfold bind. rewrite sleep_timer. cbn [bind_step returns_only].
    intros _ s''. apply IH.
Qed.

Lemma requests_only_backoff (P : Req -> Prop) (getResult : prog St Err Req Ans A) n w b :
  (forall ms, P (sleep_req ms)) ->
  (forall s, requests_only P (getResult s)) ->
  forall s, requests_only P (exponentialBackoff sleep w n b getResult s).
Proof.
  intros Hsleep Hget. revert w. induction n as [|n IH]; intros w s.
  - exact I.
  - rewrite backoff_unfold.
    apply requests_only_bind_step; [apply Hget|].
    intros a s'. destruct (is_retry_signal a); [|exact I].
    destruct n as [|n']; [exact I|].
    unfold bind. rewrite sleep_timer. cbn [bind_step requests_only].
    split; [apply Hsleep|]. intros _ s''. apply IH.
Qed.

Lemma accounts_for_backoff {X} (obs : St -> list X) (f : Req -> option X)
    (getResult : prog St Err Req Ans A) n w b :
  (forall ms, f (sleep_req ms) = None) ->
  (forall s, accounts_for obs f s (getResult s)) ->
  forall s, accounts_for obs f s (exponentialBackoff sleep w n b getResult s).
Proof.
  intros Hsleep Hget. revert w. induction n as [|n IH]; intros w s.
  - reflexivity.
  - rewrite backoff_unfold.
    apply accounts_for_bind_step; [apply Hget|].
    intros a s'. destruct (is_retry_signal a); [|reflexivity].
    destruct n as [|n']; [reflexivity|].
    unfold bind. rewrite sleep_timer. cbn [bind_step accounts_for].
    rewrite Hsleep. split; [reflexivity|]. intros _ s''. apply IH.
Qed.

Lemma ascends_backoff (le : St -> St -> Prop) (Q : A -> St -> Prop)
    (getResult : prog St Err Req Ans A) n w b :
  (forall s, le s s) ->
  (forall s1 s2 s3, le s1 s2 -> le s2 s3 -> le s1 s3) ->
  (forall s, Q retry_signal s) ->
  (forall s, ascends le Q s (getResult s)) ->
  forall s, ascends le Q s (exponentialBackoff sleep w n b getResult s).
Proof.
  intros Hrefl Htrans Hsig Hget. revert w. induction n as [|n IH]; intros w s.
  - split; [apply Hrefl|apply Hsig].
  - rewrite backoff_unfold.
    apply (ascends_bind_step le Htrans Q); [apply Hget|].
    intros a s' Ha. destruct (is_retry_signal a); [|split; [apply Hrefl|exact Ha]].
    destruct n as [|n']; [split; [apply Hrefl|apply Hsig]|].
    unfold bind. rewrite sleep_timer. cbn [bind_step ascends].
    split; [apply Hrefl|]. intros _ s''. apply IH.
Qed.

End BackoffFacts.

(** ** The RPC request channel *)

Module ProviderFacts.
Import Provider.
Section Facts.
Context `{RpcErrors}.

Lemma attempt_unfold {M} (mk : mock exn req ans M) txs method params s m :
  run mk (attempt txs method params s) m
  = run_handle (run mk (attempt_body txs method params s) m)
      (fun e s' m' => run mk (attempt_handler method params e s') m').
Proof. apply run_try_catch. Qed.

Lemma sendJsonRpc_unfold {M} (mk : mock exn req ans M) fuel method params s m :
  run mk (sendJsonRpc (S fuel) method params s) m
  = run_then
      (run mk (exponentialBackoff sleep REQUEST_RETRY_WAIT REQUEST_RETRY_NUMBER
                 REQUEST_RETRY_WAIT_BACKOFF
                 (attempt (txStatusString fuel) method params) s) m)
      (fun result s' m' =>
         run mk ((if String.eqb (typeof result) "undefined"
                  then throw (Thrown (RetriesExceeded method))
                  else ret result) s') m').
Proof.
  change (sendJsonRpc (S fuel) method params s)
    with (bind_step
            (exponentialBackoff sleep REQUEST_RETRY_WAIT REQUEST_RETRY_NUMBER
               REQUEST_RETRY_WAIT_BACKOFF
               (attempt (txStatusString fuel) method params) s)
            (fun result =>
               if String.eqb (typeof result) "undefined"
               then throw (Thrown (RetriesExceeded method))
               else ret result)).
  apply run_bind_step.
Qed.

(** C4.  The code at the exhaustion of the executor: when every attempt
    yields the retry-signal, [sendJsonRpc] does not raise RetriesExceeded;
    it returns the retry-signal, [null], to its caller.  The executor
    returns [null], and the guard before the [throw] tests for
    [undefined]. *)
Theorem sendJsonRpc_exhausted_returns_null {M} (mk : mock exn req ans M)
    fuel method params :
  (forall s m, run_outcome (run mk (attempt (txStatusString fuel) method params s) m)
               = Returned VNull) ->
  forall s m,
    run_outcome (run mk (sendJsonRpc (S fuel) method params s) m) = Returned VNull.
Proof.
  intros Hretry s m. rewrite sendJsonRpc_unfold.
  pose proof (run_backoff_exhausted (A:=value) Sleep sleep ltac:(reflexivity) mk
                (attempt (txStatusString fuel) method params)
                REQUEST_RETRY_NUMBER REQUEST_RETRY_WAIT REQUEST_RETRY_WAIT_BACKOFF) as Hex.
  unfold run_then. rewrite Hex.
  - reflexivity.
  - intros s' m'. exists VNull. split; [apply Hretry|reflexivity].
Qed.

Lemma backoff_raises {M} (mk : mock exn req ans M) (getResult : prog value)
    w n b s m e :
  run_outcome (run mk (getResult s) m) = Raised e ->
  run mk (exponentialBackoff sleep w (S n) b getResult s) m = run mk (getResult s) m.
Proof.
  intros Hraise.
  change (exponentialBackoff sleep w (S n) b getResult s)
    with (bind_step (getResult s)
            (fun result =>
               if is_retry_signal result then
                 match n with
                 | O => ret retry_signal
                 | S _ => bind (sleep w) (fun _ =>
                            exponentialBackoff sleep (Qred (w * b)) n b getResult)
                 end
               else ret result)).
  rewrite run_bind_step. unfold run_then. rewrite Hraise.
  rewrite <- Hraise. apply run_eta.
Qed.

Lemma backoff_retries {M} (mk : mock exn req ans M) (getResult : prog value)
    w n b s m :
  run_outcome (run mk (getResult s) m) = Returned VNull ->
  run_trace (run mk (exponentialBackoff sleep w (S (S n)) b getResult s) m)
  = run_trace (run mk (getResult s) m)
    ++ Sleep w
    :: run_trace (run mk (exponentialBackoff sleep (Qred (w * b)) (S n) b getResult
                            (run_state (run mk (getResult s) m)))
                    (snd (respond mk (Sleep w) (run_mock (run mk (getResult s) m))))).
Proof.
  intros Hnull.
  change (exponentialBackoff sleep w (S (S n)) b getResult s)
    with (bind_step (getResult s)
            (fun result =>
               if is_retry_signal result then
                 bind (sleep w) (fun _ =>
                   exponentialBackoff sleep (Qred (w * b)) (S n) b getResult)
               else ret result)).
  rewrite run_bind_step. unfold run_then. rewrite Hnull. cbn [is_retry_signal value_retry_signal].
  cbn [run_trace]. f_equal.
  unfold bind, sleep. cbn [bind_step run].
  destruct (respond mk (Sleep w) (run_mock (run mk (getResult s) m))) as [answer m'].
  reflexivity.
Qed.

Lemma attempt_first_request {M} (mk : mock exn req ans M) txs method params s m :
  exists rest,
    run_trace (run mk (attempt txs method params s) m)
    = ProxyRequest (mkRequest method params (_nextId s) "2.0") :: rest.
Proof.
  unfold attempt, try_catch, attempt_body, bind. cbn [gets bind_step modify await catch_step run].
  destruct (respond mk _ m) as [answer m']. cbn [traced run_trace]. eauto.
Qed.

Lemma backoff_first_request {M} (mk : mock exn req ans M) txs method params w n b s m :
  exists rest,
    run_trace (run mk (exponentialBackoff sleep w (S n) b (attempt txs method params) s) m)
    = ProxyRequest (mkRequest method params (_nextId s) "2.0") :: rest.
Proof.
  change (exponentialBackoff sleep w (S n) b (attempt txs method params) s)
    with (bind_step (attempt txs method params s)
            (fun result =>
               if is_retry_signal result then
                 match n with
                 | O => ret retry_signal
                 | S _ => bind (sleep w) (fun _ =>
                            exponentialBackoff sleep (Qred (w * b)) n b (attempt txs method params))
                 end
               else ret result)).
  rewrite run_bind_step.
  destruct (attempt_first_request mk txs method params s m) as [rest Hrest].
  unfold run_then. destruct (run_outcome _); cbn [run_trace]; rewrite Hrest; simpl; eauto.
Qed.

(** C7.  Whatever error the [try] block of an attempt raises: if its type
    is TimeoutError, the attempt returns the retry-signal; unless
    NEAR_NO_LOGS is set it has appended to the console the one line
    [console.warn("Retrying request to <method> as it has timed out",
    params)], and it has changed nothing else; the channel goes on with
    the delay and the same request again.  Otherwise the attempt raises
    that error and [sendJsonRpc] raises it at once, with no further
    request. *)
Theorem sendJsonRpc_catch {M} (mk : mock exn req ans M) fuel method params s m e :
  let body := run mk (attempt_body (txStatusString fuel) method params s) m in
  let left := run_state body in
  let warning :=
    ConsoleWarn ("Retrying request to " +:+ method +:+ " as it has timed out") [params] in
  run_outcome body = Raised (Thrown e) ->
  if has_type e "TimeoutError" then
    run mk (attempt (txStatusString fuel) method params s) m
    = mkRun (Returned VNull)
        (mkState (_nextId left) (_network left) (_account left) (_pubKey left)
           (if NEAR_NO_LOGS left then console left else console left ++ [warning])
           (NEAR_NO_LOGS left))
        (run_mock body) (run_trace body)
    /\ exists rest,
         run_trace (run mk (sendJsonRpc (S fuel) method params s) m)
         = run_trace body
           ++ Sleep REQUEST_RETRY_WAIT
           :: ProxyRequest (mkRequest method params (_nextId (run_state body)) "2.0")
           :: rest
  else
    run mk (attempt (txStatusString fuel) method params s) m = body
    /\ run mk (sendJsonRpc (S fuel) method params s) m = body.
Proof.
  intros body left warning Hbody.
  assert (Hwarned : mkState (_nextId left) (_network left) (_account left) (_pubKey left)
                      (if NEAR_NO_LOGS left then console left else console left ++ [warning])
                      (NEAR_NO_LOGS left)
                    = timeout_warning method params (run_state body)).
  { unfold timeout_warning, console_warn. fold left. subst warning.
    destruct left as [n network account pubKey lines [|]]; reflexivity. }
  rewrite Hwarned. clear Hwarned. subst left. clear warning.
  pose proof (attempt_unfold mk (txStatusString fuel) method params s m) as Hatt.
  fold body in Hatt. unfold run_handle in Hatt. rewrite Hbody in Hatt.
  unfold attempt_handler in Hatt.
  destruct (has_type e "TimeoutError") eqn:Htype.
  - assert (Hrun : run mk (attempt (txStatusString fuel) method params s) m
                   = mkRun (Returned VNull) (timeout_warning method params (run_state body))
                       (run_mock body) (run_trace body)).
    { rewrite Hatt. unfold timeout_warning, bind, gets. cbn [bind_step].
      destruct (NEAR_NO_LOGS (run_state body)); cbn; rewrite app_nil_r; reflexivity. }
    split; [exact Hrun|].
    rewrite sendJsonRpc_unfold.
    unfold REQUEST_RETRY_NUMBER.
    match goal with
    | |- context [run_then ?r ?k] => remember r as R eqn:HR
    end.
    assert (Htr : exists rest, run_trace R
              = run_trace body ++ Sleep REQUEST_RETRY_WAIT
                :: ProxyRequest (mkRequest method params (_nextId (run_state body)) "2.0")
                :: rest).
    { subst R. rewrite backoff_retries by (rewrite Hrun; reflexivity).
      rewrite Hrun. cbn [run_trace run_state run_mock].
      match goal with
      | |- context [run mk (exponentialBackoff sleep ?w (S ?n) ?b ?g ?s0) ?m0] =>
          destruct (backoff_first_request mk (txStatusString fuel) method params w n b s0 m0)
            as [rest Hrest]
      end.
      rewrite Hrest. exists rest. f_equal. f_equal. f_equal.
      unfold timeout_warning. destruct (NEAR_NO_LOGS (run_state body)); reflexivity. }
    destruct Htr as [rest Htr]. clear HR.
    unfold run_then. destruct (run_outcome R).
    + cbn [run_trace]. rewrite Htr. rewrite <- app_assoc. simpl. eauto.
    + cbn [run_trace]. eauto.
  - assert (Hrun : run mk (attempt (txStatusString fuel) method params s) m = body).
    { rewrite Hatt. cbn. rewrite app_nil_r. rewrite <- Hbody. apply run_eta. }
    split; [exact Hrun|].
    rewrite sendJsonRpc_unfold. unfold REQUEST_RETRY_NUMBER.
    rewrite (backoff_raises mk _ _ _ _ _ _ (Thrown e)) by (rewrite Hrun; exact Hbody).
    rewrite Hrun. unfold run_then. rewrite Hbody. rewrite <- Hbody. apply run_eta.
Qed.


Lemma backoff_returns {M} (mk : mock exn req ans M) (getResult : prog value)
    w n b s m v :
  run_outcome (run mk (getResult s) m) = Returned v ->
  is_retry_signal v = false ->
  run mk (exponentialBackoff sleep w (S n) b getResult s) m = run mk (getResult s) m.
Proof.
  intros Hret Hfinal.
  change (exponentialBackoff sleep w (S n) b getResult s)
    with (bind_step (getResult s)
            (fun result =>
               if is_retry_signal result then
                 match n with
                 | O => ret retry_signal
                 | S _ => bind (sleep w) (fun _ =>
                            exponentialBackoff sleep (Qred (w * b)) n b getResult)
                 end
               else ret result)).
  rewrite run_bind_step. unfold run_then. rewrite Hret, Hfinal. cbn.
  rewrite app_nil_r. rewrite <- Hret. apply run_eta.
Qed.

(** C10.  When the proxy answers a request with an array, the attempt is
    resumed into the status query ['tx'] for the first element of the array
    and the account of the provider at that moment; the run of the attempt
    is the request followed by the run of that query, and a final result
    of the query is what [sendJsonRpc] returns, not the array. *)
Theorem sendJsonRpc_array_response {M} (mk : mock exn req ans M)
    fuel method params s m items m' :
  let request := ProxyRequest (mkRequest method params (_nextId s) "2.0") in
  let follow_up :=
    run mk (sendJsonRpc fuel "tx" (VArr [first_item items; VStr (_account s)])
              (set_nextId (_nextId s + 1) s)) m' in
  respond mk request m = (Resolved (VArr items), m') ->
  (exists k,
      attempt_body (txStatusString fuel) method params s
      = Await request (set_nextId (_nextId s + 1) s) k
      /\ forall items' s',
          k (Resolved (VArr items')) s'
          = sendJsonRpc fuel "tx" (VArr [first_item items'; VStr (_account s')]) s')
  /\ run mk (attempt_body (txStatusString fuel) method params s) m
     = traced request follow_up
  /\ forall v,
       run_outcome follow_up = Returned v ->
       truthy v = true ->
       run mk (sendJsonRpc (S fuel) method params s) m = traced request follow_up.
Proof.
  intros request follow_up Hresp.
  assert (Hbody : run mk (attempt_body (txStatusString fuel) method params s) m
                  = traced request follow_up).
  { unfold attempt_body, bind. cbn [gets modify bind_step await run].
    fold request. rewrite Hresp. reflexivity. }
  split; [|split].
  - unfold attempt_body, bind. cbn [gets modify bind_step await].
    eexists. split; [reflexivity|]. intros items' s'. reflexivity.
  - exact Hbody.
  - intros v Hv Htruthy.
    assert (Hfinal : is_retry_signal v = false) by (destruct v; try reflexivity; discriminate).
    assert (Hdefined : typeof v <> "undefined") by (destruct v; discriminate).
    assert (Hv' : run_outcome (traced request follow_up) = Returned v) by exact Hv.
    assert (Hatt : run mk (attempt (txStatusString fuel) method params s) m
                   = traced request follow_up).
    { rewrite attempt_unfold, Hbody. unfold run_handle. rewrite Hv'. reflexivity. }
    rewrite sendJsonRpc_unfold. unfold REQUEST_RETRY_NUMBER.
    rewrite (backoff_returns mk _ _ _ _ _ _ v)
      by first [assumption | rewrite Hatt; assumption].
    rewrite Hatt. unfold run_then. rewrite Hv'.
    destruct (String.eqb_spec (typeof v) "undefined") as [Heq|_]; [contradiction|].
    unfold ret. cbn [run run_outcome run_state run_mock run_trace].
    rewrite app_nil_r. rewrite <- Hv'. apply run_eta.
Qed.

(** Legacy shape in the channel. *)
Lemma classify_error_legacy error data message type s :
  get_prop error "data" = inr data ->
  typeof data = "object" ->
  get_prop data "error_message" = inr (VStr message) ->
  get_prop data "error_type" = inr (VStr type) ->
  classify_error error s = Fail (Thrown (TypedError message type)) s.
Proof.
  intros Hdata Hobj Hm Ht. unfold classify_error, bind.
  rewrite Hdata. cbn [lift lift_sum ret bind_step]. rewrite Hobj. cbn [String.eqb Ascii.eqb Bool.eqb].
  simpl. rewrite Hm. simpl. rewrite Ht. reflexivity.
Qed.

(** *** More of the channel *)

(** The classifier always throws. *)
Lemma classify_error_throws error s :
  exists e, classify_error error s = Fail (Thrown e) s.
Proof.
  unfold classify_error, bind.
  destruct (get_prop error "data") as [e|data]; cbn [lift lift_sum throw ret bind_step]; [eauto|].
  destruct (String.eqb (typeof data) "object").
  - destruct (get_prop data "error_message") as [e|error_message];
      cbn [lift lift_sum throw ret bind_step]; [eauto|].
    destruct (get_prop data "error_type") as [e|error_type];
      cbn [lift lift_sum throw ret bind_step]; [eauto|].
    destruct error_message, error_type; eauto.
  - destruct (get_prop error "code") as [e|code]; cbn [lift lift_sum throw ret bind_step]; [eauto|].
    destruct (get_prop error "message") as [e|message];
      cbn [lift lift_sum throw ret bind_step]; [eauto|].
    match goal with |- context [if ?c then _ else _] => destruct c end; eauto.
Qed.

Lemma handler_cases method params e s :
  (exists s', attempt_handler method params e s = Done VNull s'
              /\ s' = (match e with
                       | Thrown error => timeout_warning method params s
                       | OutOfFuel => s
                       end))
  \/ attempt_handler method params e s = Fail e s.
Proof.
  destruct e as [error|]; [|right; reflexivity].
  unfold attempt_handler. destruct (has_type error "TimeoutError"); [|right; reflexivity].
  left. unfold timeout_warning, bind, gets. cbn [bind_step].
  destruct (NEAR_NO_LOGS s); cbn; eauto.
Qed.

Lemma sendJsonRpc_S fuel method params s :
  sendJsonRpc (S fuel) method params s
  = bind_step
      (exponentialBackoff sleep REQUEST_RETRY_WAIT REQUEST_RETRY_NUMBER
         REQUEST_RETRY_WAIT_BACKOFF
         (attempt (txStatusString fuel) method params) s)
      (fun result =>
         if String.eqb (typeof result) "undefined"
         then throw (Thrown (RetriesExceeded method))
         else ret result).
Proof. reflexivity. Qed.


(** *** What the channel returns *)

Lemma attempt_returns_only (P : value -> Prop) txs method params :
  P VNull ->
  (forall v, error_free v = true -> isArray v = false -> P v) ->
  (forall txHash accountId s, returns_only P (txs txHash accountId s)) ->
  forall s, returns_only P (attempt txs method params s).
Proof.
  intros Hnull Hfree Htxs s. unfold attempt, try_catch.
  apply returns_only_catch_step.
  - unfold attempt_body, bind. cbn [gets modify bind_step await returns_only].
    intros [response|e] s'; cbn [bind_step returns_only]; [|exact I].
    assert (Hrest : isArray response = false ->
              returns_only P
                (bind_step (lift (get_prop response "error") s')
                   (fun error => if truthy error then classify_error error
                                 else ret response))).
    { intros Harr. destruct (get_prop response "error") as [e|error] eqn:Herror;
        cbn [lift lift_sum throw ret bind_step returns_only]; [exact I|].
      destruct (truthy error) eqn:Htruthy.
      - destruct (classify_error_throws error s') as [e ->]. exact I.
      - cbn. apply Hfree; [|exact Harr]. unfold error_free. rewrite Herror, Htruthy.
        reflexivity. }
    destruct response; try (apply Hrest; reflexivity).
    cbn [bind_step]. apply Htxs.
  - intros e s'. destruct (handler_cases method params e s') as [(s'' & -> & _)| ->].
    + exact Hnull.
    + exact I.
Qed.

Lemma sendJsonRpc_returns_only (P : value -> Prop) :
  P VNull ->
  (forall v, error_free v = true -> isArray v = false -> P v) ->
  forall fuel method params s, returns_only P (sendJsonRpc fuel method params s).
Proof.
  intros Hnull Hfree. induction fuel as [|fuel IH]; intros method params s.
  - exact I.
  - rewrite sendJsonRpc_S. apply (returns_only_bind_step P).
    + apply (returns_only_backoff Sleep sleep); [reflexivity|exact Hnull|].
      intros s'. apply attempt_returns_only; [exact Hnull|exact Hfree|].
      intros txHash accountId s''. apply IH.
    + intros v s' Hv. destruct (String.eqb (typeof v) "undefined"); [exact I|exact Hv].
Qed.


Context `{JSON}.

(** X8.  [query] never raises its own 'Querying ... failed' error: a
    value that [sendJsonRpc] returns has no truthy [error], so a run of
    [query] is the run of [sendJsonRpc('query', params)], [params] being
    the single argument, or else the pair of the first two. *)
Theorem query_is_sendJsonRpc {M} (mk : mock exn req ans M) fuel args s m :
  run mk (query fuel args s) m
  = run mk (sendJsonRpc fuel "query"
              (if (length args =? 1)%nat then first_item args
               else VArr [nth 0 args VUndefined; nth 1 args VUndefined]) s) m.
Proof.
  unfold query. rewrite run_bind.
  set (params := if (length args =? 1)%nat then first_item args
                 else VArr [nth 0 args VUndefined; nth 1 args VUndefined]).
  replace (if (length args =? 1)%nat
           then sendJsonRpc fuel "query" (first_item args)
           else sendJsonRpc fuel "query"
                  (VArr [nth 0 args VUndefined; nth 1 args VUndefined]))
    with (sendJsonRpc fuel "query" params)
    by (subst params; destruct (length args =? 1)%nat; reflexivity).
  remember (run mk (sendJsonRpc fuel "query" params s) m) as r eqn:Hr.
  unfold run_then. destruct (run_outcome r) as [v|e] eqn:Hout.
  - assert (Hfree : error_free v = true).
    { apply (run_returns_only mk (fun v => error_free v = true)
               (sendJsonRpc fuel "query" params s) m).
      - apply sendJsonRpc_returns_only; [reflexivity|auto].
      - rewrite <- Hr. exact Hout. }
    assert (Hk : forall s' m',
               run mk ((if truthy v
                        then bind (lift (get_prop v "error"))
                               (fun error =>
                                  if truthy error
                                  then throw (Thrown (TypedError
                                         ("Querying " +:+ toString (VArr args)
                                            +:+ " failed: " +:+ toString error
                                            +:+ "." +:+ newline +:+ JSON_stringify v)
                                         (getErrorTypeFromErrorMessage error)))
                                  else ret v)
                        else ret v) s') m'
               = mkRun (Returned v) s' m' []).
    { intros s' m'. destruct (truthy v) eqn:Htruthy; [|reflexivity].
      unfold error_free in Hfree. unfold bind.
      destruct (get_prop v "error") as [e|error] eqn:Herror; [destruct v; discriminate|].
      cbn [lift lift_sum ret bind_step]. apply negb_true_iff in Hfree. rewrite Hfree.
      reflexivity. }
    rewrite Hk. cbn [run_outcome run_state run_mock run_trace]. rewrite app_nil_r.
    rewrite <- Hout. apply run_eta.
  - rewrite <- Hout. apply run_eta.
Qed.


(** *** The request counter *)














(** *** What the channel leaves alone *)

Lemma extends_refl s : extends s s.
Proof.
  do 4 (split; [reflexivity|]). split; [lia|].
  exists []. rewrite app_nil_r. auto.
Qed.

Lemma extends_trans s1 s2 s3 : extends s1 s2 -> extends s2 s3 -> extends s1 s3.
Proof.
  intros (Hn1 & Ha1 & Hp1 & Hf1 & Hc1 & w1 & Hw1 & Hall1 & Hq1)
         (Hn2 & Ha2 & Hp2 & Hf2 & Hc2 & w2 & Hw2 & Hall2 & Hq2).
  do 4 (split; [congruence|]). split; [lia|].
  exists (w1 ++ w2). split; [|split].
  - rewrite Hw2, Hw1, app_assoc. reflexivity.
  - apply Forall_app; auto.
  - intros Hflag. rewrite Hq1 by exact Hflag. rewrite Hq2 by congruence. reflexivity.
Qed.

Lemma extends_set_nextId s n : _nextId s <= n -> extends s (set_nextId n s).
Proof.
  intros Hle. do 4 (split; [reflexivity|]). split; [exact Hle|].
  exists []. cbn. rewrite app_nil_r. auto.
Qed.

Lemma extends_timeout_warning method params s :
  extends s (timeout_warning method params s).
Proof.
  unfold timeout_warning. destruct (NEAR_NO_LOGS s) eqn:Hflag; [apply extends_refl|].
  do 4 (split; [reflexivity|]). split; [cbn; lia|].
  eexists. split; [reflexivity|]. split.
  - constructor; [eauto|constructor].
  - congruence.
Qed.

Local Abbreviation grows := (ascends extends (fun (_ : value) (_ : state) => True)).

Lemma grows_attempt txs method params :
  (forall txHash accountId s, grows s (txs txHash accountId s)) ->
  forall s, grows s (attempt txs method params s).
Proof.
  intros Htxs s. unfold attempt, try_catch.
  apply (ascends_catch_step extends extends_trans).
  - unfold attempt_body, bind. cbn [gets modify bind_step await ascends].
    split; [apply extends_set_nextId; lia|].
    intros [response|e] s'; cbn [bind_step ascends]; [|apply extends_refl].
    assert (Hrest : grows s'
                (bind_step (lift (get_prop response "error") s')
                   (fun error => if truthy error then classify_error error
                                 else ret response))).
    { destruct (get_prop response "error") as [e|error];
        cbn [lift lift_sum throw ret bind_step ascends]; [apply extends_refl|].
      destruct (truthy error).
      - destruct (classify_error_throws error s') as [e ->]. apply extends_refl.
      - split; [apply extends_refl|exact I]. }
    destruct response; try exact Hrest.
    cbn [bind_step]. apply Htxs.
  - intros e s'. destruct (handler_cases method params e s') as [(s'' & -> & ->)| ->].
    + split; [|exact I]. destruct e; [apply extends_timeout_warning|apply extends_refl].
    + apply extends_refl.
Qed.

Lemma grows_sendJsonRpc fuel method params s :
  grows s (sendJsonRpc fuel method params s).
Proof.
  revert method params s. induction fuel as [|fuel IH]; intros method params s.
  - apply extends_refl.
  - rewrite sendJsonRpc_S.
    apply (ascends_bind_step extends extends_trans (fun _ _ => True)).
    + apply (ascends_backoff Sleep sleep);
        [reflexivity|apply extends_refl|apply extends_trans|auto|].
      apply grows_attempt. intros txHash accountId s'. apply IH.
    + intros v s' _. destruct (String.eqb (typeof v) "undefined");
        [apply extends_refl|split; [apply extends_refl|exact I]].
Qed.

(** X3.  Whatever the proxy answers, a call of [sendJsonRpc] leaves the
    network, the account, the public key and NEAR_NO_LOGS of the provider
    as they were; the counter does not go back; the console gains
    warnings only, and none when NEAR_NO_LOGS is set. *)
Theorem sendJsonRpc_frame {M} (mk : mock exn req ans M) fuel method params s m :
  extends s (run_state (run mk (sendJsonRpc fuel method params s) m)).
Proof.
  eapply (run_ascends extends extends_trans), grows_sendJsonRpc.
Qed.

(** *** Single attempts *)

Section OneRequest.
Context {M : Type} (mk : mock exn req ans M).
Variables (fuel : nat) (method : string) (params : value) (s : state) (m m' : M).
Variable response : value.
Let request := ProxyRequest (mkRequest method params (_nextId s) "2.0").
Let sent := set_nextId (_nextId s + 1) s.
Hypothesis Hrespond : respond mk request m = (Resolved response, m').
Hypothesis Hshape : isArray response = false.

Lemma run_attempt_body_response :
  run mk (attempt_body (txStatusString fuel) method params s) m
  = traced request
      (run mk (bind_step (lift (get_prop response "error") sent)
                 (fun error => if truthy error then classify_error error
                               else ret response)) m').
Proof.
  unfold attempt_body, bind. cbn [gets modify bind_step await run].
  fold request. rewrite Hrespond. fold sent.
  destruct response; try discriminate; reflexivity.
Qed.

Lemma run_fatal e s' tr :
  run mk (attempt_body (txStatusString fuel) method params s) m
  = mkRun (Raised (Thrown e)) s' m' tr ->
  has_type e "TimeoutError" = false ->
  run mk (sendJsonRpc (S fuel) method params s) m = mkRun (Raised (Thrown e)) s' m' tr.
Proof.
  intros Hbody Htype.
  assert (Hatt : run mk (attempt (txStatusString fuel) method params s) m
                 = mkRun (Raised (Thrown e)) s' m' tr).
  { rewrite attempt_unfold, Hbody. unfold run_handle. cbn [run_outcome].
    unfold attempt_handler. rewrite Htype. cbn. rewrite app_nil_r. reflexivity. }
  rewrite sendJsonRpc_unfold. unfold REQUEST_RETRY_NUMBER.
  rewrite (backoff_raises mk _ _ _ _ _ _ (Thrown e)) by (rewrite Hatt; reflexivity).
  rewrite Hatt. reflexivity.
Qed.

Lemma run_final v s' tr :
  run mk (attempt_body (txStatusString fuel) method params s) m
  = mkRun (Returned v) s' m' tr ->
  truthy v = true ->
  run mk (sendJsonRpc (S fuel) method params s) m = mkRun (Returned v) s' m' tr.
Proof.
  intros Hbody Htruthy.
  assert (Hatt : run mk (attempt (txStatusString fuel) method params s) m
                 = mkRun (Returned v) s' m' tr).
  { rewrite attempt_unfold, Hbody. reflexivity. }
  rewrite sendJsonRpc_unfold. unfold REQUEST_RETRY_NUMBER.
  rewrite (backoff_returns mk _ _ _ _ _ _ v);
    [|rewrite Hatt; reflexivity|destruct v; try reflexivity; discriminate].
  rewrite Hatt. unfold run_then. cbn [run_outcome run_state run_mock run_trace].
  destruct (String.eqb_spec (typeof v) "undefined") as [Heq|_];
    [destruct v; discriminate|].
  cbn. rewrite app_nil_r. reflexivity.
Qed.

End OneRequest.

(** X4.  When the proxy answers the first request with a truthy value
    that is no array and has no truthy [error], [sendJsonRpc] returns
    that very value after this one request, whose [id] is the value of
    the counter and whose [jsonrpc] is '2.0'; the counter is advanced by
    one. *)
Theorem sendJsonRpc_success {M} (mk : mock exn req ans M) fuel method params s m
    response error m' :
  let request := ProxyRequest (mkRequest method params (_nextId s) "2.0") in
  respond mk request m = (Resolved response, m') ->
  isArray response = false ->
  get_prop response "error" = inr error ->
  truthy error = false ->
  truthy response = true ->
  run mk (sendJsonRpc (S fuel) method params s) m
  = mkRun (Returned response) (set_nextId (_nextId s + 1) s) m' [request].
Proof.
  intros request Hrespond Hshape Herror Hfalsy Htruthy.
  apply run_final; [|exact Htruthy].
  rewrite (run_attempt_body_response mk fuel method params s m m' response Hrespond Hshape).
  rewrite Herror. cbn [lift lift_sum ret bind_step]. rewrite Hfalsy. reflexivity.
Qed.

(** X5.  When the proxy answers with [null] or [undefined], the read of
    [response.error] throws a TypeError; it has no type, so the [catch]
    block throws it again, and [sendJsonRpc] raises it after this one
    request, without another attempt. *)
Theorem sendJsonRpc_null_response {M} (mk : mock exn req ans M) fuel method params s m
    response m' :
  let request := ProxyRequest (mkRequest method params (_nextId s) "2.0") in
  respond mk request m = (Resolved response, m') ->
  response = VNull \/ response = VUndefined ->
  run mk (sendJsonRpc (S fuel) method params s) m
  = mkRun (Raised (Thrown (TypeError ("Cannot read properties of " +:+ toString response
                                        +:+ " (reading 'error')"))))
      (set_nextId (_nextId s + 1) s) m' [request].
Proof.
  intros request Hrespond Hnull.
  apply run_fatal; [|reflexivity].
  rewrite (run_attempt_body_response mk fuel method params s m m' response Hrespond)
    by (destruct Hnull as [->| ->]; reflexivity).
  destruct Hnull as [->| ->]; reflexivity.
Qed.

(** X6.  An error whose [data] is no object: the attempt throws a
    TypedError whose message is '[code] message: data', and whose type is
    TimeoutError when [data] is 'Timeout' or the message contains
    'Timeout error' or 'query has timed out', and else the type that
    [getErrorTypeFromErrorMessage] gives to [data].  When the type is
    TimeoutError the attempt yields the retry-signal, having appended to
    the console, unless NEAR_NO_LOGS is set, the line
    [console.warn("Retrying request to <method> as it has timed out",
    params)]; otherwise [sendJsonRpc] raises the error after this one
    request.  (In the message a number is printed as a template literal
    prints it, in exponential form from 1e21.) *)
Theorem sendJsonRpc_string_error {M} (mk : mock exn req ans M) fuel method params s m
    response error code message data m' :
  let request := ProxyRequest (mkRequest method params (_nextId s) "2.0") in
  let sent := set_nextId (_nextId s + 1) s in
  let errorMessage :=
    "[" +:+ toString code +:+ "] " +:+ toString message +:+ ": " +:+ toString data in
  let type :=
    if match data with VStr d => String.eqb d "Timeout" | _ => false end
       || includes errorMessage "Timeout error"
       || includes errorMessage "query has timed out"
    then "TimeoutError"
    else getErrorTypeFromErrorMessage data in
  respond mk request m = (Resolved response, m') ->
  isArray response = false ->
  get_prop response "error" = inr error ->
  truthy error = true ->
  get_prop error "data" = inr data ->
  typeof data <> "object" ->
  get_prop error "code" = inr code ->
  get_prop error "message" = inr message ->
  run mk (attempt_body (txStatusString fuel) method params s) m
  = mkRun (Raised (Thrown (TypedError errorMessage type))) sent m' [request]
  /\ if String.eqb type "TimeoutError" then
       run mk (attempt (txStatusString fuel) method params s) m
       = mkRun (Returned VNull)
           (mkState (_nextId s + 1) (_network s) (_account s) (_pubKey s)
              (if NEAR_NO_LOGS s then console s
               else console s
                    ++ [ConsoleWarn
                          ("Retrying request to " +:+ method +:+ " as it has timed out")
                          [params]])
              (NEAR_NO_LOGS s))
           m' [request]
     else
       run mk (sendJsonRpc (S fuel) method params s) m
       = mkRun (Raised (Thrown (TypedError errorMessage type))) sent m' [request].
Proof.
  intros request sent errorMessage type Hrespond Hshape Herror Htruthy Hdata Hprim
    Hcode Hmessage.
  assert (Hbody : run mk (attempt_body (txStatusString fuel) method params s) m
            = mkRun (Raised (Thrown (TypedError errorMessage type))) sent m' [request]).
  { rewrite (run_attempt_body_response mk fuel method params s m m' response Hrespond Hshape).
    rewrite Herror. cbn [lift lift_sum ret bind_step]. rewrite Htruthy.
    unfold classify_error, bind. rewrite Hdata. cbn [lift lift_sum ret bind_step].
    destruct (String.eqb_spec (typeof data) "object") as [Heq|_]; [contradiction|].
    rewrite Hcode. cbn [lift lift_sum ret bind_step].
    rewrite Hmessage. cbn [lift lift_sum ret bind_step]. fold errorMessage.
    subst type.
    match goal with |- context [if ?c then _ else _] => destruct c end; reflexivity. }
  split; [exact Hbody|].
  destruct (String.eqb type "TimeoutError") eqn:Htype.
  - rewrite attempt_unfold, Hbody. unfold run_handle. cbn [run_outcome run_state run_mock].
    unfold attempt_handler, has_type. cbn [TypedError err_type]. rewrite Htype.
    unfold bind, gets, modify, ret. cbn [bind_step].
    unfold sent, set_nextId, console_warn. cbn [NEAR_NO_LOGS _nextId _network _account _pubKey console].
    destruct (NEAR_NO_LOGS s); cbn; reflexivity.
  - apply run_fatal; [exact Hbody|]. unfold has_type. cbn [TypedError err_type]. exact Htype.
Qed.


(** X7.  An error whose [data] has typeof 'object': when [data] is [null]
    the read of [data.error_message] throws a TypeError; when
    [error_message] and [error_type] are strings the error is the
    TypedError of the two; otherwise it is [parseRpcError(data)].  Unless
    its type is TimeoutError, [sendJsonRpc] raises this error after the
    one request. *)
Theorem sendJsonRpc_structured_error {M} (mk : mock exn req ans M) fuel method params s m
    response error data m' :
  let request := ProxyRequest (mkRequest method params (_nextId s) "2.0") in
  let sent := set_nextId (_nextId s + 1) s in
  let raised :=
    match get_prop data "error_message", get_prop data "error_type" with
    | inl e, _ | _, inl e => e
    | inr (VStr error_message), inr (VStr error_type) =>
        TypedError error_message error_type
    | inr _, inr _ => parseRpcError data
    end in
  respond mk request m = (Resolved response, m') ->
  isArray response = false ->
  get_prop response "error" = inr error ->
  truthy error = true ->
  get_prop error "data" = inr data ->
  typeof data = "object" ->
  has_type raised "TimeoutError" = false ->
  run mk (sendJsonRpc (S fuel) method params s) m
  = mkRun (Raised (Thrown raised)) sent m' [request].
Proof.
  intros request sent raised Hrespond Hshape Herror Htruthy Hdata Hobj Htype.
  apply run_fatal; [|exact Htype].
  rewrite (run_attempt_body_response mk fuel method params s m m' response Hrespond Hshape).
  rewrite Herror. cbn [lift lift_sum ret bind_step]. rewrite Htruthy.
  unfold classify_error, bind. rewrite Hdata. cbn [lift lift_sum ret bind_step].
  rewrite Hobj. cbn [String.eqb Ascii.eqb Bool.eqb]. subst raised.
  destruct (get_prop data "error_message") as [e|error_message];
    cbn [lift lift_sum throw ret bind_step]; [reflexivity|].
  destruct (get_prop data "error_type") as [e|error_type];
    cbn [lift lift_sum throw ret bind_step]; [destruct error_message; reflexivity|].
  destruct error_message, error_type; reflexivity.
Qed.

End Facts.

(** *** The properties on concrete runs *)

Section Witnesses.
#[local] Existing Instance plain_errors.

Lemma sendJsonRpc_exhausted_witness :
  let r := run timing_out (sendJsonRpc 1 "broadcast_tx_commit" (VArr [VStr "AAAA"]) wallet)
             0%nat in
  run_outcome r = Returned VNull
  /\ length (proxy_requests (run_trace r)) = 12%nat.
Proof.
  split.
  - apply (sendJsonRpc_exhausted_returns_null timing_out 0 "broadcast_tx_commit"
             (VArr [VStr "AAAA"])).
    intros s m. destruct s as [n net acc pk con []]; reflexivity.
  - vm_compute. reflexivity.
Defined.

Lemma sendJsonRpc_catch_witness :
  run timing_out (attempt (txStatusString 0) "status" (VArr []) wallet) 0%nat
  = mkRun (Returned VNull)
      (mkState 124 "" "alice.test" ""
         [ConsoleWarn "Retrying request to status as it has timed out" [VArr []]] false)
      1%nat
      [ProxyRequest (mkRequest "status" (VArr []) 123 "2.0")]
  /\ run timing_out (attempt (txStatusString 0) "status" (VArr [])
                       (mkState 123 "" "alice.test" "" [] true)) 0%nat
     = mkRun (Returned VNull) (mkState 124 "" "alice.test" "" [] true) 1%nat
         [ProxyRequest (mkRequest "status" (VArr []) 123 "2.0")]
  /\ run (answering legacy_answer) (sendJsonRpc 1 "status" (VArr []) wallet) 0%nat
     = mkRun (Raised (Thrown (mkError "account missing" (VStr "AccountDoesNotExist") None)))
         (set_nextId 124 wallet) 1%nat
         [ProxyRequest (mkRequest "status" (VArr []) 123 "2.0")].
Proof.
  split; [|split].
  - exact (proj1 (sendJsonRpc_catch timing_out 0 "status" (VArr []) wallet 0%nat
                    (TypedError "[-32000] Server error: Timeout" "TimeoutError")
                    eq_refl)).
  - exact (proj1 (sendJsonRpc_catch timing_out 0 "status" (VArr [])
                    (mkState 123 "" "alice.test" "" [] true) 0%nat
                    (TypedError "[-32000] Server error: Timeout" "TimeoutError")
                    eq_refl)).
  - exact (proj2 (sendJsonRpc_catch (answering legacy_answer) 0 "status" (VArr []) wallet
                    0%nat (TypedError "account missing" "AccountDoesNotExist") eq_refl)).
Defined.

Lemma sendJsonRpc_array_response_witness :
  run replaying (sendJsonRpc 2 "signAndSendTransaction" (VArr [VStr "AAAA"]) wallet)
    [VArr [VStr "9xQ"]; status_answer]
  = mkRun (Returned status_answer) (set_nextId 125 wallet) []
      [ProxyRequest (mkRequest "signAndSendTransaction" (VArr [VStr "AAAA"]) 123 "2.0");
       ProxyRequest (mkRequest "tx" (VArr [VStr "9xQ"; VStr "alice.test"]) 124 "2.0")].
Proof.
  exact (proj2 (proj2 (sendJsonRpc_array_response replaying 1 "signAndSendTransaction"
                         (VArr [VStr "AAAA"]) wallet [VArr [VStr "9xQ"]; status_answer]
                         [VStr "9xQ"] [status_answer] eq_refl))
           status_answer eq_refl eq_refl).
Defined.

Ltac settle :=
  lazymatch goal with
  | |- pool_steps ?env ?sp (mkPool ?S ?T) ?r =>
      let S' := eval vm_compute in S in
      change (pool_steps env sp (mkPool S' T) r)
  end.




Lemma sendJsonRpc_success_witness :
  run (answering status_answer) (sendJsonRpc 1 "status" (VArr []) wallet) 0%nat
  = mkRun (Returned status_answer) (set_nextId 124 wallet) 1%nat
      [ProxyRequest (mkRequest "status" (VArr []) 123 "2.0")].
Proof.
  exact (sendJsonRpc_success (answering status_answer) 0 "status" (VArr []) wallet 0%nat
           status_answer VUndefined 1%nat eq_refl eq_refl eq_refl eq_refl eq_refl).
Defined.

Lemma sendJsonRpc_null_response_witness :
  run (answering VNull) (sendJsonRpc 1 "status" (VArr []) wallet) 0%nat
  = mkRun (Raised (Thrown (TypeError "Cannot read properties of null (reading 'error')")))
      (set_nextId 124 wallet) 1%nat
      [ProxyRequest (mkRequest "status" (VArr []) 123 "2.0")].
Proof.
  exact (sendJsonRpc_null_response (answering VNull) 0 "status" (VArr []) wallet 0%nat
           VNull 1%nat eq_refl (or_introl eq_refl)).
Defined.

Lemma sendJsonRpc_string_error_witness :
  run (answering unknown_account_answer) (sendJsonRpc 1 "query" (VArr []) wallet) 0%nat
  = mkRun (Raised (Thrown (mkError "[-32000] Server error: account bob.test does not exist"
                             (VStr "UntypedError") None)))
      (set_nextId 124 wallet) 1%nat
      [ProxyRequest (mkRequest "query" (VArr []) 123 "2.0")]
  /\ run (answering huge_code_answer) (sendJsonRpc 1 "query" (VArr []) wallet) 0%nat
     = mkRun (Raised (Thrown (mkError "[1e+21] Server error: Timeout."
                                (VStr "UntypedError") None)))
         (set_nextId 124 wallet) 1%nat
         [ProxyRequest (mkRequest "query" (VArr []) 123 "2.0")]
  /\ run timing_out (attempt (txStatusString 0) "query" (VArr []) wallet) 0%nat
     = mkRun (Returned VNull)
         (mkState 124 "" "alice.test" ""
            [ConsoleWarn "Retrying request to query as it has timed out" [VArr []]] false)
         1%nat
         [ProxyRequest (mkRequest "query" (VArr []) 123 "2.0")].
Proof.
  split; [|split].
  - exact (proj2 (sendJsonRpc_string_error (answering unknown_account_answer) 0 "query"
                    (VArr []) wallet 0%nat unknown_account_answer _ (VNum (-32000))
                    (VStr "Server error") (VStr "account bob.test does not exist") 1%nat
                    eq_refl eq_refl eq_refl eq_refl eq_refl ltac:(discriminate)
                    eq_refl eq_refl)).
  - pose proof (sendJsonRpc_string_error (answering huge_code_answer) 0 "query"
                  (VArr []) wallet 0%nat huge_code_answer _
                  (VNum 1000000000000000000000)
                  (VStr "Server error") (VStr "Timeout.") 1%nat
                  eq_refl eq_refl eq_refl eq_refl eq_refl) as Hhuge.
    specialize (Hhuge ltac:(discriminate) eq_refl eq_refl).
    apply proj2 in Hhuge. vm_compute in Hhuge. vm_compute. exact Hhuge.
  - exact (proj2 (sendJsonRpc_string_error timing_out 0 "query"
                    (VArr []) wallet 0%nat timeout_answer _ (VNum (-32000))
                    (VStr "Server error") (VStr "Timeout") 1%nat
                    eq_refl eq_refl eq_refl eq_refl eq_refl ltac:(discriminate)
                    eq_refl eq_refl)).
Defined.

Lemma sendJsonRpc_structured_error_witness :
  run (answering legacy_answer) (sendJsonRpc 1 "status" (VArr []) wallet) 0%nat
  = mkRun (Raised (Thrown (TypedError "account missing" "AccountDoesNotExist")))
      (set_nextId 124 wallet) 1%nat
      [ProxyRequest (mkRequest "status" (VArr []) 123 "2.0")].
Proof.
  exact (sendJsonRpc_structured_error (answering legacy_answer) 0 "status" (VArr []) wallet
           0%nat legacy_answer _ _ 1%nat eq_refl eq_refl eq_refl eq_refl eq_refl eq_refl
           eq_refl).
Defined.
End Witnesses.

End ProviderFacts.


(** ** The submission engine *)

Module AccountFacts.
Import Account.
Section Facts.
Context `{RpcErrors} `{AccountDeps}.
Variable this : account.

(** *** The flattened report *)

Lemma flatLogs_step_spec acc it :
  status (outcome it) <> VNull ->
  status (outcome it) <> VUndefined ->
  flatLogs_step (inr acc) it
  = inr (if carries_report it then acc ++ [report_of it] else acc).
Proof.
  intros Hnull Hundef. unfold flatLogs_step, carries_report, report_of, field.
  destruct (status (outcome it)) as [| |b|z|str|items|fields] eqn:Hstatus;
    try contradiction; cbn [get_prop typeof];
    destruct (length (logs (outcome it)) =? 0)%nat; cbn; try reflexivity.
  - destruct (assoc "Failure" fields); reflexivity.
  - destruct (assoc "Failure" fields); reflexivity.
Qed.

Lemma flatLogs_fold acc its :
  Forall (fun it => status (outcome it) <> VNull
                    /\ status (outcome it) <> VUndefined) its ->
  fold_left flatLogs_step its (inr acc)
  = inr (acc ++ map report_of (List.filter carries_report its)).
Proof.
  intros Hits. revert acc.
  induction Hits as [|it its [Hnull Hundef] _ IH]; intros acc.
  - simpl. rewrite app_nil_r. reflexivity.
  - cbn [fold_left List.filter]. rewrite flatLogs_step_spec by assumption.
    destruct (carries_report it); rewrite IH; cbn [map].
    + rewrite <- app_assoc. reflexivity.
    + reflexivity.
Qed.

(** C9.  For a result whose outcomes have a status (a string or an object,
    as the node gives it), the report built by the [reduce] consists of
    the entries of the outcomes that have logs or an object-valued
    [Failure] in an object status, in the order transaction outcome first,
    then the receipt outcomes; each entry carries the receipt ids, the
    logs and the parsed failure, or none without a [Failure] field. *)
Theorem flatLogs_report (result : FinalExecutionOutcome) :
  Forall (fun it => status (outcome it) <> VNull
                    /\ status (outcome it) <> VUndefined)
         (transaction_outcome result :: receipts_outcome result) ->
  flatLogs result = inr (flatLogs_spec result).
Proof.
  intros Hits. unfold flatLogs, flatLogs_spec.
  rewrite flatLogs_fold by assumption. reflexivity.
Qed.

(** *** Runs of the engine *)

Lemma logWarning_step text s : logWarning text s = Done tt (warned text s).
Proof.
  unfold logWarning, warned, bind, gets. cbn [bind_step].
  destruct (NEAR_NO_LOGS s); reflexivity.
Qed.

Section Submit.
Context {M : Type} (mk : mock js_error req ans M).
Variables (receiverId : string) (txHash : bytes) (signedTx : Tx.SignedTransaction).
Variables (s : state) (m m' : M).

Lemma run_submit_resolved r :
  respond mk (SendTransaction signedTx) m = (Resolved r, m') ->
  run mk (submit receiverId txHash signedTx s) m
  = mkRun (Returned r) s m' [SendTransaction signedTx].
Proof.
  intros Hsend. unfold submit, try_catch, await. cbn [catch_step run].
  rewrite Hsend. reflexivity.
Qed.

Lemma run_submit_rejected e :
  respond mk (SendTransaction signedTx) m = (Rejected e, m') ->
  run mk (submit receiverId txHash signedTx s) m
  = if has_type e "InvalidNonce" then
      mkRun (Returned None)
        (cache_delete (Tx.publicKey (Tx.transaction signedTx))
           (warned (invalid_nonce_warning receiverId txHash) s))
        m' [SendTransaction signedTx]
    else if has_type e "Expired" then
      mkRun (Returned None) (warned (expired_warning receiverId txHash) s)
        m' [SendTransaction signedTx]
    else
      mkRun (Raised (with_context e (baseEncode txHash))) s m'
        [SendTransaction signedTx].
Proof.
  intros Hsend. unfold submit, try_catch, await. cbn [catch_step run].
  rewrite Hsend. cbn [catch_step].
  destruct (has_type e "InvalidNonce").
  - unfold bind. rewrite logWarning_step. reflexivity.
  - destruct (has_type e "Expired").
    + unfold bind. rewrite logWarning_step. reflexivity.
    + reflexivity.
Qed.
End Submit.

Section Scripted.
Variables (w : node) (publicKey : string) (accessKey : AccessKeyView).
Hypothesis Hkey : node_publicKey w = Some publicKey.
Hypothesis Hstate : node_accessKey w = Resolved accessKey.
Variables (receiverId : string) (actions : list value).

Let get_key := GetPublicKey (accountId this) (networkId this).
Let view_key := Query "view_access_key" (accountId this) publicKey "optimistic".
Let sign_req n := SignTransaction receiverId n actions
                    (baseDecode (hash (header (node_block w))))
                    (accountId this) (networkId this).
Let signed n := node_sign w publicKey receiverId n actions
                  (baseDecode (hash (header (node_block w)))) (accountId this).

Lemma run_findAccessKey_miss s m :
  accessKeyByPublicKeyCache s !! publicKey = None ->
  run (scripted w) (findAccessKey this receiverId actions s) m
  = mkRun (Returned (Some (publicKey, length (heap s))))
      (snd (cache_store publicKey accessKey s)) m [get_key; view_key].
Proof.
  intros Hmiss. unfold findAccessKey, bind, try_catch, await, gets.
  cbn [bind_step catch_step run respond scripted]. rewrite Hkey.
  cbn [bind_step catch_step run traced]. rewrite Hmiss.
  cbn [bind_step catch_step run respond scripted traced]. rewrite Hstate.
  cbn [bind_step catch_step run traced]. rewrite Hmiss. reflexivity.
Qed.

Lemma run_findAccessKey_hit s m entry :
  accessKeyByPublicKeyCache s !! publicKey = Some entry ->
  run (scripted w) (findAccessKey this receiverId actions s) m
  = mkRun (Returned (Some (publicKey, entry))) s m [get_key].
Proof.
  intros Hhit. unfold findAccessKey, bind, try_catch, await, gets.
  cbn [bind_step catch_step run respond scripted]. rewrite Hkey.
  cbn [bind_step catch_step run traced]. rewrite Hhit. reflexivity.
Qed.

Lemma run_sign_found s m entry current found trace :
  run (scripted w) (findAccessKey this receiverId actions s) m
  = mkRun (Returned (Some (publicKey, entry))) found m trace ->
  heap found !! entry = Some current ->
  run (scripted w) (signTransaction this receiverId actions s) m
  = mkRun (Returned (signed (increment (nonce current)))) (bump entry current found) m
      (trace ++ [Block "final"; sign_req (increment (nonce current))]).
Proof.
  intros Hfind Hentry. unfold signTransaction.
  rewrite run_bind, Hfind. unfold run_then. cbn [run_outcome run_state run_mock run_trace].
  unfold bind, await, pre_increment_nonce.
  cbn [bind_step run respond scripted traced]. rewrite Hentry.
  cbn [bind_step run respond scripted traced run_outcome run_state run_mock run_trace].
  rewrite Hkey. reflexivity.
Qed.


Lemma run_attempt_signed s m signedTx found trace :
  run (scripted w) (signTransaction this receiverId actions s) m
  = mkRun (Returned signedTx) found m trace ->
  run (scripted w) (attempt this receiverId actions s) m
  = prefixed trace
      (run_then (run (scripted w) (submit receiverId (fst signedTx) (snd signedTx) found) m)
         (fun result s' m' =>
            mkRun (Returned (option_map (fun r => (r, snd signedTx)) result)) s' m' [])).
Proof.
  intros Hsign. unfold attempt. rewrite run_bind, Hsign.
  unfold run_then at 1. cbn [run_outcome run_state run_mock run_trace].
  rewrite run_bind. reflexivity.
Qed.

End Scripted.

Lemma heap_after_store publicKey accessKey s :
  heap (snd (cache_store publicKey accessKey s)) !! length (heap s) = Some accessKey.
Proof. cbn. apply list_lookup_middle. reflexivity. Qed.

Lemma cache_after_store publicKey accessKey s :
  accessKeyByPublicKeyCache (snd (cache_store publicKey accessKey s))
  = <[publicKey := length (heap s)]> (accessKeyByPublicKeyCache s).
Proof. reflexivity. Qed.

Lemma history_warned text s : history (warned text s) = history s.
Proof. unfold warned. destruct (NEAR_NO_LOGS s); reflexivity. Qed.

Lemma cache_warned text s :
  accessKeyByPublicKeyCache (warned text s) = accessKeyByPublicKeyCache s.
Proof. unfold warned. destruct (NEAR_NO_LOGS s); reflexivity. Qed.

Lemma heap_warned text s : heap (warned text s) = heap s.
Proof. unfold warned. destruct (NEAR_NO_LOGS s); reflexivity. Qed.

Lemma printLogs_frame contractId logs prefix s :
  let s' := printLogs contractId logs prefix s in
  accessKeyByPublicKeyCache s' = accessKeyByPublicKeyCache s
  /\ heap s' = heap s /\ history s' = history s /\ NEAR_NO_LOGS s' = NEAR_NO_LOGS s.
Proof.
  unfold printLogs. destruct (NEAR_NO_LOGS s) eqn:Hflag; [auto|].
  revert s Hflag. induction logs as [|log logs IH]; intros s Hflag; simpl; [auto|].
  destruct (IH (write (ConsoleLog (prefix +:+ "Log [" +:+ contractId +:+ "]: " +:+ log)) s) Hflag)
    as (-> & -> & -> & ->). auto.
Qed.

Lemma printLogsAndFailures_frame contractId results s :
  let s' := printLogsAndFailures contractId results s in
  accessKeyByPublicKeyCache s' = accessKeyByPublicKeyCache s
  /\ heap s' = heap s /\ history s' = history s /\ NEAR_NO_LOGS s' = NEAR_NO_LOGS s.
Proof.
  unfold printLogsAndFailures. destruct (NEAR_NO_LOGS s) eqn:Hflag; [auto|].
  revert s Hflag. induction results as [|result results IH]; intros s Hflag; [simpl; auto|].
  cbn [fold_left].
  match goal with
  | |- context [fold_left ?f results ?s1] =>
      assert (Hs1 : accessKeyByPublicKeyCache s1 = accessKeyByPublicKeyCache s
                    /\ heap s1 = heap s /\ history s1 = history s
                    /\ NEAR_NO_LOGS s1 = NEAR_NO_LOGS s);
      [|destruct Hs1 as (Hc & Hh & Hi & Hf);
        destruct (IH s1 ltac:(congruence)) as (-> & -> & -> & ->); auto]
  end.
  match goal with
  | |- context [printLogs ?c ?l ?p ?s0] =>
      destruct (printLogs_frame c l p s0) as (Hc & Hh & Hi & Hf)
  end.
  destruct (failure result); cbn; rewrite ?Hc, ?Hh, ?Hi, ?Hf; auto.
Qed.


Section Scenario.
Variables (w : node) (publicKey : string) (accessKey : AccessKeyView).
Hypothesis Hkey : node_publicKey w = Some publicKey.
Hypothesis Hstate : node_accessKey w = Resolved accessKey.
Variables (receiverId : string) (actions : list value).

Let get_key := GetPublicKey (accountId this) (networkId this).
Let view_key := Query "view_access_key" (accountId this) publicKey "optimistic".
Let sign_req n := SignTransaction receiverId n actions
                    (baseDecode (hash (header (node_block w))))
                    (accountId this) (networkId this).
Let signed n := node_sign w publicKey receiverId n actions
                  (baseDecode (hash (header (node_block w)))) (accountId this).

(** One attempt whose key resolution misses the cache. *)
Lemma run_attempt_miss s answer script :
  accessKeyByPublicKeyCache s !! publicKey = None ->
  let entry := length (heap s) in
  let n := increment (nonce accessKey) in
  let found := bump entry accessKey (snd (cache_store publicKey accessKey s)) in
  run (scripted w) (attempt this receiverId actions s) (answer :: script)
  = prefixed [get_key; view_key; Block "final"; sign_req n]
      (run_then (run (scripted w) (submit receiverId (fst (signed n)) (snd (signed n)) found)
                   (answer :: script))
         (fun result s' m' =>
            mkRun (Returned (option_map (fun r => (r, snd (signed n))) result)) s' m' [])).
Proof.
  intros Hmiss entry n found.
  rewrite (run_attempt_signed w receiverId actions s (answer :: script) (signed n) found
             [get_key; view_key; Block "final"; sign_req n]); [reflexivity|].
  apply (run_sign_found w publicKey Hkey receiverId actions s (answer :: script) entry
           accessKey (snd (cache_store publicKey accessKey s)) [get_key; view_key]).
  - apply run_findAccessKey_miss; assumption.
  - apply heap_after_store.
Qed.

(** One attempt whose key resolution hits the cache. *)
Lemma run_attempt_hit s answer script entry current :
  accessKeyByPublicKeyCache s !! publicKey = Some entry ->
  heap s !! entry = Some current ->
  let n := increment (nonce current) in
  run (scripted w) (attempt this receiverId actions s) (answer :: script)
  = prefixed [get_key; Block "final"; sign_req n]
      (run_then (run (scripted w) (submit receiverId (fst (signed n)) (snd (signed n))
                                     (bump entry current s))
                   (answer :: script))
         (fun result s' m' =>
            mkRun (Returned (option_map (fun r => (r, snd (signed n))) result)) s' m' [])).
Proof.
  intros Hhit Hentry n.
  rewrite (run_attempt_signed w receiverId actions s (answer :: script) (signed n)
             (bump entry current s) [get_key; Block "final"; sign_req n]); [reflexivity|].
  apply (run_sign_found w publicKey Hkey receiverId actions s (answer :: script) entry
           current s [get_key]).
  - apply run_findAccessKey_hit; assumption.
  - assumption.
Qed.


Lemma run_signAndSend {M} (mk : mock js_error req ans M) s m :
  run mk (signAndSendTransactionV2 this receiverId actions s) m
  = run_then (run mk (exponentialBackoff sleep TX_NONCE_RETRY_WAIT TX_NONCE_RETRY_NUMBER
                        TX_NONCE_RETRY_WAIT_BACKOFF (attempt this receiverId actions) s) m)
      (fun result s' m' => run mk (after_backoff result s') m').
Proof. unfold signAndSendTransactionV2. apply run_bind. Qed.

Lemma run_after_backoff_ok {M} (mk : mock js_error req ans M) result signedTx flat s m :
  flatLogs result = inr flat ->
  check_status result = inr result ->
  run mk (after_backoff (Some (result, signedTx)) s) m
  = mkRun (Returned result)
      (printLogsAndFailures (Tx.receiverId (Tx.transaction signedTx)) flat s) m [].
Proof.
  intros Hflat Hstatus. unfold after_backoff, bind. rewrite Hflat.
  cbn [lift lift_sum ret bind_step modify]. rewrite Hstatus. reflexivity.
Qed.

Lemma invalid_nonce_once_then_accepted e result flat s0 :
  has_type e "InvalidNonce" = true ->
  accessKeyByPublicKeyCache s0 !! publicKey = None ->
  flatLogs result = inr flat ->
  check_status result = inr result ->
  let n := increment (nonce accessKey) in
  let r := run (scripted w) (signAndSendTransactionV2 this receiverId actions s0)
             [Rejected e; Resolved (Some result)] in
  run_outcome r = Returned result
  /\ run_mock r = []
  /\ invalidations (history (run_state r)) = S (invalidations (history s0))
  /\ run_trace r
     = [get_key; view_key; Block "final"; sign_req n; SendTransaction (snd (signed n));
        Sleep TX_NONCE_RETRY_WAIT;
        get_key; view_key; Block "final"; sign_req n; SendTransaction (snd (signed n))].
Proof.
  intros Hinvalid Hmiss Hflat Hstatus n r. subst r.
  rewrite run_signAndSend. unfold TX_NONCE_RETRY_NUMBER.
  rewrite (run_backoff_S Sleep sleep) by reflexivity.
  rewrite run_attempt_miss by assumption.
  rewrite (run_submit_rejected (scripted w) receiverId _ _ _ _ [Resolved (Some result)] e)
    by reflexivity.
  rewrite Hinvalid.
  cbn [run_then prefixed run_outcome run_state run_mock run_trace option_map
       is_retry_signal option_retry_signal respond scripted snd traced].
  rewrite (run_backoff_S Sleep sleep) by reflexivity.
  rewrite run_attempt_miss.
  2:{ cbn. rewrite cache_warned. cbn. apply lookup_delete_eq. }
  rewrite (run_submit_resolved (scripted w) receiverId _ _ _ _ [] (Some result))
    by reflexivity.
  cbn [run_then prefixed run_outcome run_state run_mock run_trace option_map
       is_retry_signal option_retry_signal respond scripted snd traced].
  rewrite (run_after_backoff_ok _ _ _ flat) by assumption.
  cbn [run_outcome run_state run_mock run_trace].
  repeat split.
  - match goal with
    | |- context [printLogsAndFailures ?c ?f ?s] =>
        destruct (printLogsAndFailures_frame c f s) as (_ & _ & Hhist & _)
    end.
    cbv zeta in Hhist. rewrite Hhist. cbn [history bump cache_store snd cache_delete].
    rewrite history_warned. reflexivity.
Qed.




End Scenario.

Section NotFound.
Context {M : Type} (mk : mock js_error req ans M).
Variables (receiverId : string) (actions : list value).
Let get_key := GetPublicKey (accountId this) (networkId this).

Lemma run_signAndSend_raised s m e s' m' trace :
  run mk (signTransaction this receiverId actions s) m = mkRun (Raised e) s' m' trace ->
  run mk (signAndSendTransactionV2 this receiverId actions s) m
  = mkRun (Raised e) s' m' trace.
Proof.
  intros Hsign. rewrite run_signAndSend. unfold TX_NONCE_RETRY_NUMBER.
  rewrite (run_backoff_S Sleep sleep) by reflexivity.
  unfold attempt at 1. rewrite run_bind, Hsign. reflexivity.
Qed.

(** C6.  When the signer has no public key, and when the access-key query
    fails with type AccessKeyDoesNotExist, [signTransaction] raises the
    TypedError of type 'KeyNotFound' that names the account, the network
    and the signer, and so does the submission, at once: the requests made
    are those of the one key resolution.  Any other failure of the query
    is raised as it is. *)
Theorem key_not_found_is_fatal s m :
  let not_found :=
    mkError ("Can not sign transactions for account " +:+ accountId this
               +:+ " on network " +:+ networkId this
               +:+ ", no matching key pair found in " +:+ signer this +:+ ".")
      (VStr "KeyNotFound") None in
  (forall m1,
      respond mk get_key m = (Resolved None, m1) ->
      run mk (signTransaction this receiverId actions s) m
      = mkRun (Raised not_found) s m1 [get_key]
      /\ run mk (signAndSendTransactionV2 this receiverId actions s) m
         = mkRun (Raised not_found) s m1 [get_key])
  /\ (forall publicKey m1 e m2,
        let view_key := Query "view_access_key" (accountId this) publicKey "optimistic" in
        respond mk get_key m = (Resolved (Some publicKey), m1) ->
        accessKeyByPublicKeyCache s !! publicKey = None ->
        respond mk view_key m1 = (Rejected e, m2) ->
        let raised := if has_type e "AccessKeyDoesNotExist" then not_found else e in
        run mk (signTransaction this receiverId actions s) m
        = mkRun (Raised raised) s m2 [get_key; view_key]
        /\ run mk (signAndSendTransactionV2 this receiverId actions s) m
           = mkRun (Raised raised) s m2 [get_key; view_key]).
Proof.
  intros not_found.
  change not_found with (KeyNotFound this). clear not_found.
  split.
  - intros m1 Hkey.
    assert (Hsign : run mk (signTransaction this receiverId actions s) m
                    = mkRun (Raised (KeyNotFound this)) s m1 [get_key]).
    { unfold signTransaction, findAccessKey, bind, await.
      cbn [bind_step run]. fold get_key. rewrite Hkey. reflexivity. }
    split; [exact Hsign|]. apply run_signAndSend_raised, Hsign.
  - intros publicKey m1 e m2 view_key Hkey Hmiss Hview raised.
    assert (Hsign : run mk (signTransaction this receiverId actions s) m
                    = mkRun (Raised raised) s m2 [get_key; view_key]).
    { unfold signTransaction, findAccessKey, bind, await, try_catch, gets.
      cbn [bind_step catch_step run]. fold get_key. rewrite Hkey.
      cbn [bind_step catch_step run traced]. rewrite Hmiss.
      cbn [bind_step catch_step run traced]. fold view_key. rewrite Hview.
      subst raised. cbn [bind_step catch_step run traced].
      destruct (has_type e "AccessKeyDoesNotExist"); reflexivity. }
    split; [exact Hsign|]. apply run_signAndSend_raised, Hsign.
Qed.

End NotFound.
(** *** Invariants under interleaving *)

Lemma nonce_inv_frame s s' :
  heap s' = heap s -> history s' = history s -> nonce_inv s -> nonce_inv s'.
Proof. intros Hheap Hhist Hinv entry. rewrite Hheap, Hhist. apply Hinv. Qed.

Lemma nonce_inv_write line s : nonce_inv s -> nonce_inv (write line s).
Proof. apply nonce_inv_frame; reflexivity. Qed.

Lemma nonce_inv_store publicKey accessKey s :
  nonce_inv s -> nonce_inv (snd (cache_store publicKey accessKey s)).
Proof.
  intros Hinv entry. destruct (Hinv entry) as [Hsorted Hbound].
  split; [exact Hsorted|]. intros n Hn.
  destruct (Hbound n Hn) as (current & Hentry & Hle).
  exists current. split; [|exact Hle]. cbn. apply lookup_app_l_Some, Hentry.
Qed.

Lemma nonce_inv_delete publicKey s :
  nonce_inv s -> nonce_inv (cache_delete publicKey s).
Proof. intros Hinv entry. apply Hinv. Qed.

Lemma issued_from_issued entry other n h :
  issued_from other (Issued entry n :: h)
  = if Nat.eqb entry other then n :: issued_from other h else issued_from other h.
Proof. unfold issued_from. cbn. destruct (Nat.eqb entry other); reflexivity. Qed.

Lemma nonce_inv_bump entry accessKey s :
  heap s !! entry = Some accessKey ->
  nonce_inv s -> nonce_inv (bump entry accessKey s).
Proof.
  intros Hentry Hinv other. destruct (Hinv other) as [Hsorted Hbound].
  unfold bump. cbn [history heap]. rewrite issued_from_issued.
  destruct (Nat.eqb_spec entry other) as [<-|Hne].
  - split.
    + constructor; [exact Hsorted|].
      apply List.Forall_forall. intros m Hm.
      destruct (Hbound m) as (current & Hcurrent & Hle).
      { apply Hm. }
      rewrite Hentry in Hcurrent. injection Hcurrent as <-.
      unfold follows. destruct (increment_cases (nonce accessKey)) as [[? ->]|[?|?]]; lia.
    + intros n [<-|Hn].
      * eexists. split; [apply list_lookup_insert_eq; eapply lookup_lt_Some, Hentry|].
        cbn. lia.
      * destruct (Hbound n Hn) as (current & Hcurrent & Hle).
        rewrite Hentry in Hcurrent. injection Hcurrent as <-.
        eexists. split; [apply list_lookup_insert_eq; eapply lookup_lt_Some, Hentry|].
        cbn. destruct (increment_cases (nonce accessKey)) as [[? ->]|[?|?]]; lia.
  - split; [exact Hsorted|]. intros n Hn.
    destruct (Hbound n Hn) as (current & Hcurrent & Hle).
    exists current. split; [|exact Hle].
    rewrite list_lookup_insert_ne by assumption. exact Hcurrent.
Qed.


Lemma nonce_inv_printLogs contractId logs prefix s :
  nonce_inv s -> nonce_inv (printLogs contractId logs prefix s).
Proof.
  unfold printLogs. destruct (NEAR_NO_LOGS s); [auto|].
  revert s. induction logs as [|log logs IH]; intros s Hs; simpl; [exact Hs|].
  apply IH, nonce_inv_write, Hs.
Qed.

Lemma nonce_inv_printLogsAndFailures contractId results s :
  nonce_inv s -> nonce_inv (printLogsAndFailures contractId results s).
Proof.
  unfold printLogsAndFailures. destruct (NEAR_NO_LOGS s); [auto|].
  revert s. induction results as [|result results IH]; intros s Hs; [exact Hs|].
  cbn [fold_left]. apply IH.
  destruct (failure result); repeat apply nonce_inv_write;
    apply nonce_inv_printLogs, nonce_inv_write, Hs.
Qed.

Lemma keeps_logWarning text : keeps nonce_inv (logWarning text).
Proof.
  unfold logWarning. apply keeps_bind; [apply keeps_gets|].
  intros [|]; [apply keeps_ret|]. apply keeps_modify. intros s. apply nonce_inv_write.
Qed.

Lemma keeps_pre_increment_nonce entry : keeps nonce_inv (pre_increment_nonce entry).
Proof.
  intros s Hs. unfold pre_increment_nonce.
  destruct (heap s !! entry) as [accessKey|] eqn:Hentry; simpl.
  - apply nonce_inv_bump; assumption.
  - exact Hs.
Qed.

Lemma keeps_findAccessKey receiverId actions :
  keeps nonce_inv (findAccessKey this receiverId actions).
Proof.
  unfold findAccessKey. apply keeps_bind; [apply (keeps_await (Ans:=ans))|].
  intros [publicKey|]; [|apply keeps_ret].
  apply keeps_bind; [apply keeps_gets|].
  intros [entry|]; [apply keeps_ret|].
  apply keeps_try_catch.
  - apply keeps_bind; [apply (keeps_await (Ans:=ans))|]. intros accessKey.
    apply keeps_bind; [apply keeps_gets|].
    intros [entry|]; [apply keeps_ret|].
    intros s Hs. apply (nonce_inv_store publicKey accessKey s Hs).
  - intros e. destruct (has_type e "AccessKeyDoesNotExist");
      [apply keeps_ret|apply keeps_throw].
Qed.

Lemma keeps_signTransaction receiverId actions :
  keeps nonce_inv (signTransaction this receiverId actions).
Proof.
  unfold signTransaction. apply keeps_bind; [apply keeps_findAccessKey|].
  intros [[publicKey entry]|]; [|apply keeps_throw].
  apply keeps_bind; [apply (keeps_await (Ans:=ans))|]. intros block.
  apply keeps_bind; [apply keeps_pre_increment_nonce|]. intros n.
  apply (keeps_await (Ans:=ans)).
Qed.

Lemma keeps_submit receiverId txHash signedTx :
  keeps nonce_inv (submit receiverId txHash signedTx).
Proof.
  unfold submit. apply keeps_try_catch; [apply (keeps_await (Ans:=ans))|].
  intros e. destruct (has_type e "InvalidNonce").
  - apply keeps_bind; [apply keeps_logWarning|]. intros _.
    apply keeps_bind; [|intros _; apply keeps_ret].
    apply keeps_modify. intros s. apply nonce_inv_delete.
  - destruct (has_type e "Expired"); [|apply keeps_throw].
    apply keeps_bind; [apply keeps_logWarning|]. intros _. apply keeps_ret.
Qed.

Lemma keeps_attempt receiverId actions :
  keeps nonce_inv (attempt this receiverId actions).
Proof.
  unfold attempt. apply keeps_bind; [apply keeps_signTransaction|]. intros signed.
  apply keeps_bind; [apply keeps_submit|]. intros result. apply keeps_ret.
Qed.

Lemma keeps_signAndSendTransactionV2 receiverId actions :
  keeps nonce_inv (signAndSendTransactionV2 this receiverId actions).
Proof.
  unfold signAndSendTransactionV2. apply keeps_bind.
  - apply (keeps_backoff Sleep sleep); [reflexivity|apply keeps_attempt].
  - intros [[result signedTx]|]; [|apply keeps_throw].
    apply keeps_bind; [apply keeps_lift_sum|]. intros flat.
    apply keeps_bind; [|intros _; apply keeps_lift_sum].
    apply keeps_modify. intros s. apply nonce_inv_printLogsAndFailures.
Qed.

Lemma strictly_descending_NoDup (l : list Z) : StronglySorted Z.gt l -> NoDup l.
Proof.
  induction 1 as [|n l _ IH Hall]; constructor; [|exact IH].
  intros Hin. rewrite List.Forall_forall in Hall.
  apply list_elem_of_In in Hin. specialize (Hall n Hin). lia.
Qed.

(** Within the range in which [++] is exact, nonces that follow one
    another are strictly descending, latest first. *)
Lemma follows_exact (l : list Z) :
  (forall n, In n l -> - 2 ^ 53 < n < 2 ^ 53) ->
  StronglySorted follows l -> StronglySorted Z.gt l.
Proof.
  intros Hsafe Hsorted. induction Hsorted as [|n l _ IH Hall]; constructor.
  - apply IH. intros m Hm. apply Hsafe. right. exact Hm.
  - rewrite List.Forall_forall in Hall. apply List.Forall_forall. intros m Hm.
    pose proof (Hsafe n (or_introl eq_refl)) as Hn.
    pose proof (Hsafe m (or_intror Hm)) as Hm'.
    destruct (Hall m Hm) as [Hlt|[Hbig|Hlow]]; lia.
Qed.

(** *** Every nonce issued is signed *)

(** Between two suspension points a submission issues a nonce exactly when
    it requests a signature next, and the request carries that nonce. *)
Local Abbreviation accounted :=
  (accounts_for (Err:=js_error) (Ans:=ans)
     (fun s : state => issued (history s)) signed_nonce).

Lemma accounted_await (r : req) s : signed_nonce r = None -> accounted s (await r s).
Proof.
  intros Hr. cbn [await accounts_for]. rewrite Hr. split; [reflexivity|].
  intros [x|e] s'; reflexivity.
Qed.

Lemma accounted_logWarning text s : accounted s (logWarning text s).
Proof.
  unfold logWarning, bind, gets, modify, ret. cbn [bind_step].
  destruct (NEAR_NO_LOGS s); reflexivity.
Qed.

Lemma accounted_findAccessKey receiverId actions s :
  accounted s (findAccessKey this receiverId actions s).
Proof.
  unfold findAccessKey, bind.
  apply accounts_for_bind_step; [apply accounted_await; reflexivity|].
  intros [publicKey|] s1; [|reflexivity].
  cbn [gets bind_step]. destruct (accessKeyByPublicKeyCache s1 !! publicKey); [reflexivity|].
  unfold try_catch. apply accounts_for_catch_step.
  - apply accounts_for_bind_step; [apply accounted_await; reflexivity|].
    intros accessKey s2. cbn [gets bind_step].
    destruct (accessKeyByPublicKeyCache s2 !! publicKey); reflexivity.
  - intros e s2. destruct (has_type e "AccessKeyDoesNotExist"); reflexivity.
Qed.

Lemma accounted_signTransaction receiverId actions s :
  accounted s (signTransaction this receiverId actions s).
Proof.
  unfold signTransaction, bind.
  apply accounts_for_bind_step; [apply accounted_findAccessKey|].
  intros [[publicKey entry]|] s1; [|reflexivity].
  apply accounts_for_bind_step; [apply accounted_await; reflexivity|].
  intros block s2. unfold pre_increment_nonce.
  destruct (heap s2 !! entry) as [accessKey|]; [|reflexivity].
  cbn [bind_step await accounts_for signed_nonce]. split; [reflexivity|].
  intros [x|e] s3; reflexivity.
Qed.

Lemma accounted_submit receiverId txHash signedTx s :
  accounted s (submit receiverId txHash signedTx s).
Proof.
  unfold submit, try_catch.
  apply accounts_for_catch_step; [apply accounted_await; reflexivity|].
  intros e s1. destruct (has_type e "InvalidNonce").
  - unfold bind. apply accounts_for_bind_step; [apply accounted_logWarning|].
    intros _ s2. reflexivity.
  - destruct (has_type e "Expired"); [|reflexivity].
    unfold bind. apply accounts_for_bind_step; [apply accounted_logWarning|].
    intros _ s2. reflexivity.
Qed.

Lemma accounted_attempt receiverId actions s :
  accounted s (attempt this receiverId actions s).
Proof.
  unfold attempt, bind.
  apply accounts_for_bind_step; [apply accounted_signTransaction|]. intros signed s1.
  apply accounts_for_bind_step; [apply accounted_submit|]. intros result s2. reflexivity.
Qed.

Lemma accounted_signAndSendTransactionV2 receiverId actions s :
  accounted s (signAndSendTransactionV2 this receiverId actions s).
Proof.
  unfold signAndSendTransactionV2, bind. apply accounts_for_bind_step.
  - apply (accounts_for_backoff Sleep sleep);
      [reflexivity|reflexivity|apply accounted_attempt].
  - intros [[result signedTx]|] s1; [|reflexivity].
    unfold after_backoff, bind, lift. destruct (flatLogs result) as [e|flat]; [reflexivity|].
    cbn [lift_sum ret bind_step modify].
    destruct (check_status result);
      cbn [lift_sum ret throw accounts_for];
      destruct (printLogsAndFailures_frame (Tx.receiverId (Tx.transaction signedTx)) flat s1)
        as (_ & _ & -> & _); reflexivity.
Qed.

Lemma strictly_descending_app_l (l l' : list Z) :
  StronglySorted Z.gt (l ++ l') -> StronglySorted Z.gt l.
Proof.
  induction l as [|n l IH]; cbn [app]; intros Hsorted; [constructor|].
  apply StronglySorted_inv in Hsorted. destruct Hsorted as [Hrest Hall].
  constructor; [apply IH, Hrest|].
  apply List.Forall_app in Hall. apply Hall.
Qed.

(** Under every interleaving of submissions: the nonces of the signing
    requests are the nonces issued, in the same order, and the nonces
    issued from an object are strictly increasing in the order of issue as
    long as they stay in the range in which [++] is exact; when they are
    all the nonces issued, so are the nonces of the signing requests. *)
Lemma pool_nonces_strictly_increase s0 trace
    (p : pool state js_error req ans FinalExecutionOutcome) :
  nonce_inv s0 ->
  pool_trace (fun _ _ => True) (submission this) (mkPool s0 []) trace p ->
  issued (history (shared p)) = signed_nonces trace ++ issued (history s0)
  /\ forall entry,
       (forall n, In n (issued_from entry (history (shared p))) ->
                  - 2 ^ 53 < n < 2 ^ 53) ->
       StronglySorted Z.gt (issued_from entry (history (shared p)))
       /\ NoDup (issued_from entry (history (shared p)))
       /\ (issued_from entry (history (shared p)) = issued (history (shared p)) ->
           StronglySorted Z.gt (signed_nonces trace)
           /\ NoDup (signed_nonces trace)).
Proof.
  intros Hinit Htrace.
  assert (Hissued : issued (history (shared p))
                    = signed_nonces trace ++ issued (history s0)).
  { eapply (pool_trace_accounts (fun s : state => issued (history s)) signed_nonce
              _ (submission this) (mkPool s0 []) p trace).
    - intros c s (receiverId & actions & ->). apply accounted_signAndSendTransactionV2.
    - exact Htrace.
    - constructor. }
  split; [exact Hissued|].
  intros entry Hsafe.
  assert (Hinv : nonce_inv (shared p)).
  { eapply (pool_steps_preserve nonce_inv _ (submission this) _ p).
    - intros c s (receiverId & actions & ->). apply keeps_signAndSendTransactionV2.
    - eapply pool_trace_steps, Htrace.
    - split; [exact Hinit|constructor]. }
  destruct (Hinv entry) as [Hsorted _].
  assert (Hstrict : StronglySorted Z.gt (issued_from entry (history (shared p)))).
  { apply follows_exact; assumption. }
  split; [exact Hstrict|]. split; [apply strictly_descending_NoDup, Hstrict|].
  intros Hall. rewrite Hall, Hissued in Hstrict.
  apply strictly_descending_app_l in Hstrict.
  split; [exact Hstrict|]. apply strictly_descending_NoDup, Hstrict.
Qed.


Lemma cache_le_refl s : cache_le s s.
Proof. unfold cache_le. reflexivity. Qed.

Lemma cache_le_trans s1 s2 s3 : cache_le s1 s2 -> cache_le s2 s3 -> cache_le s1 s3.
Proof. unfold cache_le. intros H12 H23. etransitivity; eassumption. Qed.

Lemma resolved_from_cache_stable r s s' :
  resolved_from_cache r s -> cache_le s s' -> resolved_from_cache r s'.
Proof.
  destruct r as [[publicKey entry]|]; [|auto]. unfold resolved_from_cache, cache_le.
  intros Hentry Hle. eapply lookup_weaken; eassumption.
Qed.

Lemma findAccessKey_ascends receiverId actions s :
  ascends cache_le resolved_from_cache s (findAccessKey this receiverId actions s).
Proof.
  unfold findAccessKey, bind, await, try_catch, gets. cbn [bind_step catch_step ascends].
  split; [apply cache_le_refl|]. intros [[publicKey|]|e] s1; cbn [bind_step ascends].
  - destruct (accessKeyByPublicKeyCache s1 !! publicKey) as [entry|] eqn:Hcached;
      cbn [bind_step catch_step ascends].
    + split; [apply cache_le_refl|exact Hcached].
    + split; [apply cache_le_refl|]. intros [accessKey|e] s2; cbn [bind_step catch_step].
      * destruct (accessKeyByPublicKeyCache s2 !! publicKey) as [entry|] eqn:Hthen;
          cbn [bind_step catch_step ascends ret].
        -- split; [apply cache_le_refl|exact Hthen].
        -- split.
           ++ unfold cache_le. cbn. apply insert_subseteq, Hthen.
           ++ cbn. apply lookup_insert_eq.
      * destruct (has_type e "AccessKeyDoesNotExist"); cbn; auto using cache_le_refl.
  - split; [apply cache_le_refl|exact I].
  - apply cache_le_refl.
Qed.

(** C5.  When the access-key query of a resolution returns and the cache
    already holds an entry for the key, the resolution returns that entry
    and leaves the state as it is, the answer of the network being
    dropped; in every interleaving of the key resolutions of an account,
    two resolutions that returned for the same key returned the same
    entry, the one the cache holds. *)
Theorem first_resolution_wins receiverId actions :
  (forall s, exists k1,
      findAccessKey this receiverId actions s
      = Await (GetPublicKey (accountId this) (networkId this)) s k1
      /\ forall publicKey s1,
          accessKeyByPublicKeyCache s1 !! publicKey = None ->
          exists k2,
            k1 (Resolved (Some publicKey)) s1
            = Await (Query "view_access_key" (accountId this) publicKey "optimistic") s1 k2
            /\ forall accessKey s2 entry,
                accessKeyByPublicKeyCache s2 !! publicKey = Some entry ->
                k2 (Resolved accessKey) s2 = Done (Some (publicKey, entry)) s2)
  /\ (forall s0 (p : pool state js_error req ans (option (string * ref))),
        pool_steps (fun _ _ => True) (resolution this) (mkPool s0 []) p ->
        forall i j publicKey entry1 entry2 s1 s2,
          tasks p !! i = Some (Done (Some (publicKey, entry1)) s1) ->
          tasks p !! j = Some (Done (Some (publicKey, entry2)) s2) ->
          entry1 = entry2
          /\ accessKeyByPublicKeyCache (shared p) !! publicKey = Some entry1).
Proof.
  split.
  - intros s. unfold findAccessKey, bind, await, try_catch, gets.
    cbn [bind_step catch_step]. eexists. split; [reflexivity|].
    intros publicKey s1 Hmiss. cbn [bind_step catch_step]. rewrite Hmiss.
    cbn [bind_step catch_step]. eexists. split; [reflexivity|].
    intros accessKey s2 entry Hhit. cbn [bind_step catch_step]. rewrite Hhit. reflexivity.
  - intros s0 p Hsteps i j publicKey entry1 entry2 s1 s2 Hi Hj.
    assert (Hall : Forall (settled_in cache_le resolved_from_cache (shared p)) (tasks p)).
    { eapply (pool_steps_ascend cache_le resolved_from_cache cache_le_refl cache_le_trans
                resolved_from_cache_stable _ (resolution this) _ p).
      - intros c s (rid & acts & ->). apply findAccessKey_ascends.
      - exact Hsteps.
      - constructor. }
    rewrite Forall_forall in Hall.
    pose proof (Hall _ (list_elem_of_lookup_2 _ _ _ Hi)) as (_ & _ & H1).
    pose proof (Hall _ (list_elem_of_lookup_2 _ _ _ Hj)) as (_ & _ & H2).
    cbn in H1, H2. rewrite H1 in H2. injection H2 as <-. auto.
Qed.

(** *** The properties of the specification *)

(** C1.  [signTransaction] increments the nonce of the cached entry in
    place, by [++], and the signing request it makes carries the
    incremented value.  Whatever the interleaving of the submissions of an
    account, the nonces that the signing requests carry are exactly the
    nonces issued, in the same order (the trace and the history are latest
    first), and the nonces issued from one cache entry are strictly
    increasing in the order of issue, hence without duplicates, as long as
    they are safe integers, between -2^53 and 2^53 exclusive: up to there
    [++] is exact.  When all the nonces issued come from that entry, the
    nonces of the signing requests are therefore strictly increasing in
    the order of the requests, and no two requests carry the same. *)
Theorem signTransaction_nonces_strictly_increase :
  (forall w publicKey receiverId actions s script entry current,
      node_publicKey w = Some publicKey ->
      accessKeyByPublicKeyCache s !! publicKey = Some entry ->
      heap s !! entry = Some current ->
      let n := increment (nonce current) in
      let blockHash := baseDecode (hash (header (node_block w))) in
      let r := run (scripted w) (signTransaction this receiverId actions s) script in
      run_outcome r
      = Returned (node_sign w publicKey receiverId n actions blockHash (accountId this))
      /\ run_state r = bump entry current s
      /\ heap (run_state r) !! entry = Some (mkAccessKey n (permission current))
      /\ accessKeyByPublicKeyCache (run_state r) = accessKeyByPublicKeyCache s
      /\ history (run_state r) = Issued entry n :: history s
      /\ run_trace r
         = [GetPublicKey (accountId this) (networkId this); Block "final";
            SignTransaction receiverId n actions blockHash (accountId this)
              (networkId this)]
      /\ (- 2 ^ 53 <= nonce current < 2 ^ 53 -> n = nonce current + 1))
  /\ (forall s0 trace (p : pool state js_error req ans FinalExecutionOutcome),
        nonce_inv s0 ->
        pool_trace (fun _ _ => True) (submission this) (mkPool s0 []) trace p ->
        issued (history (shared p)) = signed_nonces trace ++ issued (history s0)
        /\ forall entry,
             (forall n, In n (issued_from entry (history (shared p))) ->
                        - 2 ^ 53 < n < 2 ^ 53) ->
             StronglySorted Z.gt (issued_from entry (history (shared p)))
             /\ NoDup (issued_from entry (history (shared p)))
             /\ (issued_from entry (history (shared p)) = issued (history (shared p)) ->
                 StronglySorted Z.gt (signed_nonces trace)
                 /\ NoDup (signed_nonces trace))).
Proof.
  split.
  - intros w publicKey receiverId actions s script entry current Hkey Hhit Hentry n
      blockHash r.
    assert (Hrun : r = mkRun (Returned (node_sign w publicKey receiverId n actions blockHash
                                          (accountId this)))
                     (bump entry current s) script
                     ([GetPublicKey (accountId this) (networkId this)]
                        ++ [Block "final";
                            SignTransaction receiverId n actions blockHash (accountId this)
                              (networkId this)])).
    { apply (run_sign_found w publicKey Hkey receiverId actions s script entry current s).
      - apply run_findAccessKey_hit; assumption.
      - assumption. }
    rewrite Hrun. cbn [run_outcome run_state run_trace app].
    repeat split.
    + cbn [heap bump]. apply list_lookup_insert_eq. eapply lookup_lt_Some, Hentry.
    + intros Hrange. unfold n, increment. apply to_double_exact. lia.
  - intros s0 trace p. apply pool_nonces_strictly_increase.
Qed.

(** C2.  When the node rejects a submission with an error of type
    InvalidNonce, the attempt removes the entry of the transaction's public
    key from the cache and returns the retry-signal instead of raising;
    when the node rejects with InvalidNonce once and then accepts, the
    submission returns the node's result after restarting from key
    resolution, and the cache has been invalidated exactly once. *)
Theorem invalid_nonce_invalidates_and_retries :
  (forall (M : Type) (mk : mock js_error req ans M) receiverId txHash signedTx s m m' e,
      respond mk (SendTransaction signedTx) m = (Rejected e, m') ->
      has_type e "InvalidNonce" = true ->
      let r := run mk (submit receiverId txHash signedTx s) m in
      run_outcome r = Returned None
      /\ accessKeyByPublicKeyCache (run_state r)
         = delete (Tx.publicKey (Tx.transaction signedTx)) (accessKeyByPublicKeyCache s)
      /\ invalidations (history (run_state r)) = S (invalidations (history s))
      /\ run_mock r = m'
      /\ run_trace r = [SendTransaction signedTx])
  /\ (forall w publicKey accessKey receiverId actions e result flat s0,
        node_publicKey w = Some publicKey ->
        node_accessKey w = Resolved accessKey ->
        has_type e "InvalidNonce" = true ->
        accessKeyByPublicKeyCache s0 !! publicKey = None ->
        flatLogs result = inr flat ->
        check_status result = inr result ->
        let n := increment (nonce accessKey) in
        let blockHash := baseDecode (hash (header (node_block w))) in
        let get_key := GetPublicKey (accountId this) (networkId this) in
        let view_key := Query "view_access_key" (accountId this) publicKey "optimistic" in
        let sign := SignTransaction receiverId n actions blockHash (accountId this)
                      (networkId this) in
        let send := SendTransaction
                      (snd (node_sign w publicKey receiverId n actions blockHash
                              (accountId this))) in
        let r := run (scripted w) (signAndSendTransactionV2 this receiverId actions s0)
                   [Rejected e; Resolved (Some result)] in
        run_outcome r = Returned result
        /\ run_mock r = []
        /\ invalidations (history (run_state r)) = S (invalidations (history s0))
        /\ run_trace r
           = [get_key; view_key; Block "final"; sign; send;
              Sleep TX_NONCE_RETRY_WAIT;
              get_key; view_key; Block "final"; sign; send]).
Proof.
  split.
  - intros M mk receiverId txHash signedTx s m m' e Hsend Hinvalid r. subst r.
    rewrite (run_submit_rejected mk receiverId txHash signedTx s m m' e Hsend), Hinvalid.
    cbn [run_outcome run_state run_mock run_trace accessKeyByPublicKeyCache history
         cache_delete].
    rewrite cache_warned, history_warned. repeat split.
  - intros w publicKey accessKey receiverId actions e result flat s0 Hkey Hstate Hinvalid
      Hmiss Hflat Hstatus n blockHash get_key view_key sign send r.
    apply (invalid_nonce_once_then_accepted w publicKey accessKey Hkey Hstate receiverId
             actions e result flat s0 Hinvalid Hmiss Hflat Hstatus).
Qed.


(** The legacy shape with non-empty fields, in the channel and in the
    engine: the error is built from the two fields. *)
Lemma check_status_legacy result Failure message type :
  typeof (final_status result) = "object" ->
  get_prop (final_status result) "Failure" = inr Failure ->
  typeof Failure = "object" ->
  get_prop Failure "error_message" = inr (VStr message) ->
  get_prop Failure "error_type" = inr (VStr type) ->
  message <> "" -> type <> "" ->
  check_status result
  = inl (TypedError ("Transaction " +:+ id (transaction_outcome result)
                       +:+ " failed. " +:+ message) type).
Proof.
  intros Hstatus Hfailure Hobject Hmessage Htype Hm Ht. unfold check_status.
  rewrite Hstatus, Hfailure, Hobject, Hmessage, Htype. cbn [String.eqb Ascii.eqb Bool.eqb].
  simpl. destruct (String.eqb_spec message ""); [contradiction|].
  destruct (String.eqb_spec type ""); [contradiction|]. reflexivity.
Qed.

(** C8.  The code on a top-level failure of the legacy shape whose
    [error_message] is the empty string: the error raised is the one of
    the general classifier, [parseResultError], not the one built from the
    two fields; the guard tests the fields for truth, where the channel
    tests them for being strings. *)
Theorem legacy_failure_with_empty_message_is_classified :
  forall type outcome_id logs receipt_ids fields receipts,
    let Failure := VObj [("error_message", VStr ""); ("error_type", VStr type)] in
    let result :=
      mkFinal (VObj [("Failure", Failure)])
        (mkOutcomeWithId outcome_id (mkOutcome logs receipt_ids (VObj fields)))
        receipts in
    check_status result = inl (parseResultError result)
    /\ forall publicKey accessKey block hash_of signature_of receiverId actions
             muted printed,
        run_outcome
          (run (scripted (mkNode (Some publicKey) (Resolved accessKey) block hash_of
                            signature_of))
             (signAndSendTransactionV2 this receiverId actions
                (mkState ∅ [] printed muted []))
             [Resolved (Some (mkFinal (VObj [("Failure", Failure)])
                                (mkOutcomeWithId outcome_id
                                   (mkOutcome logs receipt_ids (VObj fields)))
                                []))])
        = Raised (parseResultError
                    (mkFinal (VObj [("Failure", Failure)])
                       (mkOutcomeWithId outcome_id
                          (mkOutcome logs receipt_ids (VObj fields)))
                       [])).
Proof.
  intros type outcome_id logs receipt_ids fields receipts Failure result.
  split; [reflexivity|].
  intros publicKey accessKey block hash_of signature_of receiverId actions muted printed.
  rewrite run_signAndSend. unfold TX_NONCE_RETRY_NUMBER.
  rewrite (run_backoff_S Sleep sleep) by reflexivity.
  rewrite (run_attempt_miss (mkNode (Some publicKey) (Resolved accessKey) block hash_of
                               signature_of) publicKey accessKey eq_refl eq_refl)
    by apply lookup_empty.
  rewrite (run_submit_resolved (scripted _) receiverId _ _ _ _ [] (Some _))
    by reflexivity.
  cbn [run_then prefixed run_outcome run_state run_mock run_trace option_map
       is_retry_signal option_retry_signal].
  unfold after_backoff, bind.
  unfold flatLogs. rewrite flatLogs_fold.
  2:{ constructor; [|constructor]. cbn. split; discriminate. }
  cbn [lift lift_sum ret bind_step modify]. reflexivity.
Qed.

(** *** More of the engine *)

Context `{transaction.Actions} `{ViewDeps}.

(** *** The requests of a submission *)

Lemma requests_only_await (P : req -> Prop) (r : req) (s : state) :
  P r -> requests_only P (await (Err:=js_error) (Ans:=ans) r s).
Proof. intros Hr. split; [exact Hr|]. intros [x|e] s'; exact I. Qed.

Ltac asks :=
  cbn [await requests_only]; split; [hnf; auto | intros [?|?] ?; exact I].

Lemma requests_only_logWarning (P : req -> Prop) text (s : state) :
  requests_only P (logWarning text s).
Proof. rewrite logWarning_step. exact I. Qed.

Lemma requests_only_findAccessKey receiverId actions s :
  requests_only (serves this receiverId actions) (findAccessKey this receiverId actions s).
Proof.
  unfold findAccessKey, bind. apply requests_only_bind_step.
  - asks.
  - intros [publicKey|] s1; [|exact I].
    cbn [gets bind_step]. destruct (accessKeyByPublicKeyCache s1 !! publicKey); [exact I|].
    unfold try_catch. apply requests_only_catch_step.
    + apply requests_only_bind_step.
      * asks.
      * intros accessKey s2. cbn [gets bind_step].
        destruct (accessKeyByPublicKeyCache s2 !! publicKey); exact I.
    + intros e s2. destruct (has_type e "AccessKeyDoesNotExist"); exact I.
Qed.

Lemma requests_only_signTransaction receiverId actions s :
  requests_only (serves this receiverId actions) (signTransaction this receiverId actions s).
Proof.
  unfold signTransaction, bind. apply requests_only_bind_step.
  - apply requests_only_findAccessKey.
  - intros [[publicKey entry]|] s1; [|exact I].
    apply requests_only_bind_step.
    + asks.
    + intros block s2. apply requests_only_bind_step.
      * unfold pre_increment_nonce. destruct (heap s2 !! entry); exact I.
      * intros n s3. asks.
Qed.

Lemma requests_only_attempt receiverId actions s :
  requests_only (serves this receiverId actions) (attempt this receiverId actions s).
Proof.
  unfold attempt, bind. apply requests_only_bind_step.
  - apply requests_only_signTransaction.
  - intros signed s1. apply requests_only_bind_step; [|intros; exact I].
    unfold submit, try_catch. apply requests_only_catch_step.
    + asks.
    + intros e s2. destruct (has_type e "InvalidNonce").
      * unfold bind. apply requests_only_bind_step; [apply requests_only_logWarning|].
        intros _ s3. exact I.
      * destruct (has_type e "Expired"); [|exact I].
        unfold bind. apply requests_only_bind_step; [apply requests_only_logWarning|].
        intros _ s3. exact I.
Qed.

Lemma requests_only_signAndSend receiverId actions s :
  requests_only (serves this receiverId actions)
    (signAndSendTransactionV2 this receiverId actions s).
Proof.
  unfold signAndSendTransactionV2, bind. apply requests_only_bind_step.
  - apply (requests_only_backoff Sleep sleep); [reflexivity|intros ms; exact I|].
    apply requests_only_attempt.
  - intros [[result signedTx]|] s1; [|exact I].
    unfold after_backoff, bind. destruct (flatLogs result); cbn; [exact I|].
    destruct (check_status result); exact I.
Qed.

(** X9.  Whatever the outside world answers, a submission asks the
    signer for the key of this account on this network only, queries the
    access key of this account only, asks for the final block only, and
    has nothing signed but transactions of the given actions to the given
    receiver, from this account on this network. *)
Theorem submission_requests {M} (mk : mock js_error req ans M) receiverId actions s m :
  Forall (serves this receiverId actions)
    (run_trace (run mk (signAndSendTransactionV2 this receiverId actions s) m)).
Proof. apply run_requests_only, requests_only_signAndSend. Qed.

(** X10.  Whatever the outside world answers, [deleteAccount],
    [deployContract], [addKey], [deleteKey] and [stake] have only
    transactions signed whose receiver is the account itself. *)
Theorem management_addresses_the_account {M} (mk : mock js_error req ans M) s m :
  let to_self (c : prog FinalExecutionOutcome) :=
    forall receiver n actions blockHash account_id network_id,
      In (SignTransaction receiver n actions blockHash account_id network_id)
         (run_trace (run mk (c s) m)) ->
      receiver = accountId this /\ account_id = accountId this in
  (forall beneficiaryId, to_self (deleteAccount this beneficiaryId))
  /\ (forall data, to_self (deployContract this data))
  /\ (forall publicKey contractId methodNames amount,
        to_self (addKey this publicKey contractId methodNames amount))
  /\ (forall publicKey, to_self (deleteKey this publicKey))
  /\ (forall publicKey amount, to_self (stake this publicKey amount)).
Proof.
  intros to_self.
  assert (Hself : forall actions, to_self (signAndSendTransactionV2 this (accountId this) actions)).
  { intros actions receiver n actions' blockHash account_id network_id Hin.
    pose proof (run_requests_only mk _ _ m
                  (requests_only_signAndSend (accountId this) actions s)) as Hall.
    rewrite List.Forall_forall in Hall. specialize (Hall _ Hin).
    cbn in Hall. tauto. }
  split; [|split; [|split; [|split]]].
  - intros beneficiaryId. apply Hself.
  - intros data. apply Hself.
  - intros publicKey contractId methodNames amount. apply Hself.
  - intros publicKey. apply Hself.
  - intros publicKey amount. apply Hself.
Qed.


(** *** Attempts from any state of the cache *)

Lemma cache_valid_store publicKey accessKey s :
  cache_valid s -> cache_valid (snd (cache_store publicKey accessKey s)).
Proof.
  intros Hvalid k entry. cbn. intros Hk.
  destruct (decide (k = publicKey)) as [->|Hne].
  - rewrite lookup_insert_eq in Hk. injection Hk as <-.
    rewrite list_lookup_middle by reflexivity. eauto.
  - rewrite lookup_insert_ne in Hk by congruence.
    destruct (Hvalid k entry Hk) as [x Hx]. exists x. apply lookup_app_l_Some, Hx.
Qed.

Lemma cache_valid_bump entry current s :
  cache_valid s -> cache_valid (bump entry current s).
Proof.
  intros Hvalid k e Hk. cbn in *. destruct (Hvalid k e Hk) as [x Hx].
  apply lookup_lt_is_Some. rewrite length_insert. eapply lookup_lt_Some, Hx.
Qed.

Lemma cache_valid_delete publicKey s :
  cache_valid s -> cache_valid (cache_delete publicKey s).
Proof.
  intros Hvalid k e Hk. cbn in *. apply lookup_delete_Some in Hk as [_ Hk].
  apply (Hvalid k e Hk).
Qed.

Lemma cache_valid_frame s s' :
  accessKeyByPublicKeyCache s' = accessKeyByPublicKeyCache s -> heap s' = heap s ->
  cache_valid s -> cache_valid s'.
Proof. intros Hc Hh Hvalid k e. rewrite Hc, Hh. apply Hvalid. Qed.

Lemma cache_valid_warned text s : cache_valid s -> cache_valid (warned text s).
Proof. apply cache_valid_frame; [apply cache_warned|apply heap_warned]. Qed.

Lemma submissions_app tr1 tr2 :
  submissions (tr1 ++ tr2) = submissions tr1 ++ submissions tr2.
Proof. apply omap_app. Qed.

Lemma key_queries_app tr1 tr2 :
  key_queries (tr1 ++ tr2) = key_queries tr1 ++ key_queries tr2.
Proof. apply omap_app. Qed.

Section AnyCache.
Variables (w : node) (publicKey : string) (accessKey : AccessKeyView).
Hypothesis Hkey : node_publicKey w = Some publicKey.
Hypothesis Hstate : node_accessKey w = Resolved accessKey.
Variables (receiverId : string) (actions : list value).

Let signed n := node_sign w publicKey receiverId n actions
                  (baseDecode (hash (header (node_block w)))) (accountId this).

Lemma run_attempt_any s answer script :
  cache_valid s ->
  let n := increment (nonce (current_key publicKey accessKey s)) in
  exists entry found tr,
    run (scripted w) (attempt this receiverId actions s) (answer :: script)
    = prefixed tr
        (run_then (run (scripted w)
                     (submit receiverId (fst (signed n)) (snd (signed n)) found)
                     (answer :: script))
           (fun result s' m' =>
              mkRun (Returned (option_map (fun r => (r, snd (signed n))) result)) s' m' []))
    /\ submissions tr = []
    /\ key_queries tr
       = match accessKeyByPublicKeyCache s !! publicKey with
         | Some _ => []
         | None => [publicKey]
         end
    /\ cache_valid found
    /\ accessKeyByPublicKeyCache found !! publicKey = Some entry
    /\ heap found !! entry = Some (mkAccessKey n (permission (current_key publicKey accessKey s)))
    /\ history found = Issued entry n :: history s
    /\ console found = console s
    /\ NEAR_NO_LOGS found = NEAR_NO_LOGS s.
Proof.
  intros Hvalid. cbv zeta. unfold current_key.
  destruct (accessKeyByPublicKeyCache s !! publicKey) as [entry|] eqn:Hcache.
  - destruct (Hvalid publicKey entry Hcache) as [current Hentry].
    rewrite Hentry. cbn [default].
    exists entry, (bump entry current s). eexists.
    split; [apply (run_attempt_hit w publicKey Hkey); assumption|].
    split; [reflexivity|]. split; [reflexivity|].
    split; [apply cache_valid_bump, Hvalid|].
    split; [exact Hcache|].
    split; [cbn; apply list_lookup_insert_eq; eapply lookup_lt_Some, Hentry|].
    auto.
  - exists (length (heap s)),
      (bump (length (heap s)) accessKey (snd (cache_store publicKey accessKey s))).
    eexists.
    split; [apply (run_attempt_miss w publicKey accessKey Hkey Hstate); assumption|].
    split; [reflexivity|]. split; [reflexivity|].
    split; [apply cache_valid_bump, cache_valid_store, Hvalid|].
    split; [cbn; apply lookup_insert_eq|].
    split; [cbn; apply list_lookup_insert_eq; rewrite length_app; simpl; lia|].
    auto.
Qed.


Lemma attempt_retried s answer script :
  cache_valid s ->
  retriable answer = true ->
  exists s' tr,
    run (scripted w) (attempt this receiverId actions s) (answer :: script)
    = mkRun (Returned None) s' script tr
    /\ cache_valid s'
    /\ length (submissions tr) = 1%nat.
Proof.
  intros Hvalid Hretry.
  destruct (run_attempt_any s answer script Hvalid)
    as (entry & found & tr & Hrun & Hsub & _ & Hfound & _).
  cbv zeta in Hrun. rewrite Hrun. clear Hrun.
  destruct answer as [[result|]|e]; [discriminate| |].
  - rewrite (run_submit_resolved (scripted w) receiverId _ _ _ _ script None) by reflexivity.
    eexists. eexists. split; [reflexivity|]. split; [exact Hfound|].
    cbn [run_trace]. rewrite submissions_app, Hsub. reflexivity.
  - rewrite (run_submit_rejected (scripted w) receiverId _ _ _ _ script e) by reflexivity.
    cbn [retriable] in Hretry.
    destruct (has_type e "InvalidNonce").
    + eexists. eexists. split; [reflexivity|].
      split; [apply cache_valid_delete, cache_valid_warned, Hfound|].
      cbn [run_trace]. rewrite submissions_app, Hsub. reflexivity.
    + cbn in Hretry. rewrite Hretry.
      eexists. eexists. split; [reflexivity|].
      split; [apply cache_valid_warned, Hfound|].
      cbn [run_trace]. rewrite submissions_app, Hsub. reflexivity.
Qed.

Lemma backoff_exhausts n : forall w0 b s script rest,
  cache_valid s ->
  length script = n ->
  forallb retriable script = true ->
  exists s' tr,
    run (scripted w)
      (exponentialBackoff sleep w0 n b (attempt this receiverId actions) s) (script ++ rest)
    = mkRun (Returned None) s' rest tr
    /\ length (submissions tr) = n.
Proof.
  induction n as [|n IH]; intros w0 b s script rest Hvalid Hlen Hall.
  - destruct script; [|discriminate]. eexists. eexists. split; reflexivity.
  - destruct script as [|answer script]; [discriminate|].
    injection Hlen as Hlen. cbn [forallb] in Hall. apply andb_true_iff in Hall as [Hretry Hall].
    rewrite (run_backoff_S Sleep sleep) by reflexivity.
    destruct (attempt_retried s answer (script ++ rest) Hvalid Hretry)
      as (s' & tr & Hrun & Hvalid' & Hsub).
    change ((answer :: script) ++ rest) with (answer :: script ++ rest).
    rewrite Hrun. unfold run_then. cbn [run_outcome run_state run_mock run_trace
      is_retry_signal option_retry_signal retry_signal].
    destruct n as [|n'].
    + destruct script; [|discriminate]. eexists. eexists. split; [reflexivity|].
      cbn [run_trace]. rewrite app_nil_r. exact Hsub.
    + destruct (IH (Qred (w0 * b)) b s' script rest Hvalid' Hlen Hall)
        as (s'' & tr' & Hrun' & Hsub').
      cbn [respond scripted snd]. rewrite Hrun'.
      eexists. eexists. split; [reflexivity|].
      cbn [traced run_trace]. rewrite submissions_app. rewrite length_app, Hsub.
      change (submissions (Sleep w0 :: tr')) with (submissions tr'). rewrite Hsub'.
      reflexivity.
Qed.

(** X11.  Twelve answers in a row that ask for another attempt (a
    rejection of type InvalidNonce or Expired, or a falsy result) exhaust
    the submission: it raises the TypedError of type 'RetriesExceeded'
    after exactly twelve submissions, having consumed exactly these
    answers. *)
Theorem nonce_retries_exhausted s script rest :
  cache_valid s ->
  length script = TX_NONCE_RETRY_NUMBER ->
  forallb retriable script = true ->
  let r := run (scripted w) (signAndSendTransactionV2 this receiverId actions s)
             (script ++ rest) in
  run_outcome r
  = Raised (mkError "nonce retries exceeded for transaction. This usually means there are too many parallel requests with the same access key."
              (VStr "RetriesExceeded") None)
  /\ run_mock r = rest
  /\ length (submissions (run_trace r)) = TX_NONCE_RETRY_NUMBER.
Proof.
  intros Hvalid Hlen Hall r. subst r.
  rewrite run_signAndSend.
  destruct (backoff_exhausts TX_NONCE_RETRY_NUMBER TX_NONCE_RETRY_WAIT
              TX_NONCE_RETRY_WAIT_BACKOFF s script rest Hvalid Hlen Hall)
    as (s' & tr & Hrun & Hsub).
  rewrite Hrun. unfold run_then. cbn. rewrite app_nil_r. auto.
Qed.

(** X12.  A rejection of any other type ends the submission at once: the
    error is raised with the base-encoded hash of the transaction as its
    context, after the one submission of the transaction signed with the
    next nonce of the current key; no cache entry is invalidated and
    nothing is printed. *)
Theorem send_error_is_fatal s e script :
  cache_valid s ->
  has_type e "InvalidNonce" = false ->
  has_type e "Expired" = false ->
  let n := increment (nonce (current_key publicKey accessKey s)) in
  let r := run (scripted w) (signAndSendTransactionV2 this receiverId actions s)
             (Rejected e :: script) in
  run_outcome r = Raised (with_context e (baseEncode (fst (signed n))))
  /\ submissions (run_trace r) = [snd (signed n)]
  /\ run_mock r = script
  /\ invalidations (history (run_state r)) = invalidations (history s)
  /\ console (run_state r) = console s.
Proof.
  intros Hvalid Hnonce Hexpired n r. subst r.
  rewrite run_signAndSend. unfold TX_NONCE_RETRY_NUMBER.
  rewrite (run_backoff_S Sleep sleep) by reflexivity.
  destruct (run_attempt_any s (Rejected e) script Hvalid)
    as (entry & found & tr & Hrun & Hsub & _ & _ & _ & _ & Hhist & Hconsole & _).
  cbv zeta in Hrun. fold n in Hrun. rewrite Hrun. clear Hrun.
  rewrite (run_submit_rejected (scripted w) receiverId _ _ _ _ script e) by reflexivity.
  rewrite Hnonce, Hexpired.
  cbn [run_then prefixed run_outcome run_state run_mock run_trace].
  split; [reflexivity|]. split; [rewrite submissions_app, Hsub; reflexivity|].
  split; [reflexivity|]. split; [rewrite Hhist; reflexivity|exact Hconsole].
Qed.

(** X13.  A submission that the node accepts with an outcome that passes
    the status check: the outcome is returned after the one submission of
    the transaction signed with the next nonce of the current key;
    afterwards the cache holds the key, the cached object holds the nonce
    just used, and the access key was queried only if the cache did not
    hold it. *)
Theorem accepted_at_once s result flat script :
  cache_valid s ->
  flatLogs result = inr flat ->
  check_status result = inr result ->
  let n := increment (nonce (current_key publicKey accessKey s)) in
  let r := run (scripted w) (signAndSendTransactionV2 this receiverId actions s)
             (Resolved (Some result) :: script) in
  run_outcome r = Returned result
  /\ submissions (run_trace r) = [snd (signed n)]
  /\ run_mock r = script
  /\ (exists entry,
        accessKeyByPublicKeyCache (run_state r) !! publicKey = Some entry
        /\ heap (run_state r) !! entry = Some (mkAccessKey n (permission (current_key publicKey accessKey s)))
        /\ history (run_state r) = Issued entry n :: history s)
  /\ key_queries (run_trace r)
     = match accessKeyByPublicKeyCache s !! publicKey with
       | Some _ => []
       | None => [publicKey]
       end.
Proof.
  intros Hvalid Hflat Hstatus n r. subst r.
  rewrite run_signAndSend. unfold TX_NONCE_RETRY_NUMBER.
  rewrite (run_backoff_S Sleep sleep) by reflexivity.
  destruct (run_attempt_any s (Resolved (Some result)) script Hvalid)
    as (entry & found & tr & Hrun & Hsub & Hqueries & _ & Hcache & Hheap & Hhist & _).
  cbv zeta in Hrun. fold n in Hrun, Hheap, Hhist. rewrite Hrun. clear Hrun.
  rewrite (run_submit_resolved (scripted w) receiverId _ _ _ _ script (Some result))
    by reflexivity.
  cbn [run_then prefixed run_outcome run_state run_mock run_trace option_map
       is_retry_signal option_retry_signal].
  rewrite (run_after_backoff_ok _ _ _ flat) by assumption.
  cbn [run_outcome run_state run_mock run_trace].
  match goal with
  | |- context [printLogsAndFailures ?c ?f ?s0] =>
      destruct (printLogsAndFailures_frame c f s0) as (Hc & Hh & Hi & _)
  end.
  cbv zeta in Hc, Hh, Hi. rewrite Hc, Hh, Hi.
  split; [reflexivity|].
  split; [rewrite !submissions_app, Hsub; reflexivity|].
  split; [reflexivity|].
  split; [exists entry; auto|].
  rewrite !key_queries_app, Hqueries. cbn. rewrite !app_nil_r. reflexivity.
Qed.

End AnyCache.

(** *** The console *)

Lemma console_write_fold {A} (f : A -> console_line) (items : list A) s :
  console (fold_left (fun s item => write (f item) s) items s)
  = console s ++ map f items
  /\ NEAR_NO_LOGS (fold_left (fun s item => write (f item) s) items s) = NEAR_NO_LOGS s.
Proof.
  revert s. induction items as [|item items IH]; intros s; cbn [fold_left map].
  - rewrite app_nil_r. auto.
  - destruct (IH (write (f item) s)) as [-> ->]. cbn. rewrite <- app_assoc. auto.
Qed.

Lemma console_printLogs contractId logs prefix s :
  console (printLogs contractId logs prefix s)
  = console s
    ++ (if NEAR_NO_LOGS s then []
        else map (fun log => ConsoleLog (prefix +:+ "Log [" +:+ contractId +:+ "]: " +:+ log))
               logs)
  /\ NEAR_NO_LOGS (printLogs contractId logs prefix s) = NEAR_NO_LOGS s.
Proof.
  unfold printLogs. destruct (NEAR_NO_LOGS s) eqn:Hflag.
  - rewrite app_nil_r. auto.
  - destruct (console_write_fold
                (fun log => ConsoleLog (prefix +:+ "Log [" +:+ contractId +:+ "]: " +:+ log))
                logs s) as [Hc Hf].
    split; [exact Hc|]. congruence.
Qed.

(** X14.  Unless NEAR_NO_LOGS is set, [printLogsAndFailures] appends to
    the console, for each entry of the report in turn: the line
    [console.log("Receipt: <ids>")] ("Receipts" for more than one id,
    the ids joined by ", "), a line [console.log("<tab>Log [<contractId>]:
    <log>")] for each of its logs, and the line [console.warn("<tab>Failure
    [<contractId>]: <failure>")] if it has a failure; these are
    [lines_of] the entry many.  With NEAR_NO_LOGS set the console stays as
    it is. *)
Theorem printLogsAndFailures_lines contractId results s :
  let lines_for (result : flat_log) :=
    [ConsoleLog ("Receipt"
                 +:+ (if (1 <? length (receiptIds result))%nat then "s" else "")
                 +:+ ": " +:+ String.concat ", " (receiptIds result))]
    ++ map (fun log => ConsoleLog (tab +:+ "Log [" +:+ contractId +:+ "]: " +:+ log))
         (flat_logs result)
    ++ match failure result with
       | Some e =>
           [ConsoleWarn (tab +:+ "Failure [" +:+ contractId +:+ "]: " +:+ error_toString e)
              []]
       | None => []
       end in
  console (printLogsAndFailures contractId results s)
  = console s ++ (if NEAR_NO_LOGS s then [] else concat (map lines_for results))
  /\ length (concat (map lines_for results)) = sum_list (map lines_of results).
Proof.
  intros lines_for. split.
  - unfold printLogsAndFailures. destruct (NEAR_NO_LOGS s) eqn:Hflag.
    + rewrite app_nil_r. reflexivity.
    + revert s Hflag. induction results as [|result results IH]; intros s Hflag.
      * cbn. rewrite app_nil_r. reflexivity.
      * cbn [fold_left map concat].
        match goal with
        | |- context [fold_left ?f results ?s1] =>
            assert (Hs1 : console s1 = console s ++ lines_for result
                          /\ NEAR_NO_LOGS s1 = false)
        end.
        { match goal with
          | |- context [printLogs ?c ?l ?p ?s0] =>
              destruct (console_printLogs c l p s0) as (Hc & Hf)
          end.
          cbn [NEAR_NO_LOGS write] in Hc, Hf. rewrite Hflag in Hc, Hf.
          cbn [console write] in Hc. unfold lines_for.
          destruct (failure result).
          - cbn [console write NEAR_NO_LOGS]. rewrite Hc, <- !app_assoc.
            split; [reflexivity|exact Hf].
          - rewrite Hc, <- !app_assoc, app_nil_r.
            split; [reflexivity|exact Hf]. }
        destruct Hs1 as (Hc1 & Hf1).
        rewrite (IH _ Hf1), Hc1, <- app_assoc. reflexivity.
  - induction results as [|result results IH]; [reflexivity|].
    cbn [map concat sum_list sum_list_with]. rewrite length_app, IH. f_equal.
    unfold lines_for, lines_of. rewrite !length_app, length_map.
    destruct (failure result); cbn; lia.
Qed.

(** *** The arguments of a contract call *)

(** X15.  [validateArgs] accepts a Uint8Array, and an object that is no
    array whatever its [byteLength] and [length] are; it throws a
    TypeError on [null] and [undefined], and a PositionalArgsError on an
    array and on every other primitive. *)
Theorem validateArgs_cases args :
  match args with
  | Bytes _ | Json (VObj _) => validateArgs args = inr tt
  | Json VUndefined | Json VNull =>
      exists message, validateArgs args = inl (TypeError message)
  | Json _ => validateArgs args = inl PositionalArgsError
  end.
Proof.
  destruct args as [b|[| | | | | |fields]]; cbn; eauto.
  destruct (negb (strict_equal (assoc "byteLength" fields) VUndefined)
            && strict_equal (assoc "byteLength" fields) (assoc "length" fields));
    reflexivity.
Qed.

(** X16.  With an array, or a boolean, a number or a string (any value
    whose [typeof] is not 'object', [undefined] apart), for the arguments,
    [functionCallV2] and [viewFunction] fail with PositionalArgsError
    before any request is made, and leave the state as it is.  ([null] is
    not among them: its [typeof] is 'object', and on it [validateArgs]
    throws a TypeError.) *)
Theorem positional_args_are_rejected contractId methodName v
    gas attachedDeposit walletMeta walletCallbackUrl stringify_option
    (parse : bytes -> js_error + value) (stringify : call_args -> bytes) s :
  isArray v = true \/ (typeof v <> "object" /\ v <> VUndefined) ->
  functionCallV2 this contractId methodName (Json v) gas attachedDeposit walletMeta
    walletCallbackUrl stringify_option s
  = Fail PositionalArgsError s
  /\ AccountViews.viewFunction contractId methodName (Json v) parse stringify s
     = Fail PositionalArgsError s.
Proof.
  intros Hv.
  assert (Hbad : validateArgs (Json v) = inl PositionalArgsError
                 /\ v <> VUndefined).
  { destruct Hv as [Harr|[Hprim Hdef]].
    - destruct v; try discriminate. split; [reflexivity|discriminate].
    - split; [|exact Hdef].
      destruct v; try reflexivity; try congruence; exfalso; apply Hprim; reflexivity. }
  destruct Hbad as [Hbad Hdef].
  unfold functionCallV2, AccountViews.viewFunction, bind.
  destruct v; try congruence; rewrite Hbad; split; reflexivity.
Qed.

(** X17.  Whatever the outside world answers, [addKey] is the submission,
    to the account itself, of the one action that adds the given public
    key, and has nothing else signed.  The access key added is a
    full-access key when the contract id is falsy, whatever method names
    and allowance are given; otherwise it is the function-call key for
    the contract id and the allowance whose method names are the empty
    array when the given value is falsy ([null], [undefined], the empty
    string), the given array when it is one, and the one-element array of
    the given value otherwise. *)
Theorem addKey_method_names {M} (mk : mock js_error req ans M)
    publicKey contractId methodNames amount s m :
  let names :=
    if truthy methodNames then
      if isArray methodNames then methodNames else VArr [methodNames]
    else VArr [] in
  let accessKey :=
    if truthy contractId then transaction.functionCallAccessKey contractId names amount
    else transaction.fullAccessKey in
  let action := transaction.addKey (transaction.PublicKey_from publicKey) accessKey in
  addKey this publicKey contractId methodNames amount
  = signAndSendTransactionV2 this (accountId this) [action]
  /\ Forall (serves this (accountId this) [action])
       (run_trace (run mk (addKey this publicKey contractId methodNames amount s) m)).
Proof.
  intros names accessKey action.
  assert (Hcall : addKey this publicKey contractId methodNames amount
                  = signAndSendTransactionV2 this (accountId this) [action]).
  { unfold addKey, signAndSendTransaction. subst action accessKey names.
    destruct (truthy methodNames); cbn [negb].
    - destruct (isArray methodNames); cbn [negb]; destruct (truthy contractId); reflexivity.
    - cbn [isArray negb]. destruct (truthy contractId); reflexivity. }
  split; [exact Hcall|].
  rewrite Hcall. apply run_requests_only, requests_only_signAndSend.
Qed.

End Facts.

(** *** The properties on concrete runs *)

Section Witnesses.
#[local] Existing Instance plain_errors.
#[local] Existing Instance plain_deps.
#[local] Existing Instance plain_actions.
#[local] Existing Instance plain_views.

Lemma invalid_nonce_witness :
  (let r := run (scripted testnet)
              (submit "bob.test" (fst signed_by_alice) (snd signed_by_alice) primed)
              [Rejected (TypedError "nonce too small" "InvalidNonce")] in
   run_outcome r = Returned None
   /\ accessKeyByPublicKeyCache (run_state r) = delete alice_key (<[alice_key := 0%nat]> ∅))
  /\ (let r := run (scripted testnet) (signAndSendTransactionV2 alice "bob.test" [] fresh)
                 [Rejected (TypedError "nonce too small" "InvalidNonce");
                  Resolved (Some accepted)] in
      run_outcome r = Returned accepted
      /\ run_mock r = []
      /\ invalidations (history (run_state r)) = 1%nat).
Proof.
  split.
  - destruct (proj1 (invalid_nonce_invalidates_and_retries alice) _ (scripted testnet)
                "bob.test" (fst signed_by_alice) (snd signed_by_alice) primed
                [Rejected (TypedError "nonce too small" "InvalidNonce")] []
                (TypedError "nonce too small" "InvalidNonce") eq_refl eq_refl)
      as (Houtcome & Hcache & _).
    exact (conj Houtcome Hcache).
  - destruct (proj2 (invalid_nonce_invalidates_and_retries alice) testnet alice_key
                alice_access "bob.test" []
                (TypedError "nonce too small" "InvalidNonce") accepted
                (flatLogs_spec accepted) fresh eq_refl eq_refl eq_refl
                ltac:(apply lookup_empty) eq_refl eq_refl)
      as (Houtcome & Hmock & Hcount & _).
    exact (conj Houtcome (conj Hmock Hcount)).
Defined.


Lemma flatLogs_report_witness :
  flatLogs mixed
  = inr [mkFlatLog ["third"] ["transferred"] None;
         mkFlatLog [] [] (Some (parseRpcError action_error))].
Proof.
  apply (flatLogs_report mixed).
  repeat constructor; discriminate.
Defined.

Lemma key_not_found_witness :
  let not_found :=
    mkError "Can not sign transactions for account alice.test on network testnet, no matching key pair found in [object Object]."
      (VStr "KeyNotFound") None in
  run_outcome (run (scripted keyless) (signAndSendTransactionV2 alice "bob.test" [] fresh) [])
  = Raised not_found
  /\ run (scripted unknown_key) (signAndSendTransactionV2 alice "bob.test" [] fresh) []
     = mkRun (Raised not_found) fresh []
         [GetPublicKey "alice.test" "testnet";
          Query "view_access_key" "alice.test" alice_key "optimistic"]
  /\ run_outcome (run (scripted unreachable)
                    (signAndSendTransactionV2 alice "bob.test" [] fresh) [])
     = Raised (mkError "connection refused" (VStr "UntypedError") None).
Proof.
  split; [|split].
  - rewrite (proj2 (proj1 (key_not_found_is_fatal alice (scripted keyless) "bob.test" []
                             fresh []) [] eq_refl)).
    reflexivity.
  - exact (proj2 (proj2 (key_not_found_is_fatal alice (scripted unknown_key) "bob.test" []
                           fresh [])
                    alice_key [] _ [] eq_refl ltac:(apply lookup_empty) eq_refl)).
  - rewrite (proj2 (proj2 (key_not_found_is_fatal alice (scripted unreachable) "bob.test" []
                             fresh [])
                      alice_key [] _ [] eq_refl ltac:(apply lookup_empty) eq_refl)).
    reflexivity.
Defined.

(** A run of the pool is built step by step; the shared state is evaluated
    after each step. *)
Ltac settle :=
  lazymatch goal with
  | |- pool_steps ?env ?sp (mkPool ?S ?T) ?r =>
      let S' := eval vm_compute in S in
      change (pool_steps env sp (mkPool S' T) r)
  end.

Ltac spawn_call c :=
  eapply pool_steps_cons;
  [ apply (pool_spawn _ _ _ c); eexists; eexists; reflexivity | settle ].

Ltac resume_call i answer :=
  eapply pool_steps_cons;
  [ eapply (pool_resume _ _ _ i);
    [ reflexivity | hnf; exists answer; split; [exact I | reflexivity] ] | settle ].

(** Two resolutions race: both miss the cache, the first answer is stored,
    the second is dropped. *)
Lemma resolutions_race :
  exists p : pool state js_error req ans (option (string * ref)),
    pool_steps (fun _ _ => True) (resolution alice) (mkPool fresh []) p
    /\ tasks p !! 0%nat
       = Some (Done (Some (alice_key, 0%nat)) primed)
    /\ tasks p !! 1%nat
       = Some (Done (Some (alice_key, 0%nat)) primed)
    /\ heap (shared p) = [alice_access].
Proof.
  eexists. split; [|split; [|split]].
  - spawn_call (findAccessKey alice "bob.test" []).
    spawn_call (findAccessKey alice "carol.test" []).
    resume_call 0%nat (@Resolved js_error (option string) (Some alice_key)).
    resume_call 1%nat (@Resolved js_error (option string) (Some alice_key)).
    resume_call 0%nat (@Resolved js_error AccessKeyView alice_access).
    resume_call 1%nat (@Resolved js_error AccessKeyView (mkAccessKey 9 (VStr "FullAccess"))).
    apply pool_steps_refl.
  - vm_compute. reflexivity.
  - vm_compute. reflexivity.
  - vm_compute. reflexivity.
Qed.

Lemma first_resolution_wins_witness :
  (exists k1 k2,
      findAccessKey alice "bob.test" [] fresh
      = Await (GetPublicKey "alice.test" "testnet") fresh k1
      /\ k1 (Resolved (Some alice_key)) fresh
         = Await (Query "view_access_key" "alice.test" alice_key "optimistic") fresh k2
      /\ k2 (Resolved (mkAccessKey 9 (VStr "FullAccess"))) primed
         = Done (Some (alice_key, 0%nat)) primed)
  /\ exists p : pool state js_error req ans (option (string * ref)),
       pool_steps (fun _ _ => True) (resolution alice) (mkPool fresh []) p
       /\ tasks p !! 0%nat = Some (Done (Some (alice_key, 0%nat)) primed)
       /\ tasks p !! 1%nat = Some (Done (Some (alice_key, 0%nat)) primed)
       /\ heap (shared p) = [alice_access]
       /\ accessKeyByPublicKeyCache (shared p) !! alice_key = Some 0%nat.
Proof.
  split.
  - destruct (proj1 (first_resolution_wins alice "bob.test" []) fresh) as (k1 & Hk1 & Hnext).
    destruct (Hnext alice_key fresh ltac:(apply lookup_empty)) as (k2 & Hk2 & Hlast).
    exists k1, k2. split; [exact Hk1|]. split; [exact Hk2|].
    apply Hlast. apply lookup_insert_eq.
  - destruct resolutions_race as (p & Hsteps & Hfirst & Hsecond & Hheap).
    exists p. repeat (split; [assumption|]).
    exact (proj2 (proj2 (first_resolution_wins alice "bob.test" []) fresh p Hsteps
                    0%nat 1%nat alice_key 0%nat 0%nat _ _ Hfirst Hsecond)).
Defined.

Lemma nonce_inv_fresh : nonce_inv fresh.
Proof. intros entry. split; [constructor|]. intros n []. Qed.

(** A traced run of the pool is built forwards; the shared state and the
    trace are evaluated after each step. *)
Ltac settle_trace H :=
  lazymatch type of H with
  | pool_trace ?env ?sp ?p ?tr (mkPool ?S ?T) =>
      let S' := eval vm_compute in S in
      let tr' := eval vm_compute in tr in
      change (pool_trace env sp p tr' (mkPool S' T)) in H
  end.

Ltac then_spawn H c :=
  let H' := fresh "Htrace" in
  pose proof (pool_trace_spawn _ _ _ _ _ c H
                (ex_intro _ _ (ex_intro _ _ eq_refl))) as H';
  cbn [shared tasks app] in H'; settle_trace H'; clear H; rename H' into H.

Ltac then_resume H i answer :=
  let H' := fresh "Htrace" in
  unshelve epose proof (pool_trace_resume _ _ _ _ _ i _ _ H eq_refl
                          (ex_intro _ answer (conj I eq_refl))) as H';
  cbn [shared tasks app] in H'; settle_trace H'; clear H; rename H' into H.

Lemma submissions_interleave :
  exists trace (p : pool state js_error req ans FinalExecutionOutcome),
    pool_trace (fun _ _ => True) (submission alice) (mkPool fresh []) trace p
    /\ signed_nonces trace = [7; 6]
    /\ history (shared p) = [Issued 0%nat 7; Issued 0%nat 6].
Proof.
  pose proof (pool_trace_refl (fun _ _ => True) (submission alice) (mkPool fresh []))
    as Htrace.
  then_spawn Htrace (signAndSendTransactionV2 alice "bob.test" []).
  then_spawn Htrace (signAndSendTransactionV2 alice "carol.test" []).
  then_resume Htrace 0%nat (@Resolved js_error (option string) (Some alice_key)).
  then_resume Htrace 1%nat (@Resolved js_error (option string) (Some alice_key)).
  then_resume Htrace 0%nat (@Resolved js_error AccessKeyView alice_access).
  then_resume Htrace 1%nat (@Resolved js_error AccessKeyView alice_access).
  then_resume Htrace 0%nat (@Resolved js_error BlockResult (node_block testnet)).
  then_resume Htrace 1%nat (@Resolved js_error BlockResult (node_block testnet)).
  eexists. eexists. split; [exact Htrace|]. split; vm_compute; reflexivity.
Qed.

Lemma signTransaction_nonces_witness :
  (let r := run (scripted testnet) (signTransaction alice "bob.test" [] primed) [] in
   run_outcome r = Returned signed_by_alice
   /\ heap (run_state r) !! 0%nat = Some (mkAccessKey 6 (VStr "FullAccess"))
   /\ history (run_state r) = [Issued 0%nat 6]
   /\ signed_nonces (run_trace r) = [6])
  /\ exists trace (p : pool state js_error req ans FinalExecutionOutcome),
       pool_trace (fun _ _ => True) (submission alice) (mkPool fresh []) trace p
       /\ signed_nonces trace = [7; 6]
       /\ history (shared p) = [Issued 0%nat 7; Issued 0%nat 6]
       /\ issued (history (shared p)) = signed_nonces trace ++ []
       /\ StronglySorted Z.gt (issued_from 0%nat (history (shared p)))
       /\ NoDup (issued_from 0%nat (history (shared p)))
       /\ StronglySorted Z.gt (signed_nonces trace)
       /\ NoDup (signed_nonces trace).
Proof.
  split.
  - destruct (proj1 (signTransaction_nonces_strictly_increase alice) testnet alice_key
                "bob.test" [] primed [] 0%nat alice_access eq_refl
                ltac:(apply lookup_insert_eq) eq_refl)
      as (Houtcome & _ & Hheap & _ & Hhistory & Htrace & _).
    split; [exact Houtcome|]. split; [exact Hheap|]. split; [exact Hhistory|].
    rewrite Htrace. reflexivity.
  - destruct submissions_interleave as (trace & p & Htrace & Hsigned & Hhistory).
    exists trace, p. do 3 (split; [assumption|]).
    destruct (proj2 (signTransaction_nonces_strictly_increase alice) fresh trace p
                nonce_inv_fresh Htrace) as [Hissued Hstrict].
    split; [exact Hissued|].
    destruct (Hstrict 0%nat) as (Hsorted & Hnodup & Hrequests).
    { rewrite Hhistory. intros n [<-|[<-|[]]]; lia. }
    split; [exact Hsorted|]. split; [exact Hnodup|].
    apply Hrequests. rewrite Hhistory. reflexivity.
Defined.

(** C1, beyond the safe integers.  When the cached nonce is
    9007199254740992 = 2^53, [++] leaves it as it is, 2^53 + 1 being no
    double: two signing attempts in a row, under the same key and from
    the same cache entry, sign the same nonce, and the entry has issued
    that nonce twice. *)
Lemma nonce_repeats_from_2_53 :
  let stuck :=
    snd (cache_store alice_key (mkAccessKey 9007199254740992 (VStr "FullAccess")) fresh) in
  let r1 := run (scripted testnet) (signTransaction alice "bob.test" [] stuck) [] in
  let r2 := run (scripted testnet)
              (signTransaction alice "bob.test" [] (run_state r1)) (run_mock r1) in
  nonce_inv stuck
  /\ accessKeyByPublicKeyCache stuck !! alice_key = Some 0%nat
  /\ run_outcome r1
     = Returned (node_sign testnet alice_key "bob.test" 9007199254740992 [] []
                   "alice.test")
  /\ run_outcome r2
     = Returned (node_sign testnet alice_key "bob.test" 9007199254740992 [] []
                   "alice.test")
  /\ signed_nonces (run_trace r1) = [9007199254740992]
  /\ signed_nonces (run_trace r2) = [9007199254740992]
  /\ issued_from 0%nat (history (run_state r2)) = [9007199254740992; 9007199254740992]
  /\ (NoDup (issued_from 0%nat (history (run_state r2))) -> False).
Proof.
  cbv zeta. split; [|split; [|split; [|split; [|split; [|split; [|split]]]]]].
  - intros entry. split; [constructor|]. intros n [].
  - apply lookup_insert_eq.
  - vm_compute. reflexivity.
  - vm_compute. reflexivity.
  - vm_compute. reflexivity.
  - vm_compute. reflexivity.
  - vm_compute. reflexivity.
  - intros Hnodup. vm_compute in Hnodup.
    apply NoDup_cons_1_1 in Hnodup. apply Hnodup. left.
Qed.

Lemma cache_valid_fresh : cache_valid fresh.
Proof.
  intros publicKey entry Hentry. unfold fresh in Hentry.
  cbn [accessKeyByPublicKeyCache] in Hentry. rewrite lookup_empty in Hentry. discriminate.
Qed.

Lemma nonce_retries_exhausted_witness :
  let r := run (scripted testnet) (signAndSendTransactionV2 alice "bob.test" [] fresh)
             (replicate 12 (Rejected (TypedError "nonce too small" "InvalidNonce"))) in
  run_outcome r
  = Raised (mkError "nonce retries exceeded for transaction. This usually means there are too many parallel requests with the same access key."
              (VStr "RetriesExceeded") None)
  /\ run_mock r = []
  /\ length (submissions (run_trace r)) = 12%nat.
Proof.
  exact (nonce_retries_exhausted alice testnet alice_key alice_access eq_refl eq_refl
           "bob.test" [] fresh
           (replicate 12 (Rejected (TypedError "nonce too small" "InvalidNonce"))) []
           cache_valid_fresh eq_refl eq_refl).
Defined.

Lemma send_error_is_fatal_witness :
  let r := run (scripted testnet) (signAndSendTransactionV2 alice "bob.test" [] fresh)
             [Rejected (TypedError "balance too low" "NotEnoughBalance")] in
  run_outcome r
  = Raised (mkError "balance too low" (VStr "NotEnoughBalance") (Some "6"))
  /\ submissions (run_trace r) = [snd signed_by_alice]
  /\ run_mock r = []
  /\ invalidations (history (run_state r)) = 0%nat
  /\ console (run_state r) = [].
Proof.
  exact (send_error_is_fatal alice testnet alice_key alice_access eq_refl eq_refl
           "bob.test" [] fresh (TypedError "balance too low" "NotEnoughBalance") []
           cache_valid_fresh eq_refl eq_refl).
Defined.

Lemma accepted_at_once_witness :
  let r := run (scripted testnet) (signAndSendTransactionV2 alice "bob.test" [] fresh)
             [Resolved (Some accepted)] in
  run_outcome r = Returned accepted
  /\ submissions (run_trace r) = [snd signed_by_alice]
  /\ run_mock r = []
  /\ (exists entry,
        accessKeyByPublicKeyCache (run_state r) !! alice_key = Some entry
        /\ heap (run_state r) !! entry = Some (mkAccessKey 6 (VStr "FullAccess"))
        /\ history (run_state r) = [Issued entry 6])
  /\ key_queries (run_trace r) = [alice_key].
Proof.
  exact (accepted_at_once alice testnet alice_key alice_access eq_refl eq_refl
           "bob.test" [] fresh accepted _ [] cache_valid_fresh eq_refl eq_refl).
Defined.

Lemma positional_args_are_rejected_witness :
  functionCallV2 alice "guest-book.test" "add_message" (Json (VArr [VStr "hello"]))
    VUndefined VUndefined VUndefined VUndefined VUndefined fresh
  = Fail PositionalArgsError fresh
  /\ AccountViews.viewFunction "guest-book.test" "get_messages" (Json (VArr [VNum 10]))
       (fun _ => inr VNull) (fun _ => []) fresh
     = Fail PositionalArgsError fresh
  /\ functionCallV2 alice "guest-book.test" "add_message" (Json (VStr "hello"))
       VUndefined VUndefined VUndefined VUndefined VUndefined fresh
     = Fail PositionalArgsError fresh.
Proof.
  split; [|split].
  - exact (proj1 (positional_args_are_rejected alice "guest-book.test" "add_message"
                    (VArr [VStr "hello"]) VUndefined VUndefined VUndefined VUndefined
                    VUndefined (fun _ => inr VNull) (fun _ => []) fresh
                    (or_introl eq_refl))).
  - exact (proj2 (positional_args_are_rejected alice "guest-book.test" "get_messages"
                    (VArr [VNum 10]) VUndefined VUndefined VUndefined VUndefined
                    VUndefined (fun _ => inr VNull) (fun _ => []) fresh
                    (or_introl eq_refl))).
  - refine (proj1 (positional_args_are_rejected alice "guest-book.test" "add_message"
                     (VStr "hello") VUndefined VUndefined VUndefined VUndefined
                     VUndefined (fun _ => inr VNull) (fun _ => []) fresh _)).
    right. split; discriminate.
Defined.
End Witnesses.

End AccountFacts.

(** ** The read-only calls *)

Module ViewFacts.
Import AccountViews.
Section Facts.
Context `{RpcErrors} `{AccountDeps} `{transaction.Actions} `{ViewDeps}.
Variable this : Account.account.

Let key_list :=
  Query (VObj [("request_type", VStr "view_access_key_list");
               ("account_id", VStr (Account.accountId this));
               ("finality", VStr "optimistic")]).

Lemma not_full_access_listed item :
  listed_key item -> not_full_access item = inr (grants_contract item).
Proof.
  intros (fields & key_fields & -> & Hkey & Hperm).
  unfold not_full_access, grants_contract, Account.field. cbn [get_prop]. rewrite Hkey.
  cbn [get_prop].
  destruct Hperm as [->|(perm_fields & call_fields & -> & _)]; reflexivity.
Qed.

Lemma authorized_app_listed item :
  listed_key item -> grants_contract item = true ->
  authorized_app item = inr (app_of item).
Proof.
  intros (fields & key_fields & -> & Hkey & Hperm) Hgrants.
  unfold grants_contract, Account.field in Hgrants. cbn [get_prop] in Hgrants.
  rewrite Hkey in Hgrants. cbn [get_prop] in Hgrants.
  destruct Hperm as [Hfull|(perm_fields & call_fields & Hperm & Hcall)].
  - rewrite Hfull in Hgrants. discriminate.
  - unfold authorized_app, app_of, Account.field. cbn [get_prop]. rewrite Hkey.
    cbn [get_prop]. rewrite Hperm. cbn [get_prop]. rewrite Hcall. reflexivity.
Qed.

Lemma filter_items_listed items :
  Forall listed_key items ->
  filter_items not_full_access items = inr (List.filter grants_contract items).
Proof.
  induction 1 as [|item items Hitem _ IH]; [reflexivity|].
  cbn [filter_items List.filter]. rewrite (not_full_access_listed item Hitem), IH.
  reflexivity.
Qed.

Lemma map_items_listed items :
  Forall listed_key items ->
  map_items authorized_app (List.filter grants_contract items)
  = inr (map app_of (List.filter grants_contract items)).
Proof.
  induction 1 as [|item items Hitem _ IH]; [reflexivity|].
  cbn [List.filter]. destruct (grants_contract item) eqn:Hgrants; [|exact IH].
  cbn [map_items map]. rewrite (authorized_app_listed item Hitem Hgrants), IH.
  reflexivity.
Qed.

(** X18.  [getAccountDetails] on a well-formed key list, whether the node
    answered with the array itself or with an object that holds it as
    [keys]: the authorized apps are the entries, in order, of the keys
    whose permission is not 'FullAccess', each with the receiver, the
    allowance and the public key of its key; one query is made. *)
Theorem getAccountDetails_lists_contract_keys {M} (mk : mock js_error req ans M)
    s m response items m' :
  respond mk key_list m = (Resolved response, m') ->
  response = VArr items
  \/ (exists fields, response = VObj fields /\ assoc "keys" fields = VArr items) ->
  Forall listed_key items ->
  run mk (getAccountDetails this s) m
  = mkRun (Returned (VObj [("authorizedApps",
                            VArr (map app_of (List.filter grants_contract items)))]))
      s m' [key_list].
Proof.
  intros Hrespond Hshape Hitems.
  assert (Hkeys : run mk (getAccessKeys this s) m = mkRun (Returned (VArr items)) s m' [key_list]).
  { unfold getAccessKeys, bind, await. cbn [bind_step run]. fold key_list.
    rewrite Hrespond. destruct Hshape as [->|(fields & -> & Hfield)].
    - reflexivity.
    - cbn. rewrite Hfield. reflexivity. }
  unfold getAccountDetails. rewrite run_bind, Hkeys. unfold run_then.
  cbn [run_outcome run_state run_mock run_trace]. unfold bind.
  rewrite (filter_items_listed items Hitems). cbn [lift lift_sum ret bind_step].
  rewrite (map_items_listed items Hitems). reflexivity.
Qed.

(** X19.  [getAccountBalance], the four numbers being read from the
    protocol configuration and the account state: total is amount plus
    locked, the state stake is storage usage times cost per byte, and
    available is total minus the larger of locked and state stake.  So
    available never exceeds the amount, it is the amount when the locked
    balance covers the state stake, and available plus the larger of the
    two is the total. *)
Theorem getAccountBalance_available {M} (mk : mock js_error req ans M)
    s m m1 m2 config account amount locked usage costPerByte :
  let protocol_config := ProtocolConfig (VObj [("finality", VStr "final")]) in
  let view_account :=
    Query (VObj [("request_type", VStr "view_account");
                 ("account_id", VStr (Account.accountId this));
                 ("finality", VStr "optimistic")]) in
  let read v name := Account.field v name in
  respond mk protocol_config m = (Resolved config, m1) ->
  respond mk view_account m1 = (Resolved account, m2) ->
  typeof config = "object" -> config <> VNull ->
  typeof (read config "runtime_config") = "object" ->
  read config "runtime_config" <> VNull ->
  typeof account = "object" -> account <> VNull ->
  BN (read (read config "runtime_config") "storage_amount_per_byte") = inr costPerByte ->
  BN (read account "storage_usage") = inr usage ->
  BN (read account "locked") = inr locked ->
  BN (read account "amount") = inr amount ->
  let balance := amount + locked - Z.max locked (usage * costPerByte) in
  run mk (getAccountBalance this s) m
  = mkRun (Returned (mkBalance (pretty (amount + locked)) (pretty (usage * costPerByte))
                       (pretty locked) (pretty balance)))
      s m2 [protocol_config; view_account]
  /\ balance <= amount
  /\ (usage * costPerByte <= locked -> balance = amount)
  /\ balance + Z.max locked (usage * costPerByte) = amount + locked.
Proof.
  intros protocol_config view_account read Hconfig Haccount
    Hcfg Hcfg' Hrc Hrc' Hacc Hacc' Hcost Husage Hlocked Hamount balance.
  split; [|subst balance; lia].
  assert (Hread : forall v name, typeof v = "object" -> v <> VNull ->
            get_prop v name = inr (read v name)).
  { intros v name Hobj Hnull. unfold read, Account.field.
    destruct v; try discriminate; try contradiction; reflexivity. }
  unfold getAccountBalance, state, bind, await. cbn [bind_step run].
  fold protocol_config. rewrite Hconfig. cbn [bind_step run]. fold view_account.
  rewrite Haccount. cbn [bind_step run].
  rewrite (Hread config "runtime_config") by assumption.
  cbn [lift lift_sum ret bind_step].
  rewrite (Hread (read config "runtime_config") "storage_amount_per_byte") by assumption.
  cbn [lift lift_sum ret bind_step]. rewrite Hcost. cbn [lift lift_sum ret bind_step].
  rewrite (Hread account "storage_usage") by assumption.
  cbn [lift lift_sum ret bind_step]. rewrite Husage. cbn [lift lift_sum ret bind_step].
  rewrite (Hread account "locked") by assumption.
  cbn [lift lift_sum ret bind_step]. rewrite Hlocked. cbn [lift lift_sum ret bind_step].
  rewrite (Hread account "amount") by assumption.
  cbn [lift lift_sum ret bind_step]. rewrite Hamount. cbn [lift lift_sum ret bind_step].
  reflexivity.
Qed.

(** X20.  [viewFunction] with arguments that pass validation makes the
    one call_function query with the serialized arguments (those of the
    empty object when none are given), prints the logs of the result, and
    returns [false] for an empty result, without parsing it, and the
    parsed result, or the error of the parser, otherwise. *)
Theorem viewFunction_result {M} (mk : mock js_error req ans M)
    contractId methodName args (parse : bytes -> js_error + value)
    (stringify : call_args -> bytes) s m result m' :
  let args' := match args with Json VUndefined => Json (VObj []) | _ => args end in
  let call := CallFunction contractId methodName (base64 (stringify args')) "optimistic" in
  Account.validateArgs args' = inr tt ->
  respond mk call m = (Resolved result, m') ->
  let r := run mk (viewFunction contractId methodName args parse stringify s) m in
  run_outcome r
  = match code_result result with
    | [] => Returned (VBool false)
    | _ => match parse (code_result result) with
           | inr v => Returned v
           | inl e => Raised e
           end
    end
  /\ run_state r = Account.printLogs contractId (code_logs result) "" s
  /\ run_trace r = [call].
Proof.
  intros args' call Hvalid Hrespond r. subst r.
  unfold viewFunction, bind. fold args'. rewrite Hvalid.
  cbn [lift lift_sum ret bind_step await run]. fold call. rewrite Hrespond.
  cbn [bind_step modify].
  destruct (code_result result) as [|b bs]; cbn.
  - auto.
  - destruct (parse (b :: bs)); cbn; auto.
Qed.

End Facts.

(** *** The properties on concrete runs *)

Section Witnesses.
#[local] Existing Instance plain_errors.
#[local] Existing Instance plain_deps.
#[local] Existing Instance plain_actions.
#[local] Existing Instance plain_views.

Lemma listed_keys_listed : Forall listed_key listed_keys.
Proof.
  repeat constructor.
  - eexists. eexists. split; [reflexivity|]. split; [reflexivity|]. left. reflexivity.
  - eexists. eexists. split; [reflexivity|]. split; [reflexivity|]. right.
    eexists. eexists. split; reflexivity.
Qed.

Lemma getAccountDetails_witness :
  run (fixed_node (VObj [("keys", VArr listed_keys)]) account_view protocol_config greeting)
    (getAccountDetails alice fresh) tt
  = mkRun (Returned (VObj [("authorizedApps",
             VArr [VObj [("contractId", VStr "guest-book.test");
                         ("amount", VStr "250000000000");
                         ("publicKey", VStr "ed25519:app")]])]))
      fresh tt
      [Query (VObj [("request_type", VStr "view_access_key_list");
                    ("account_id", VStr "alice.test");
                    ("finality", VStr "optimistic")])].
Proof.
  exact (getAccountDetails_lists_contract_keys alice
           (fixed_node (VObj [("keys", VArr listed_keys)]) account_view protocol_config
              greeting)
           fresh tt (VObj [("keys", VArr listed_keys)]) listed_keys tt eq_refl
           (or_intror (ex_intro _ [("keys", VArr listed_keys)] (conj eq_refl eq_refl)))
           listed_keys_listed).
Defined.

Lemma getAccountBalance_witness :
  run (fixed_node (VArr []) account_view protocol_config greeting)
    (getAccountBalance alice fresh) tt
  = mkRun (Returned (mkBalance "5100" "1820" "100" "3280")) fresh tt
      [ProtocolConfig (VObj [("finality", VStr "final")]);
       Query (VObj [("request_type", VStr "view_account");
                    ("account_id", VStr "alice.test");
                    ("finality", VStr "optimistic")])]
  /\ 3280 <= 5000.
Proof.
  destruct (getAccountBalance_available alice
              (fixed_node (VArr []) account_view protocol_config greeting)
              fresh tt tt tt protocol_config account_view 5000 100 182 10
              eq_refl eq_refl eq_refl ltac:(discriminate) eq_refl ltac:(discriminate)
              eq_refl ltac:(discriminate) eq_refl eq_refl eq_refl eq_refl)
    as (Hrun & Hle & _).
  split; [exact Hrun|exact Hle].
Defined.

Lemma viewFunction_witness :
  let r := run (fixed_node (VArr []) account_view protocol_config greeting)
             (viewFunction "guest-book.test" "get_messages" (Json VUndefined)
                (fun _ => inr VNull) (fun _ => [123; 125]) fresh) tt in
  run_outcome r = Returned (VBool false)
  /\ run_state r = Account.printLogs "guest-book.test" ["hello"] "" fresh
  /\ run_trace r = [CallFunction "guest-book.test" "get_messages" "123,125" "optimistic"].
Proof.
  exact (viewFunction_result
           (fixed_node (VArr []) account_view protocol_config greeting)
           "guest-book.test" "get_messages" (Json VUndefined)
           (fun _ => inr VNull) (fun _ => [123; 125]) fresh tt greeting tt
           eq_refl eq_refl).
Defined.
End Witnesses.

End ViewFacts.

(** ** The arguments of a contract method *)

Module ContractFacts.
Import ContractJSI.

Lemma assoc_set_field name v fields :
  assoc name (set_field name v fields) = v.
Proof.
  induction fields as [|[k x] rest IH]; cbn.
  - rewrite String.eqb_refl. reflexivity.
  - destruct (String.eqb k name) eqn:Hk; cbn; rewrite Hk; [reflexivity|exact IH].
Qed.

Lemma assoc_set_field_ne name other v fields :
  other <> name -> assoc other (set_field name v fields) = assoc other fields.
Proof.
  intros Hne. induction fields as [|[k x] rest IH]; cbn.
  - destruct (String.eqb_spec name other); [congruence|reflexivity].
  - destruct (String.eqb_spec k name) as [->|Hk]; cbn.
    + destruct (String.eqb_spec name other); [congruence|reflexivity].
    + destruct (String.eqb k other); [reflexivity|exact IH].
Qed.

Lemma keys_set_field name v fields key :
  In key (map fst (set_field name v fields)) <-> key = name \/ In key (map fst fields).
Proof.
  induction fields as [|[k x] rest IH]; cbn.
  - intuition.
  - destruct (String.eqb_spec k name) as [->|Hk]; cbn.
    + intuition.
    + rewrite IH. intuition.
Qed.


Section Positions.
Variable properties : list (string * value).
Let keys := Object_keys properties.
Let name (index : nat) : string := default "undefined" (keys !! index).
Let store (args : list (string * value)) (v : value) (index : nat) :=
  set_field (name index) v args.

Lemma assoc_forEach_none params index acc key :
  (forall j, (index <= j < index + length params)%nat -> name j <> key) ->
  assoc key (forEach store params index acc) = assoc key acc.
Proof.
  revert index acc. induction params as [|v rest IH]; intros index acc Hnone; [reflexivity|].
  cbn [forEach]. rewrite IH.
  - apply assoc_set_field_ne. intros ->. apply (Hnone index); [cbn; lia|reflexivity].
  - intros j Hj. apply Hnone. cbn. lia.
Qed.

Lemma assoc_forEach_latest params index acc key j v :
  (index <= j)%nat ->
  params !! (j - index)%nat = Some v ->
  name j = key ->
  (forall j', (j < j' < index + length params)%nat -> name j' <> key) ->
  assoc key (forEach store params index acc) = v.
Proof.
  revert index acc. induction params as [|v0 rest IH]; intros index acc Hle Hj Hname Hlater.
  - rewrite lookup_nil in Hj. discriminate.
  - cbn [forEach]. destruct (decide (j = index)) as [->|Hne].
    + replace (index - index)%nat with 0%nat in Hj by lia. injection Hj as ->.
      rewrite assoc_forEach_none.
      * unfold store. rewrite Hname. apply assoc_set_field.
      * intros j' Hj'. apply Hlater. cbn. lia.
    + apply IH; [lia| |exact Hname|].
      * replace (j - index)%nat with (S (j - S index)) in Hj by lia. exact Hj.
      * intros j' Hj'. apply Hlater. cbn. lia.
Qed.

Lemma keys_forEach params index acc key :
  In key (map fst (forEach store params index acc))
  <-> In key (map fst acc)
      \/ exists j, (index <= j < index + length params)%nat /\ name j = key.
Proof.
  revert index acc. induction params as [|v rest IH]; intros index acc; cbn [forEach].
  - split; [auto|]. intros [Hin|(j & Hj & _)]; [exact Hin|cbn in Hj; lia].
  - rewrite IH. change (store acc v index) with (set_field (name index) v acc).
    rewrite keys_set_field. split.
    + intros [[->|Hin]|(j & Hj & Hname)].
      * right. exists index. split; [cbn; lia|reflexivity].
      * left. exact Hin.
      * right. exists j. split; [cbn; lia|exact Hname].
    + intros [Hin|(j & Hj & Hname)]; [auto|].
      destruct (decide (j = index)) as [->|Hne]; [auto|].
      right. exists j. split; [cbn in Hj; lia|exact Hname].
Qed.

(** X21.  [CreateArgs] stores the i-th parameter under the i-th property
    name; parameters beyond the last property all go to the name
    'undefined', where the last of them stays; the names of the result
    are the first property names, as many as there are parameters, and
    'undefined' if there are more parameters than properties. *)
Theorem CreateArgs_by_position params :
  let args := CreateArgs params properties in
  NoDup (Object_keys properties) ->
  ~ In "__proto__" (Object_keys properties) ->
  (forall i key v,
      Object_keys properties !! i = Some key -> params !! i = Some v ->
      (length params <= length properties)%nat \/ key <> "undefined" ->
      assoc key args = v)
  /\ ((length properties < length params)%nat ->
      assoc "undefined" args = List.last params VUndefined)
  /\ (forall key,
        In key (map fst args)
        <-> In key (take (length params) (Object_keys properties))
            \/ ((length properties < length params)%nat /\ key = "undefined")).
Proof.
  intros args Hnodup _. subst args. unfold CreateArgs. fold keys.
  change (fun args value index => set_field (default "undefined" (keys !! index)) value args)
    with store.
  assert (Hlen : length keys = length properties) by apply length_map.
  assert (Hname_in : forall j key, keys !! j = Some key -> name j = key).
  { intros j key Hj. unfold name. rewrite Hj. reflexivity. }
  assert (Hname_out : forall j, (length keys <= j)%nat -> name j = "undefined").
  { intros j Hj. unfold name. rewrite lookup_ge_None_2 by exact Hj. reflexivity. }
  split; [|split].
  - intros i key v Hkey Hv Hcase.
    apply (assoc_forEach_latest params 0%nat [] key i v); [lia| |apply Hname_in, Hkey|].
    + replace (i - 0)%nat with i by lia. exact Hv.
    + intros j' Hj' Hsame. destruct (keys !! j') as [key'|] eqn:Hkey'.
      * rewrite (Hname_in j' key' Hkey') in Hsame. subst key'.
        pose proof (NoDup_lookup keys i j' key Hnodup Hkey Hkey'). lia.
      * apply lookup_ge_None_1 in Hkey'. rewrite (Hname_out j' Hkey') in Hsame.
        destruct Hcase as [Hshort|Hdiff]; [cbn in Hj'; lia|congruence].
  - intros Hlong. destruct params as [|v0 rest] using rev_ind; [cbn in Hlong; lia|].
    clear IHrest. rewrite List.last_last.
    apply (assoc_forEach_latest (rest ++ [v0]) 0%nat [] "undefined" (length rest) v0).
    + lia.
    + replace (length rest - 0)%nat with (length rest) by lia.
      apply list_lookup_middle. reflexivity.
    + apply Hname_out. rewrite length_app in Hlong. cbn in Hlong. lia.
    + intros j' Hj'. rewrite length_app in Hj'. cbn in Hj'. lia.
  - intros key. rewrite keys_forEach. cbn [map In]. split.
    + intros [[]|(j & Hj & Hname)].
      destruct (keys !! j) as [key'|] eqn:Hkey'.
      * left. rewrite (Hname_in j key' Hkey') in Hname. subst key'.
        apply list_elem_of_In. apply (list_elem_of_lookup_2 _ j).
        rewrite lookup_take_lt by (cbn in Hj; lia). exact Hkey'.
      * right. apply lookup_ge_None_1 in Hkey'. rewrite (Hname_out j Hkey') in Hname.
        split; [cbn in Hj; lia|congruence].
    + intros [Hin|[Hlong ->]]; right.
      * apply list_elem_of_In, list_elem_of_lookup_1 in Hin as [j Hj].
        apply lookup_take_Some in Hj as [Hj Hlt].
        exists j. split; [cbn; lia|apply Hname_in, Hj].
      * exists (length keys). split; [cbn; lia|apply Hname_out; lia].
Qed.

End Positions.

Lemma CreateArgs_witness :
  let properties := [("description", VObj [("type", VStr "string")]);
                     ("end_height", VObj [("type", VStr "integer")])] in
  let args := CreateArgs [VStr "poll"; VNum 7; VStr "surplus"; VStr "last"] properties in
  assoc "description" args = VStr "poll"
  /\ assoc "end_height" args = VNum 7
  /\ assoc "undefined" args = VStr "last".
Proof.
  intros properties args.
  destruct (CreateArgs_by_position properties
              [VStr "poll"; VNum 7; VStr "surplus"; VStr "last"])
    as (Hat & Hrest & _).
  { repeat constructor; cbn; intros Hin; apply list_elem_of_In in Hin; cbn in Hin;
      intuition discriminate. }
  { cbn. intuition discriminate. }
  split; [|split].
  - apply (Hat 0%nat "description" (VStr "poll") eq_refl eq_refl).
    right. discriminate.
  - apply (Hat 1%nat "end_height" (VNum 7) eq_refl eq_refl).
    right. discriminate.
  - apply Hrest. cbn. lia.
Defined.

End ContractFacts.
